(** * Camera capture core: lots, retry budget, resolution preset, zoom,
      focus mapping and format selection.

    A shallow embedding of the decision logic of
    [src/components/camera/CameraScreen.tsx], [src/components/camera/types.ts]
    and [src/components/forms/LotManager.tsx].

    Conventions.
    - React state is passed explicitly: a [setLots (prev => ...)] updater is a
      function from the previous array to the next one.  A callback that
      reads state from its closure and calls an updater later takes both
      arrays: the one rendered when it was called and the updater's [prev].
    - A JavaScript array is a [list]; [arr[i]] is stdpp's lookup [arr !! i]
      and the copy-then-assign idiom [updated[i] = v] is [<[i:=v]> arr].
    - Pixel sizes and indices are integers ([Z]); zoom factors, screen
      coordinates and megapixel counts are JavaScript numbers, idealised as
      exact rationals ([Q]): rounding is not modelled, and [Infinity] and
      [NaN] only where the code divides by a number that can be zero (the
      scores of the format choice).
    - [undefined]/[null] is [None]. *)

From Stdlib Require Import ZArith QArith Qminmax Qabs Lia Lqa Bool String.
From Stdlib Require Import SetoidList.
From stdpp Require Import base list.

Local Open Scope Z_scope.

(* ------------------------------------------------------------------ *)
(** ** Shared data model ([types.ts]) *)

Module Types.

Inductive CaptureMode := single_lot | per_item | per_photo.

Definition CaptureMode_eqb (a b : CaptureMode) : bool :=
  match a, b with
  | single_lot, single_lot | per_item, per_item | per_photo, per_photo => true
  | _, _ => false
  end.

(** Normalised rectangle attached to a photo ([focusBox]). *)
Record NormBox := mkNormBox { nb_x : Q; nb_y : Q; nb_w : Q; nb_h : Q }.

(** [PhotoFile]; the constant [type] ("image/jpeg") and the optional
    [displayUri] and [adjustments] play no part below and are left out. *)
Record PhotoFile := mkPhotoFile {
  uri : string;
  name : string;
  width : option Z;
  height : option Z;
  megapixels : option Q;
  focusBox : option NormBox
}.

Record MixedLot := mkMixedLot {
  id : string;
  mode : option CaptureMode;
  files : list PhotoFile;
  extraFiles : list PhotoFile;
  coverIndex : Z;
  videoFile : option PhotoFile
}.

(** [createNewLot]: the id is built from the clock and a random suffix, so it
    is an input here. *)
Definition createNewLot (fresh_id : string) : MixedLot :=
  {| id := fresh_id; mode := None; files := []; extraFiles := [];
     coverIndex := 0; videoFile := None |}.

End Types.

(* ------------------------------------------------------------------ *)
(** ** Lot state machine *)

Module Lots.
Import Types.

(** Outcome of one press of a capture button. *)
Inductive CaptureOutcome :=
| Ignored        (* no camera ref, or the busy flag is set *)
| ModeMismatch   (* the "Mode Mismatch" alert; nothing is captured *)
| CaptureFailed  (* takePhoto rejected; only a warning is logged *)
| Filed.         (* the setLots updater ran *)

(** The guard of [handleCapture]:
    [currentLot?.mode && currentLot.mode !== mode && !isExtra]. *)
Definition modeMismatch (lots : list MixedLot) (activeLotIdx : nat)
    (m : CaptureMode) (isExtra : bool) : bool :=
  match lots !! activeLotIdx with
  | Some currentLot =>
      match mode currentLot with
      | Some lm => negb (CaptureMode_eqb lm m) && negb isExtra
      | None => false
      end
  | None => false
  end.

(** The [setLots] updater run once the photo is available. *)
Definition fileCapture (activeLotIdx : nat) (m : CaptureMode) (isExtra : bool)
    (newPhoto : PhotoFile) (prev : list MixedLot) : list MixedLot :=
  match prev !! activeLotIdx with
  | None => prev
  | Some lot =>
      if isExtra then
        <[activeLotIdx :=
           {| id := id lot; mode := mode lot; files := files lot;
              extraFiles := newPhoto :: extraFiles lot;
              coverIndex := coverIndex lot; videoFile := videoFile lot |}]> prev
      else
        <[activeLotIdx :=
           {| id := id lot; mode := Some m; files := newPhoto :: files lot;
              extraFiles := extraFiles lot;
              coverIndex := coverIndex lot; videoFile := videoFile lot |}]> prev
  end.

(** [handleCapture mode isExtra].  [cameraReady] is [cameraRef.current]
    being set, [capturing] the busy flag, and [taken] the result of
    [takePhoto] ([None] when its promise rejects).

    The function runs in two phases.  At the press the guards run, and the
    mode guard reads [lots], the array of the render in which the callback
    was created.  The photo is then taken after a [setTimeout] and the
    [takePhoto] promise, and only its [then] calls [setLots] with the
    updater, which receives [prev], the array at that later moment.  The
    busy flag is read but [setCapturing] is called nowhere, so further
    presses are accepted in between and [prev] may already hold captures
    that [lots] does not show.  [activeLotIdx] is the closure's value in
    both phases.  Where nothing is filed the state stays [prev]. *)
Definition handleCapture (cameraReady capturing : bool)
    (lots : list MixedLot) (activeLotIdx : nat)
    (m : CaptureMode) (isExtra : bool) (taken : option PhotoFile)
    (prev : list MixedLot)
  : CaptureOutcome * list MixedLot :=
  if negb cameraReady then (Ignored, prev)
  else if capturing then (Ignored, prev)
  else if modeMismatch lots activeLotIdx m isExtra then (ModeMismatch, prev)
  else match taken with
       | None => (CaptureFailed, prev)
       | Some newPhoto => (Filed, fileCapture activeLotIdx m isExtra newPhoto prev)
       end.

(** [lot.files.filter((_, i) => i !== imgIdx)]. *)
Fixpoint filterOutIndex {A} (i : Z) (imgIdx : Z) (l : list A) : list A :=
  match l with
  | [] => []
  | x :: t =>
      if Z.eqb i imgIdx then filterOutIndex (i + 1) imgIdx t
      else x :: filterOutIndex (i + 1) imgIdx t
  end.

(** [removeImage] of LotManager.  Reading [lot.files] of a missing lot throws
    a TypeError: [None]. *)
Definition removeImage (lotIdx : nat) (imgIdx : Z) (prev : list MixedLot)
  : option (list MixedLot) :=
  match prev !! lotIdx with
  | None => None
  | Some lot =>
      let files' := filterOutIndex 0 imgIdx (files lot) in
      let coverIndex' :=
        Z.max 0 (Z.min (Z.of_nat (length files') - 1) (coverIndex lot)) in
      Some (<[lotIdx :=
               {| id := id lot; mode := mode lot; files := files';
                  extraFiles := extraFiles lot; coverIndex := coverIndex';
                  videoFile := videoFile lot |}]> prev)
  end.

(** [setCoverImage] of LotManager: [{ ...updated[lotIdx], coverIndex: imgIdx }].
    With no lot at [lotIdx] JavaScript would store an object holding only a
    [coverIndex] at a new index; that object is not a [MixedLot], so this
    case is [None] here. *)
Definition setCoverImage (lotIdx : nat) (imgIdx : Z) (prev : list MixedLot)
  : option (list MixedLot) :=
  match prev !! lotIdx with
  | None => None
  | Some lot =>
      Some (<[lotIdx :=
               {| id := id lot; mode := mode lot; files := files lot;
                  extraFiles := extraFiles lot; coverIndex := imgIdx;
                  videoFile := videoFile lot |}]> prev)
  end.

(** [coverIndex] is a valid index into [files], or [0] when there is none. *)
Definition coverValid (lot : MixedLot) : Prop :=
  match files lot with
  | [] => coverIndex lot = 0
  | _ :: _ => 0 <= coverIndex lot < Z.of_nat (length (files lot))
  end.

(** Operations of the lot invariant: a capture button press whose photo
    came back ([rendered] is the array the press saw), and the removal of a
    main image. *)
Inductive LotOp :=
| OpCapture (rendered : list MixedLot) (m : CaptureMode) (isExtra : bool)
    (photo : PhotoFile)
| OpRemoveMain (imgIdx : Z).

Definition applyOp (lotIdx : nat) (lots : list MixedLot) (op : LotOp)
  : list MixedLot :=
  match op with
  | OpCapture rendered m isExtra photo =>
      snd (handleCapture true false rendered lotIdx m isExtra (Some photo) lots)
  | OpRemoveMain imgIdx =>
      match removeImage lotIdx imgIdx lots with
      | Some lots' => lots'
      | None => lots
      end
  end.

Definition runOps (lotIdx : nat) (ops : list LotOp) (lots : list MixedLot)
  : list MixedLot :=
  fold_left (applyOp lotIdx) ops lots.

End Lots.

(* ------------------------------------------------------------------ *)
(** ** Device-enumeration retry (the camera-init [useEffect]) *)

Module CameraInit.

Record State := mkState {
  visible : bool;
  hasCameraPermission : bool;
  deviceFound : bool;                  (* [device] is truthy *)
  cameraInitAttempts : Z;
  cameraInitTimedOut : bool;
  cameraInitIntervalRef : option Z     (* delay (ms) of the live interval *)
}.

Definition RETRY_DELAY_MS : Z := 500.
Definition RETRY_BUDGET : Z := 10.

Definition setIntervalRef (r : option Z) (st : State) : State :=
  {| visible := visible st; hasCameraPermission := hasCameraPermission st;
     deviceFound := deviceFound st;
     cameraInitAttempts := cameraInitAttempts st;
     cameraInitTimedOut := cameraInitTimedOut st;
     cameraInitIntervalRef := r |}.

(** Body of the effect. *)
Definition retryEffect (st : State) : State :=
  if negb (visible st) || negb (hasCameraPermission st)
     || deviceFound st || cameraInitTimedOut st
  then setIntervalRef None st
  else match cameraInitIntervalRef st with
       | None => setIntervalRef (Some RETRY_DELAY_MS) st
       | Some _ => st
       end.

(** Cleanup returned by the effect. *)
Definition retryCleanup (st : State) : State := setIntervalRef None st.

(** The interval callback: the [setCameraInitAttempts] updater. *)
Definition onInterval (st : State) : State :=
  let next := cameraInitAttempts st + 1 in
  if Z.leb RETRY_BUDGET next then
    {| visible := visible st; hasCameraPermission := hasCameraPermission st;
       deviceFound := deviceFound st;
       cameraInitAttempts := next;
       cameraInitTimedOut := true;
       cameraInitIntervalRef := None |}
  else
    {| visible := visible st; hasCameraPermission := hasCameraPermission st;
       deviceFound := deviceFound st;
       cameraInitAttempts := next;
       cameraInitTimedOut := cameraInitTimedOut st;
       cameraInitIntervalRef := cameraInitIntervalRef st |}.

(** One poll: if an interval is live it fires, the state change re-renders,
    and React runs the previous cleanup and then the effect again.  With no
    live interval nothing happens. *)
Definition poll (st : State) : State :=
  match cameraInitIntervalRef st with
  | None => st
  | Some _ => retryEffect (retryCleanup (onInterval st))
  end.

Fixpoint polls (n : nat) (st : State) : State :=
  match n with
  | O => st
  | S k => polls k (poll st)
  end.

(** The modal has just opened with permission granted and no device: the
    reset effect zeroes the counters and the retry effect runs once. *)
Definition opened : State :=
  retryEffect
    {| visible := true; hasCameraPermission := true; deviceFound := false;
       cameraInitAttempts := 0; cameraInitTimedOut := false;
       cameraInitIntervalRef := None |}.

(** The state while polling, after [a] empty polls. *)
Definition polling (a : Z) : State :=
  {| visible := true; hasCameraPermission := true; deviceFound := false;
     cameraInitAttempts := a; cameraInitTimedOut := false;
     cameraInitIntervalRef := Some RETRY_DELAY_MS |}.

(** The terminal state: timed out, no interval left. *)
Definition gaveUp (a : Z) : State :=
  {| visible := true; hasCameraPermission := true; deviceFound := false;
     cameraInitAttempts := a; cameraInitTimedOut := true;
     cameraInitIntervalRef := None |}.

End CameraInit.

(* ------------------------------------------------------------------ *)
(** ** Resolution preset state *)

Inductive ResolutionPreset :=
| PresetAuto
| PresetMax
| PresetMP (n : Q).

Module Resolution.

Record State := mkState {
  resolutionPreset : ResolutionPreset;
  maxResolutionMode : bool
}.

(** [useState] initial values. *)
Definition initial : State :=
  {| resolutionPreset := PresetMax; maxResolutionMode := true |}.

Definition setResolutionPreset (p : ResolutionPreset) (st : State) : State :=
  {| resolutionPreset := p; maxResolutionMode := maxResolutionMode st |}.

Definition setMaxResolutionMode (b : bool) (st : State) : State :=
  {| resolutionPreset := resolutionPreset st; maxResolutionMode := b |}.

Definition toggleMaxResolutionMode (st : State) : State :=
  setMaxResolutionMode true st.

Definition applyResolutionPreset (_preset : ResolutionPreset) (st : State)
  : State :=
  setMaxResolutionMode true (setResolutionPreset PresetMax st).

(** The [visible] effect: [if (!visible) return; applyResolutionPreset("max")]
    (the performance-mode read that follows touches other state). *)
Definition visibleEffect (visible : bool) (st : State) : State :=
  if negb visible then st else applyResolutionPreset PresetMax st.

(** Every handler of the screen that writes one of the two fields. *)
Inductive Action :=
| ApplyPreset (p : ResolutionPreset)
| ToggleMaxResolution
| ForceWide                 (* the low-resolution safety nets *)
| VisibleChanged (visible : bool).

Definition step (st : State) (a : Action) : State :=
  match a with
  | ApplyPreset p => applyResolutionPreset p st
  | ToggleMaxResolution => toggleMaxResolutionMode st
  | ForceWide => setMaxResolutionMode true st
  | VisibleChanged v => visibleEffect v st
  end.

(** The state every handler leads to. *)
Definition pinned : State :=
  {| resolutionPreset := PresetMax; maxResolutionMode := true |}.

End Resolution.

(* ------------------------------------------------------------------ *)
(** ** Numbers *)

(** Comparisons of JavaScript numbers, on rationals. *)
Definition Qleb (a b : Q) : bool := Qle_bool a b.
Definition Qltb (a b : Q) : bool := negb (Qle_bool b a).
Definition Qeqb (a b : Q) : bool := Qeq_bool a b.

(** [a || b] on numbers: [b] when [a] is zero. *)
Definition orElse (a b : Q) : Q := if Qeqb a 0 then b else a.

(** [clamp(value, min, max)]. *)
Definition clamp (value min max : Q) : Q := Qmax min (Qmin max value).

(* ------------------------------------------------------------------ *)
(** ** Camera descriptors (the driver's [CameraDevice] and its formats) *)

Module Camera.

Inductive CameraPosition := front | back | external.

Inductive PhysicalDeviceType :=
| ultra_wide_angle_camera
| wide_angle_camera
| telephoto_camera.

Definition PhysicalDeviceType_eqb (a b : PhysicalDeviceType) : bool :=
  match a, b with
  | ultra_wide_angle_camera, ultra_wide_angle_camera
  | wide_angle_camera, wide_angle_camera
  | telephoto_camera, telephoto_camera => true
  | _, _ => false
  end.

(** [arr.includes(x)]. *)
Definition includes (x : PhysicalDeviceType) (arr : list PhysicalDeviceType)
  : bool :=
  existsb (PhysicalDeviceType_eqb x) arr.

(** The driver declares every size as a number, so the [?? 0] defaults of
    the source never fire; [maxFps] is tested with [typeof], so it stays
    optional. *)
Record CameraFormat := mkFormat {
  photoWidth : Z;
  photoHeight : Z;
  videoWidth : Z;
  videoHeight : Z;
  maxFps : option Q
}.

Record CameraDevice := mkDevice {
  id : string;
  position : CameraPosition;
  physicalDevices : list PhysicalDeviceType;
  formats : list CameraFormat;
  minZoom : Q;
  maxZoom : Q;
  neutralZoom : Q
}.

Definition isBack (p : CameraPosition) : bool :=
  match p with back => true | _ => false end.

End Camera.

(* ------------------------------------------------------------------ *)
(** ** Zoom controller *)

Module Zoom.
Import Camera.
Local Open Scope Q_scope.

Definition SCALE_FULL_ZOOM : Q := 3.

(** The three [useMemo] values derived from the device. *)
Definition minZoomOf (device : option CameraDevice) (maxResolutionMode : bool)
  : Q :=
  match device with
  | Some d => if maxResolutionMode then neutralZoom d else minZoom d
  | None => 1
  end.

Definition maxZoomOf (device : option CameraDevice) : Q :=
  match device with Some d => maxZoom d | None => 1 end.

Definition neutralZoomOf (device : option CameraDevice) : Q :=
  match device with Some d => neutralZoom d | None => 1 end.

Record ZoomPreset := mkPreset { label : string; value : Q }.

(** [physicalDevices?.includes(k)]: false without a device. *)
Definition deviceIncludes (device : option CameraDevice)
    (k : PhysicalDeviceType) : bool :=
  match device with
  | Some d => includes k (physicalDevices d)
  | None => false
  end.

Definition zoomPresets (device : option CameraDevice)
    (maxResolutionMode : bool) : list ZoomPreset :=
  let minZoom := minZoomOf device maxResolutionMode in
  let maxZoom := maxZoomOf device in
  let neutralZoom := neutralZoomOf device in
  let hasUltraWide :=
    negb maxResolutionMode &&
    (deviceIncludes device ultra_wide_angle_camera
     || Qltb (minZoom + (5 # 100)) neutralZoom) in
  let hasTelephoto := deviceIncludes device telephoto_camera in
  let twoX := neutralZoom * 2 in
  let threeX := neutralZoom * 3 in
  let fiveX := neutralZoom * 5 in
  (if hasUltraWide && Qltb minZoom neutralZoom
   then [mkPreset "UW" minZoom] else [])
  ++ [mkPreset "1x" neutralZoom]
  ++ (if Qleb twoX maxZoom then [mkPreset "2x" twoX] else [])
  ++ (if hasTelephoto || Qleb threeX maxZoom
      then [mkPreset "3x" (Qmin threeX maxZoom)] else [])
  ++ (if Qleb fiveX maxZoom then [mkPreset "5x" fiveX] else []).

(** The shared values and the React state that hold the zoom. *)
Record ZoomState := mkZoomState {
  zoom : Q;
  pinchStartZoom : Q;
  lastZoomReported : Q;
  currentZoom : Q
}.

(** [setZoomLevel(level)]. *)
Definition setZoomLevel (minZoom maxZoom level : Q) (st : ZoomState)
  : ZoomState :=
  let clamped := Qmax minZoom (Qmin level maxZoom) in
  {| zoom := clamped; pinchStartZoom := clamped;
     lastZoomReported := clamped; currentZoom := clamped |}.

(** Modelled from the spec: the animation library's [interpolate], which
    the pinch handler calls and which is not part of the sources.  The
    mapping is linear between two knots and, under [Extrapolate.CLAMP],
    "clamped at both ends": cut off at the outputs of the two knots. *)
Definition interpolateSegment (x leftIn rightIn leftOut rightOut : Q) : Q :=
  if Qeqb (rightIn - leftIn) 0 then leftOut
  else
    let progress := (x - leftIn) / (rightIn - leftIn) in
    let val := leftOut + progress * (rightOut - leftOut) in
    let coef : Q := if Qleb leftOut rightOut then 1 else -1 in
    if Qltb (coef * val) (coef * leftOut) then leftOut
    else if Qltb (coef * rightOut) (coef * val) then rightOut
    else val.

(** Modelled from the spec: [interpolate(x, [i0,i1,i2], [o0,o1,o2],
    Extrapolate.CLAMP)] of the same library, through three knots: the last
    segment serves an [x] beyond the last knot, otherwise the first segment
    whose right knot is not below [x]. *)
Definition interpolate3 (x i0 i1 i2 o0 o1 o2 : Q) : Q :=
  if Qltb i2 x then interpolateSegment x i1 i2 o1 o2
  else if Qleb x i1 then interpolateSegment x i0 i1 o0 o1
  else interpolateSegment x i1 i2 o1 o2.

(** Pinch gesture: [onBegin] and [onUpdate(event)]. *)
Definition pinchBegin (st : ZoomState) : ZoomState :=
  {| zoom := zoom st; pinchStartZoom := zoom st;
     lastZoomReported := lastZoomReported st; currentZoom := currentZoom st |}.

Definition pinchUpdate (minZoom maxZoom eventScale : Q) (st : ZoomState)
  : ZoomState :=
  let scale :=
    interpolate3 eventScale (1 - 1 / SCALE_FULL_ZOOM) 1 SCALE_FULL_ZOOM
                 (-1) 0 1 in
  {| zoom := interpolate3 scale (-1) 0 1 minZoom (pinchStartZoom st) maxZoom;
     pinchStartZoom := pinchStartZoom st;
     lastZoomReported := lastZoomReported st;
     currentZoom := currentZoom st |}.

(** Two presets carry the same zoom factor. *)
Definition sameFactor (p q : ZoomPreset) : Prop := value p == value q.

(** No two entries of a preset list carry the same factor. *)
Definition distinctFactors (presets : list ZoomPreset) : Prop :=
  NoDupA sameFactor presets.

Definition inRange (minZoom maxZoom z : Q) : Prop :=
  minZoom <= z /\ z <= maxZoom.

End Zoom.

(* ------------------------------------------------------------------ *)
(** ** Focus mapper *)

Module Focus.
Import Types.
Local Open Scope Q_scope.

(** [cameraViewDimensions] and the window [dimensions]. *)
Record Dimensions := mkDims { dim_width : Q; dim_height : Q }.

(** [focusBoxRect]: the guide box in screen coordinates. *)
Record BoxRect := mkBox {
  box_x : Q; box_y : Q; box_width : Q; box_height : Q
}.

Record PreviewRect := mkPreview {
  left : Q; top : Q; pv_width : Q; pv_height : Q
}.

(** The state read by [computeNormalizedFocusBox]. *)
Record FocusEnv := mkEnv {
  focusOn : bool;
  focusBoxRect : option BoxRect;
  cameraViewDimensions : Dimensions;
  dimensions : Dimensions
}.

Definition isLandscape (dimensions : Dimensions) : bool :=
  Qltb (dim_height dimensions) (dim_width dimensions).

Definition portraitPreviewRect (cameraViewDimensions dimensions : Dimensions)
  : PreviewRect :=
  let vw := orElse (dim_width cameraViewDimensions) (dim_width dimensions) in
  let vh := orElse (dim_height cameraViewDimensions) (dim_height dimensions) in
  let tall := Qltb vh (vw * 4 / 3) in      (* [height > vh] *)
  let height := if tall then vh else vw * 4 / 3 in
  let width := if tall then vh * 3 / 4 else vw in
  {| left := Qmax 0 ((vw - width) / 2);
     top := Qmax 0 ((vh - height) / 2);
     pv_width := width; pv_height := height |}.

(** [previewLeft], [previewTop], [previewWidth], [previewHeight]. *)
Definition previewGeometry (env : FocusEnv) : PreviewRect :=
  if negb (isLandscape (dimensions env)) then
    portraitPreviewRect (cameraViewDimensions env) (dimensions env)
  else
    {| left := 0; top := 0;
       pv_width := orElse (dim_width (cameraViewDimensions env))
                          (dim_width (dimensions env));
       pv_height := orElse (dim_height (cameraViewDimensions env))
                           (dim_height (dimensions env)) |}.

(** Steps 1 and 2: intersect the guide box with the preview and normalise
    ([normX], [normY], [normW], [normH] before the orientation test). *)
Definition normalizedIntersection (pv : PreviewRect) (box : BoxRect)
  : option NormBox :=
  if Qleb (pv_width pv) 0 || Qleb (pv_height pv) 0 then None
  else
    let boxLeft := Qmax (left pv) (box_x box) in
    let boxTop := Qmax (top pv) (box_y box) in
    let boxRight := Qmin (left pv + pv_width pv) (box_x box + box_width box) in
    let boxBottom := Qmin (top pv + pv_height pv) (box_y box + box_height box) in
    let intersectionW := boxRight - boxLeft in
    let intersectionH := boxBottom - boxTop in
    if Qltb intersectionW 8 || Qltb intersectionH 8 then None
    else Some {| nb_x := (boxLeft - left pv) / pv_width pv;
                 nb_y := (boxTop - top pv) / pv_height pv;
                 nb_w := intersectionW / pv_width pv;
                 nb_h := intersectionH / pv_height pv |}.

(** The 90 degree swap. *)
Definition swap90 (n : NormBox) : NormBox :=
  {| nb_x := 1 - (nb_y n + nb_h n); nb_y := nb_x n;
     nb_w := nb_h n; nb_h := nb_w n |}.

(** [imageLandscape !== previewLandscape]. *)
Definition orientationDiffers (imageWidth imageHeight : Z) (pv : PreviewRect)
  : bool :=
  let imageLandscape := Z.leb imageHeight imageWidth in
  let previewLandscape := Qleb (pv_height pv) (pv_width pv) in
  negb (Bool.eqb imageLandscape previewLandscape).

(** Step 4: clamp and reject degenerate boxes. *)
Definition clampBox (n : NormBox) : option NormBox :=
  let normX := Qmax 0 (Qmin 1 (nb_x n)) in
  let normY := Qmax 0 (Qmin 1 (nb_y n)) in
  let normW := Qmax 0 (Qmin (1 - normX) (nb_w n)) in
  let normH := Qmax 0 (Qmin (1 - normY) (nb_h n)) in
  if Qltb normW (1 # 100) || Qltb normH (1 # 100) then None
  else Some {| nb_x := normX; nb_y := normY; nb_w := normW; nb_h := normH |}.

Definition computeNormalizedFocusBox (env : FocusEnv)
    (imageWidth imageHeight : Z) : option NormBox :=
  if negb (focusOn env) then None
  else match focusBoxRect env with
       | None => None
       | Some box =>
           let pv := previewGeometry env in
           match normalizedIntersection pv box with
           | None => None
           | Some n =>
               clampBox (if orientationDiffers imageWidth imageHeight pv
                         then swap90 n else n)
           end
       end.

(** A returned box lies inside the unit square and is not degenerate. *)
Definition insideUnitSquare (r : NormBox) : Prop :=
  0 <= nb_x r /\ nb_x r <= 1 /\ 0 <= nb_y r /\ nb_y r <= 1 /\
  0 <= nb_x r + nb_w r /\ nb_x r + nb_w r <= 1 /\
  0 <= nb_y r + nb_h r /\ nb_y r + nb_h r <= 1 /\
  1 # 100 <= nb_w r /\ 1 # 100 <= nb_h r.

(** Componentwise equality of boxes as numbers. *)
Definition boxEq (a b : NormBox) : Prop :=
  nb_x a == nb_x b /\ nb_y a == nb_y b /\
  nb_w a == nb_w b /\ nb_h a == nb_h b.

End Focus.

(* ------------------------------------------------------------------ *)
(** ** Format catalog *)

Module Format.
Import Camera.

Inductive PlatformOS := ios | android.

Definition isAndroid (os : PlatformOS) : bool :=
  match os with android => true | ios => false end.

Definition isMax (p : ResolutionPreset) : bool :=
  match p with PresetMax => true | _ => false end.

Definition photoPixels (f : CameraFormat) : Z := photoWidth f * photoHeight f.
Definition videoPixels (f : CameraFormat) : Z := videoWidth f * videoHeight f.

(** [Array.prototype.sort(cmp)]: stable; [x] stays in front of [y] unless
    [cmp(x, y) > 0]. *)
Fixpoint sortInsert {A} (cmp : A -> A -> Q) (x : A) (l : list A) : list A :=
  match l with
  | [] => [x]
  | y :: t => if Qltb 0 (cmp x y) then y :: sortInsert cmp x t else x :: l
  end.

Definition jsSort {A} (cmp : A -> A -> Q) (l : list A) : list A :=
  foldr (sortInsert cmp) [] l.

(** [calcMegapixels]: undefined for a missing or zero side. *)
Definition calcMegapixels (width height : Z) : option Q :=
  if (width =? 0) || (height =? 0) then None
  else Some (inject_Z (width * height) / 1000000)%Q.

(** [getMaxFormatMegapixels]. *)
Definition getMaxFormatMegapixels (formats : list CameraFormat) : option Q :=
  let max :=
    fold_left
      (fun max f =>
         match calcMegapixels (photoWidth f) (photoHeight f) with
         | Some mp => if negb (Qeqb mp 0) && Qltb max mp then mp else max
         | None => max
         end)
      formats 0%Q in
  if Qltb 0 max then Some max else None.

Definition getAspectPenalty (width height : Z) : Q :=
  if (width =? 0) || (height =? 0) then 1%Q
  else
    let r := (inject_Z (Z.max width height) / inject_Z (Z.min width height))%Q in
    Qabs (r - 4 / 3).

(** A JavaScript number as far as a score can get: a finite value,
    [Infinity] or [NaN]. *)
Inductive JsNumber :=
| Finite (q : Q)
| PosInfinity
| NotANumber.

(** [a / b] for a numerator that is not negative: dividing by zero gives
    [Infinity], and [NaN] for [0 / 0]. *)
Definition divideNonNegative (a b : Q) : JsNumber :=
  if Qeqb b 0 then (if Qeqb a 0 then NotANumber else PosInfinity)
  else Finite (a / b)%Q.

(** [a + b] where neither is [-Infinity]. *)
Definition jsAdd (a b : JsNumber) : JsNumber :=
  match a, b with
  | Finite x, Finite y => Finite (x + y)%Q
  | NotANumber, _ => NotANumber
  | _, NotANumber => NotANumber
  | PosInfinity, _ => PosInfinity
  | _, PosInfinity => PosInfinity
  end.

(** The [score] of a format for the [auto] and megapixel presets.  A
    megapixel target is divided by: with a target of [0] the target penalty,
    and with it the score, is [Infinity] or [NaN]. *)
Definition formatScore (preset : ResolutionPreset) (minRecommendedMP : Q)
    (f : CameraFormat) : JsNumber :=
  let pixels := inject_Z (photoWidth f * photoHeight f) in
  let mp := (pixels / 1000000)%Q in
  let aspectPenalty := getAspectPenalty (photoWidth f) (photoHeight f) in
  let smallPenalty :=
    if Qltb mp minRecommendedMP then ((minRecommendedMP - mp) * 5)%Q else 0%Q in
  let targetPenalty :=
    match preset with
    | PresetMP n =>
        let targetPixels := (n * 1000000)%Q in
        let diff := (pixels - targetPixels)%Q in
        if Qleb 0 diff then divideNonNegative diff targetPixels
        else jsAdd (divideNonNegative (Qabs diff) targetPixels) (Finite 2)
    | PresetAuto => Finite (- mp)%Q
    | PresetMax => Finite 0
    end in
  let fpsPenalty :=
    match maxFps f with
    | Some fps => if Qltb fps 30 then 2%Q else 0%Q
    | None => 0%Q
    end in
  jsAdd (jsAdd (Finite (aspectPenalty * 2 + smallPenalty)%Q) targetPenalty)
        (Finite fpsPenalty).

(** [a.score - b.score] as [sort] reads it: only the sign counts, and a
    [NaN], which is what [Infinity - Infinity] and every difference with a
    [NaN] give, is taken for [+0]. *)
Definition compareScores (a b : JsNumber) : Q :=
  match a, b with
  | Finite x, Finite y => (x - y)%Q
  | PosInfinity, Finite _ => 1%Q
  | Finite _, PosInfinity => (-1)%Q
  | _, _ => 0%Q
  end.

(** Comparator of the Android branch: video pixels, then photo pixels,
    both descending. *)
Definition cmpVideoThenPhoto (a b : CameraFormat) : Q :=
  if negb (videoPixels b =? videoPixels a)
  then inject_Z (videoPixels b - videoPixels a)
  else if negb (photoPixels b =? photoPixels a)
       then inject_Z (photoPixels b - photoPixels a)
       else 0%Q.

Definition pickBestPhotoFormat (os : PlatformOS) (formats : list CameraFormat)
    (preset : ResolutionPreset) (minRecommendedMP : Q) : option CameraFormat :=
  match formats with
  | [] => None
  | _ :: _ =>
      if isMax preset then
        let mapped := List.filter (fun f => 0 <? photoPixels f) formats in
        if isAndroid os then
          let maxVideoPixels :=
            fold_left (fun best x => Z.max best (videoPixels x)) mapped 0 in
          let nearMaxVideo :=
            if 0 <? maxVideoPixels then
              List.filter
                (fun x => (0 <? videoPixels x)
                          && Qleb (inject_Z maxVideoPixels * (9 # 10))
                                  (inject_Z (videoPixels x))) mapped
            else List.filter (fun x => 0 <? videoPixels x) mapped in
          let candidates :=
            match nearMaxVideo with [] => mapped | _ :: _ => nearMaxVideo end in
          head (jsSort cmpVideoThenPhoto candidates)
        else
          head (jsSort (fun a b => inject_Z (photoPixels b - photoPixels a))
                       mapped)
      else
        head (jsSort (fun a b =>
                        compareScores (formatScore preset minRecommendedMP a)
                                      (formatScore preset minRecommendedMP b))
                     formats)
  end.

(** [scoreDevice] of the all-devices scan. *)
Definition scoreDevice (dev : CameraDevice) : Z :=
  let phys := physicalDevices dev in
  (if includes wide_angle_camera phys then 100 else 0)
  + (if Nat.eqb (length phys) 1 then 10 else 0)
  + (if includes ultra_wide_angle_camera phys then -1 else 0)
  + (if includes telephoto_camera phys then -1 else 0).

(** Loop state of the scan: [bestDevice] and [bestPixels]. *)
Definition ScanState : Type := option CameraDevice * Z.

(** Body of the inner loop, for one format of [dev]. *)
Definition scanFormat (dev : CameraDevice) (acc : ScanState)
    (fmt : CameraFormat) : ScanState :=
  let pixels := photoPixels fmt in
  if snd acc <? pixels then (Some dev, pixels)
  else if pixels =? snd acc then
    match fst acc with
    | Some bestDevice =>
        if scoreDevice bestDevice <? scoreDevice dev
        then (Some dev, snd acc) else acc
    | None => acc
    end
  else acc.

(** Body of the outer loop: front and external cameras are skipped. *)
Definition scanDevice (acc : ScanState) (dev : CameraDevice) : ScanState :=
  if negb (isBack (position dev)) then acc
  else fold_left (scanFormat dev) (formats dev) acc.

Definition scanDevices (allDevices : list CameraDevice) : ScanState :=
  fold_left scanDevice allDevices (None, 0).

Definition bestHighResDevice (allDevices : list CameraDevice)
  : option CameraDevice :=
  match allDevices with
  | [] => None
  | _ :: _ => fst (scanDevices allDevices)
  end.

(** The devices handed over by the driver's hooks. *)
Record HookDevices := mkHooks {
  deviceMulti : option CameraDevice;
  deviceWide : option CameraDevice;
  deviceDefault : option CameraDevice
}.

Definition maxMPOf (d : option CameraDevice) : option Q :=
  getMaxFormatMegapixels (match d with Some dev => formats dev | None => [] end).

(** [bestDeviceForMaxRes]: wide, multi, default, sorted by megapixels. *)
Definition bestDeviceForMaxRes (h : HookDevices) : option CameraDevice :=
  let candidate (d : option CameraDevice) : list (CameraDevice * Q) :=
    match d, maxMPOf d with
    | Some dev, Some mp => [(dev, mp)]
    | _, _ => []
    end in
  let candidates :=
    candidate (deviceWide h) ++ candidate (deviceMulti h)
    ++ candidate (deviceDefault h) in
  fst <$> head (jsSort (fun a b => (snd b - snd a)%Q) candidates).

Definition orDevice (a b : option CameraDevice) : option CameraDevice :=
  match a with Some _ => a | None => b end.

(** The [device] in use. *)
Definition device (maxResolutionMode : bool) (resolutionPreset : ResolutionPreset)
    (allDevices : list CameraDevice) (h : HookDevices) : option CameraDevice :=
  let fallthrough := orDevice (deviceMulti h) (deviceDefault h) in
  let nonNeg (m : option Q) : Q := match m with Some q => q | None => 0%Q end in
  if maxResolutionMode && isMax resolutionPreset then
    match bestHighResDevice allDevices with
    | Some d => Some d
    | None =>
        match deviceWide h with
        | Some d => Some d
        | None =>
            match bestDeviceForMaxRes h with
            | Some d => Some d
            | None => fallthrough
            end
        end
    end
  else if maxResolutionMode then
    match deviceWide h, maxMPOf (deviceWide h) with
    | Some w, None => Some w
    | Some w, Some wideMP =>
        if Qleb (nonNeg (maxMPOf (deviceMulti h))) wideMP
           && Qleb (nonNeg (maxMPOf (deviceDefault h))) wideMP
        then Some w
        else orDevice (bestDeviceForMaxRes h) (deviceDefault h)
    | None, _ => orDevice (bestDeviceForMaxRes h) (deviceDefault h)
    end
  else fallthrough.

(** [formats.reduce((best, f) => pixels(f) > pixels(best) ? f : best, null)]. *)
Definition reduceMax (pixels : CameraFormat -> Z) (formats : list CameraFormat)
  : option CameraFormat :=
  fold_left
    (fun best f =>
       let bestPixels := match best with Some b => pixels b | None => 0 end in
       if bestPixels <? pixels f then Some f else best)
    formats None.

Definition enableVideoUseCase (os : PlatformOS)
    (forceVideoUseCase isRecording : bool) : bool :=
  if negb (isAndroid os) then true else forceVideoUseCase || isRecording.

Definition selectedFormat (os : PlatformOS) (dev : option CameraDevice)
    (resolutionPreset : ResolutionPreset) (enableVideoUseCase : bool)
  : option CameraFormat :=
  match dev with
  | None => None
  | Some d =>
      if negb (isAndroid os) || negb (isMax resolutionPreset) then
        pickBestPhotoFormat os (formats d) resolutionPreset 10
      else if negb enableVideoUseCase then reduceMax photoPixels (formats d)
      else reduceMax videoPixels (formats d)
  end.

(** The format is taken on the photo path when its choice is scored by
    photo pixels: everywhere but on Android with the video use case on. *)
Definition photoPath (os : PlatformOS) (enableVideoUseCase : bool) : bool :=
  negb (isAndroid os) || negb enableVideoUseCase.

(** A device with the single lens kind [wide]. *)
Definition dedicatedWide (dev : CameraDevice) : Prop :=
  physicalDevices dev = [wide_angle_camera].

(** Every (device, format) pair the scan looks at: the formats of the
    back cameras, in scan order. *)
Definition scanned (allDevices : list CameraDevice)
  : list (CameraDevice * CameraFormat) :=
  flat_map (fun d => if isBack (position d)
                     then List.map (pair d) (formats d) else [])
           allDevices.

(** What the scan has established after looking at the pairs [seen]. *)
Definition ScanInv (seen : list (CameraDevice * CameraFormat))
    (acc : ScanState) : Prop :=
  0 <= snd acc
  /\ (forall d f, In (d, f) seen -> photoPixels f <= snd acc)
  /\ match fst acc with
     | None => snd acc = 0
     | Some best =>
         0 < snd acc
         /\ (exists f, In (best, f) seen /\ photoPixels f = snd acc)
         /\ (forall d f, In (d, f) seen -> photoPixels f = snd acc ->
               scoreDevice d <= scoreDevice best)
     end.

(** What [reduceMax] has established after looking at [seen]. *)
Definition ReduceInv (pixels : CameraFormat -> Z) (seen : list CameraFormat)
    (best : option CameraFormat) : Prop :=
  match best with
  | None => forall g, In g seen -> pixels g <= 0
  | Some b => In b seen /\ 0 < pixels b
              /\ forall g, In g seen -> pixels g <= pixels b
  end.

(** The head of a list carries the largest key. *)
Definition HeadMax {A} (key : A -> Z) (l : list A) : Prop :=
  match l with
  | [] => True
  | h :: _ => forall g, In g l -> key g <= key h
  end.

End Format.

(* ------------------------------------------------------------------ *)
(** ** Sample data *)

Module Samples.
Import Types.

Definition shot (n : string) : PhotoFile :=
  {| uri := ("file:///tmp/" ++ n)%string; name := n;
     width := Some 4000; height := Some 3000;
     megapixels := Some 12%Q; focusBox := None |}.

(** A bundle lot holding two main images. *)
Definition bundleLot : MixedLot :=
  {| id := "lot-a"; mode := Some single_lot;
     files := [shot "b.jpg"; shot "a.jpg"]; extraFiles := [];
     coverIndex := 0; videoFile := None |}.

(** Three main images, the last one being the cover. *)
Definition threeShotLot : MixedLot :=
  {| id := "lot-b"; mode := Some per_photo;
     files := [shot "c.jpg"; shot "b.jpg"; shot "a.jpg"]; extraFiles := [];
     coverIndex := 2; videoFile := None |}.

(** Two overlapping presses on a fresh lot.  Both presses see [freshLots];
    [afterBundleShot] is the array once the photo of the first press, taken
    in bundle mode, has been filed, and [bundleShotLot] the lot it holds. *)
Definition freshLots : list MixedLot := [createNewLot "lot-1"].

Definition afterBundleShot : list MixedLot :=
  snd (Lots.handleCapture true false freshLots 0 single_lot false
                          (Some (shot "a.jpg")) freshLots).

Definition bundleShotLot : MixedLot :=
  {| id := "lot-1"; mode := Some single_lot; files := [shot "a.jpg"];
     extraFiles := []; coverIndex := 0; videoFile := None |}.

(** A wide plus telephoto camera whose zoom tops out at twice the neutral
    factor. *)
Definition teleDevice : Camera.CameraDevice :=
  {| Camera.id := "back-tele"; Camera.position := Camera.back;
     Camera.physicalDevices :=
       [Camera.wide_angle_camera; Camera.telephoto_camera];
     Camera.formats := [];
     Camera.minZoom := 1%Q; Camera.maxZoom := 2%Q;
     Camera.neutralZoom := 1%Q |}.

(** A triple camera with the usual zoom range. *)
Definition tripleDevice : Camera.CameraDevice :=
  {| Camera.id := "back-triple"; Camera.position := Camera.back;
     Camera.physicalDevices :=
       [Camera.ultra_wide_angle_camera; Camera.wide_angle_camera;
        Camera.telephoto_camera];
     Camera.formats := [];
     Camera.minZoom := (1 # 2)%Q; Camera.maxZoom := 16%Q;
     Camera.neutralZoom := 1%Q |}.

Definition restingZoom : Zoom.ZoomState :=
  {| Zoom.zoom := 1%Q; Zoom.pinchStartZoom := 1%Q;
     Zoom.lastZoomReported := 1%Q; Zoom.currentZoom := 1%Q |}.

(** A 400 x 800 portrait screen with the guide box in the middle. *)
Definition portraitEnv : Focus.FocusEnv :=
  {| Focus.focusOn := true;
     Focus.focusBoxRect := Some (Focus.mkBox 100 300 200 200);
     Focus.cameraViewDimensions := Focus.mkDims 400 800;
     Focus.dimensions := Focus.mkDims 400 800 |}.

Definition fmt (w h : Z) : Camera.CameraFormat :=
  {| Camera.photoWidth := w; Camera.photoHeight := h;
     Camera.videoWidth := 1920; Camera.videoHeight := 1080;
     Camera.maxFps := Some 30%Q |}.

(** A selfie camera with a 48 MP format. *)
Definition frontCamera : Camera.CameraDevice :=
  {| Camera.id := "front"; Camera.position := Camera.front;
     Camera.physicalDevices := [Camera.wide_angle_camera];
     Camera.formats := [fmt 8000 6000];
     Camera.minZoom := 1%Q; Camera.maxZoom := 4%Q;
     Camera.neutralZoom := 1%Q |}.

(** A dedicated wide back camera with 12 MP and 3 MP formats. *)
Definition backWide : Camera.CameraDevice :=
  {| Camera.id := "back-wide"; Camera.position := Camera.back;
     Camera.physicalDevices := [Camera.wide_angle_camera];
     Camera.formats := [fmt 2048 1536; fmt 4000 3000];
     Camera.minZoom := 1%Q; Camera.maxZoom := 8%Q;
     Camera.neutralZoom := 1%Q |}.

(** A logical triple back camera that also reports 12 MP. *)
Definition backTriple : Camera.CameraDevice :=
  {| Camera.id := "back-triple-12"; Camera.position := Camera.back;
     Camera.physicalDevices :=
       [Camera.ultra_wide_angle_camera; Camera.wide_angle_camera;
        Camera.telephoto_camera];
     Camera.formats := [fmt 4000 3000; fmt 1920 1080];
     Camera.minZoom := (1 # 2)%Q; Camera.maxZoom := 16%Q;
     Camera.neutralZoom := 1%Q |}.

(** What the driver's hooks return on a phone with these cameras. *)
Definition backHooks : Format.HookDevices :=
  {| Format.deviceMulti := Some backTriple; Format.deviceWide := Some backWide;
     Format.deviceDefault := Some backWide |}.

End Samples.

(* ------------------------------------------------------------------ *)
(** ** The session: lots and the active-lot cursor *)

Module Session.
Import Types.

Record State := mkState {
  lots : list MixedLot;
  activeLotIdx : Z
}.

(** [lots.length]. *)
Definition len (st : State) : Z := Z.of_nat (length (lots st)).

(** [arr[i]] for an index that may be negative. *)
Definition lookupZ {A} (l : list A) (i : Z) : option A :=
  if i <? 0 then None else l !! Z.to_nat i.

Definition handlePrevLot (st : State) : State :=
  if 0 <? activeLotIdx st
  then {| lots := lots st; activeLotIdx := activeLotIdx st - 1 |}
  else st.

Definition handleNextLot (fresh_id : string) (st : State) : State :=
  if activeLotIdx st <? len st - 1
  then {| lots := lots st; activeLotIdx := activeLotIdx st + 1 |}
  else {| lots := lots st ++ [createNewLot fresh_id]; activeLotIdx := len st |}.

(** The effect that creates the first lot when the camera opens. *)
Definition autoSeed (visible : bool) (fresh_id : string) (st : State) : State :=
  if visible && (len st =? 0)
  then {| lots := [createNewLot fresh_id]; activeLotIdx := 0 |}
  else st.

(** [handleCapture] on the session.  [pressed] is the session as rendered
    when the button is pressed: the callback closes over its [lots] and its
    [activeLotIdx].  [st] is the session when the photo is filed; the
    updater replaces its lots and leaves its cursor alone.  A negative index
    addresses no element, neither of the rendered lots in the guard nor of
    [prev] in the updater, so the guard passes and nothing is filed. *)
Definition capture (cameraReady capturing : bool) (pressed : State)
    (m : CaptureMode) (isExtra : bool) (taken : option PhotoFile) (st : State)
  : Lots.CaptureOutcome * State :=
  if activeLotIdx pressed <? 0 then
    (fst (Lots.handleCapture cameraReady capturing [] 0 m isExtra taken
                             (lots st)), st)
  else
    let r := Lots.handleCapture cameraReady capturing (lots pressed)
                                (Z.to_nat (activeLotIdx pressed))
                                m isExtra taken (lots st) in
    (fst r, {| lots := snd r; activeLotIdx := activeLotIdx st |}).

(** [removeLot] of LotManager, once the deletion is confirmed. *)
Definition removeLot (idx : Z) (st : State) : State :=
  {| lots := Lots.filterOutIndex 0 idx (lots st);
     activeLotIdx :=
       if len st - 1 <=? activeLotIdx st then Z.max 0 (len st - 2)
       else activeLotIdx st |}.

(** [createLot] of the asset form: the new state and the returned index. *)
Definition createLot (fresh_id : string) (st : State) : State * Z :=
  ({| lots := lots st ++ [createNewLot fresh_id]; activeLotIdx := len st |},
   len st).

(** [openCameraForLot]. *)
Definition openCameraForLot (lotIdx : Z) (st : State) : State :=
  {| lots := lots st;
     activeLotIdx := if 0 <=? lotIdx then lotIdx else 0 |}.

(** The cursor points at a lot. *)
Definition validActive (st : State) : Prop :=
  0 <= activeLotIdx st < len st.

(** What the camera screen does to the session. *)
Inductive Action :=
| Next (fresh_id : string)
| Prev
| Shoot (pressed : State) (m : CaptureMode) (isExtra : bool)
    (photo : PhotoFile)
| Seed (fresh_id : string).

Definition step (st : State) (a : Action) : State :=
  match a with
  | Next fresh_id => handleNextLot fresh_id st
  | Prev => handlePrevLot st
  | Shoot pressed m isExtra photo =>
      snd (capture true false pressed m isExtra (Some photo) st)
  | Seed fresh_id => autoSeed true fresh_id st
  end.

Definition run (actions : list Action) (st : State) : State :=
  fold_left step actions st.

End Session.

(* ------------------------------------------------------------------ *)
(** ** Editing a lot: mode, picked images, video *)

Module LotEdit.
Import Types.

(** [setLotMode] of LotManager.  Reading [lot.mode] of a missing lot throws:
    [None]. *)
Definition setLotMode (idx : nat) (m : CaptureMode) (prev : list MixedLot)
  : option (list MixedLot) :=
  match prev !! idx with
  | None => None
  | Some lot =>
      let refused :=
        match mode lot with
        | Some lm => negb (CaptureMode_eqb lm m)
                     && (0 <? Z.of_nat (length (files lot)))
        | None => false
        end in
      if refused then Some prev
      else Some (<[idx := {| id := id lot; mode := Some m; files := files lot;
                             extraFiles := extraFiles lot;
                             coverIndex := coverIndex lot;
                             videoFile := videoFile lot |}]> prev)
  end.

Inductive PickOutcome := PickNeedsMode | PickNothing | Picked.

(** [pickImages] of LotManager; [picked] is what the image picker returned,
    already turned into files ([None] when cancelled).  A missing lot makes
    [lot.mode] throw: [None]. *)
Definition pickImages (lotIdx : nat) (picked : option (list PhotoFile))
    (lots : list MixedLot) : option (PickOutcome * list MixedLot) :=
  match lots !! lotIdx with
  | None => None
  | Some lot =>
      match mode lot with
      | None => Some (PickNeedsMode, lots)
      | Some _ =>
          match picked with
          | Some (f :: rest) =>
              Some (Picked,
                    <[lotIdx := {| id := id lot; mode := mode lot;
                                   files := files lot ++ f :: rest;
                                   extraFiles := extraFiles lot;
                                   coverIndex := coverIndex lot;
                                   videoFile := videoFile lot |}]> lots)
          | _ => Some (PickNothing, lots)
          end
      end
  end.

(** The updater of [onRecordingFinished].  As in [setCoverImage], spreading
    a missing lot would store an object that is no [MixedLot]: [None]. *)
Definition attachVideo (activeLotIdx : nat) (newVideo : PhotoFile)
    (prev : list MixedLot) : option (list MixedLot) :=
  match prev !! activeLotIdx with
  | None => None
  | Some lot =>
      Some (<[activeLotIdx := {| id := id lot; mode := mode lot;
                                 files := files lot;
                                 extraFiles := extraFiles lot;
                                 coverIndex := coverIndex lot;
                                 videoFile := Some newVideo |}]> prev)
  end.

(** Recording state of the camera screen. *)
Record RecState := mkRec {
  isRecording : bool;
  forceVideoUseCase : bool;
  recordingTime : Z
}.

Inductive RecordOutcome :=
| RecIgnored      (* already recording, or no camera ref *)
| RecArmed        (* Android: the video use case is switched on first *)
| RecNeedsMode    (* the "Select Mode" alert *)
| RecStarted.

(** [startRecording]. *)
Definition startRecording (os : Format.PlatformOS) (cameraReady : bool)
    (lots : list MixedLot) (activeLotIdx : nat) (rs : RecState)
  : RecordOutcome * RecState :=
  if isRecording rs then (RecIgnored, rs)
  else if negb cameraReady then (RecIgnored, rs)
  else if negb (Format.enableVideoUseCase os (forceVideoUseCase rs)
                                          (isRecording rs))
  then (RecArmed, {| isRecording := isRecording rs;
                     forceVideoUseCase := true;
                     recordingTime := recordingTime rs |})
  else
    match mode <$> (lots !! activeLotIdx) with
    | Some (Some _) =>
        (RecStarted, {| isRecording := true;
                        forceVideoUseCase := forceVideoUseCase rs;
                        recordingTime := 0 |})
    | _ => (RecNeedsMode, rs)
    end.

(** Every edit of one lot made by the camera screen and the lot manager.
    A capture carries [rendered], the array its press saw. *)
Inductive Edit :=
| ECapture (rendered : list MixedLot) (m : CaptureMode) (isExtra : bool)
    (photo : PhotoFile)
| ERemoveMain (imgIdx : Z)
| ESetCover (imgIdx : Z)
| ESetMode (m : CaptureMode)
| EPick (picked : list PhotoFile)
| EVideo (video : PhotoFile).

Definition orKeep (prev : list MixedLot) (r : option (list MixedLot))
  : list MixedLot :=
  match r with Some next => next | None => prev end.

Definition applyEdit (lotIdx : nat) (lots : list MixedLot) (e : Edit)
  : list MixedLot :=
  match e with
  | ECapture rendered m isExtra photo =>
      snd (Lots.handleCapture true false rendered lotIdx m isExtra
                              (Some photo) lots)
  | ERemoveMain imgIdx => orKeep lots (Lots.removeImage lotIdx imgIdx lots)
  | ESetCover imgIdx => orKeep lots (Lots.setCoverImage lotIdx imgIdx lots)
  | ESetMode m => orKeep lots (setLotMode lotIdx m lots)
  | EPick picked =>
      orKeep lots (snd <$> pickImages lotIdx (Some picked) lots)
  | EVideo video => orKeep lots (attachVideo lotIdx video lots)
  end.

Definition runEdits (lotIdx : nat) (edits : list Edit) (lots : list MixedLot)
  : list MixedLot :=
  fold_left (applyEdit lotIdx) edits lots.

(** A lot that holds main images has a mode. *)
Definition imagesHaveMode (lot : MixedLot) : Prop :=
  files lot <> [] -> mode lot <> None.

End LotEdit.

(* ------------------------------------------------------------------ *)
(** ** Retry: the events around the polling loop *)

Module CameraInitEvents.
Import CameraInit.

(** A dependency of the effect changed: the old cleanup runs, then the
    effect. *)
Definition rerender (st : State) : State := retryEffect (retryCleanup st).

(** The driver hands over a device. *)
Definition deviceArrives (st : State) : State :=
  rerender {| visible := visible st;
              hasCameraPermission := hasCameraPermission st;
              deviceFound := true;
              cameraInitAttempts := cameraInitAttempts st;
              cameraInitTimedOut := cameraInitTimedOut st;
              cameraInitIntervalRef := cameraInitIntervalRef st |}.

(** The modal is closed. *)
Definition closeModal (st : State) : State :=
  rerender {| visible := false;
              hasCameraPermission := hasCameraPermission st;
              deviceFound := deviceFound st;
              cameraInitAttempts := cameraInitAttempts st;
              cameraInitTimedOut := cameraInitTimedOut st;
              cameraInitIntervalRef := cameraInitIntervalRef st |}.

(** The "Try Again" button of the no-camera screen. *)
Definition tryAgain (st : State) : State :=
  rerender {| visible := visible st;
              hasCameraPermission := hasCameraPermission st;
              deviceFound := deviceFound st;
              cameraInitAttempts := 0;
              cameraInitTimedOut := false;
              cameraInitIntervalRef := cameraInitIntervalRef st |}.

End CameraInitEvents.

(* ------------------------------------------------------------------ *)
(** ** Zoom: preset taps, macro mode and the value shown in the UI *)

Module ZoomUi.
Import Camera Zoom.
Local Open Scope Q_scope.

(** [canUseMacro]. *)
Definition canUseMacro (device : option CameraDevice)
    (maxResolutionMode : bool) : bool :=
  if maxResolutionMode then false
  else
    let minZ := match device with Some d => minZoom d | None => 1 end in
    let neutralZ := match device with Some d => neutralZoom d | None => 1 end in
    Qltb minZ (neutralZ - (5 # 100)).

(** The zoom values together with the refs and state around them; times
    are in milliseconds. *)
Record Ui := mkUi {
  values : ZoomState;
  zoomPresetLockUntil : Z;
  suppressAutoModeUntil : Z;
  macroMode : bool;
  lastZoomUiUpdate : Z
}.

(** [handleZoomPresetPress(preset)] at time [now]. *)
Definition handleZoomPresetPress (now : Z) (canUseMacro : bool)
    (minZoom maxZoom : Q) (preset : ZoomPreset) (ui : Ui) : Ui :=
  if (now <? zoomPresetLockUntil ui)%Z then ui
  else
    {| values := setZoomLevel minZoom maxZoom (value preset) (values ui);
       zoomPresetLockUntil := (now + 450)%Z;
       suppressAutoModeUntil := (now + 1200)%Z;
       macroMode :=
         if String.eqb (label preset) "UW"
         then (if canUseMacro && negb (macroMode ui) then true
               else macroMode ui)
         else (if macroMode ui then false else macroMode ui);
       lastZoomUiUpdate := lastZoomUiUpdate ui |}.

(** [syncCurrentZoomFromUi(z)] at time [now]. *)
Definition syncCurrentZoomFromUi (now : Z) (z : Q) (ui : Ui) : Ui :=
  if (now - lastZoomUiUpdate ui <? 120)%Z then ui
  else
    {| values := {| zoom := zoom (values ui);
                    pinchStartZoom := pinchStartZoom (values ui);
                    lastZoomReported := lastZoomReported (values ui);
                    currentZoom := z |};
       zoomPresetLockUntil := zoomPresetLockUntil ui;
       suppressAutoModeUntil := suppressAutoModeUntil ui;
       macroMode := macroMode ui;
       lastZoomUiUpdate := now |}.

(** The animated reaction to a zoom value [z], at time [now]. *)
Definition zoomReaction (now : Z) (z : Q) (ui : Ui) : Ui :=
  if Qleb (2 # 100) (Qabs (z - lastZoomReported (values ui))) then
    syncCurrentZoomFromUi now z
      {| values := {| zoom := zoom (values ui);
                      pinchStartZoom := pinchStartZoom (values ui);
                      lastZoomReported := z;
                      currentZoom := currentZoom (values ui) |};
         zoomPresetLockUntil := zoomPresetLockUntil ui;
         suppressAutoModeUntil := suppressAutoModeUntil ui;
         macroMode := macroMode ui;
         lastZoomUiUpdate := lastZoomUiUpdate ui |}
  else ui.

(** The times at which a run of reactions wrote [currentZoom]. *)
Fixpoint uiUpdateTimes (events : list (Z * Q)) (ui : Ui) : list Z :=
  match events with
  | [] => []
  | (now, z) :: rest =>
      let ui' := zoomReaction now z ui in
      if (lastZoomUiUpdate ui' =? lastZoomUiUpdate ui)%Z
      then uiUpdateTimes rest ui'
      else now :: uiUpdateTimes rest ui'
  end.

(** Consecutive entries lie at least [gap] apart, the first one at least
    [gap] after [from]. *)
Fixpoint spaced (gap from : Z) (times : list Z) : Prop :=
  match times with
  | [] => True
  | t :: rest => (gap <= t - from)%Z /\ spaced gap t rest
  end.

(** The zoom handed to the camera component ([cameraAnimatedProps]). *)
Definition cameraZoomProp (minZoom maxZoom : Q) (st : ZoomState) : Q :=
  Qmax (Qmin (zoom st) maxZoom) minZoom.

(** The labels a preset list can carry, in button order. *)
Definition allLabels : list string := ["UW"; "1x"; "2x"; "3x"; "5x"]%string.

End ZoomUi.

(* ------------------------------------------------------------------ *)
(** ** Focus: taps and the guide box *)

Module FocusTap.
Import Focus.
Local Open Scope Q_scope.

(** Heights and widths of the bars laid over the preview. *)
Record Chrome := mkChrome {
  portraitTopBarHeight : Q;
  portraitBottomBarHeight : Q;
  landscapeTopBarHeight : Q;
  landscapeRightPanelWidth : Q
}.

(** [isAllowedFocusTap(x, y, vw, vh)]. *)
Definition isAllowedFocusTap (landscape : bool) (c : Chrome)
    (x y vw vh : Q) : bool :=
  if Qleb vw 0 || Qleb vh 0 then true
  else if negb landscape then
    if Qltb 0 (portraitTopBarHeight c) && Qleb y (portraitTopBarHeight c)
    then false
    else if Qltb 0 (portraitBottomBarHeight c)
            && Qleb (vh - portraitBottomBarHeight c) y
    then false
    else true
  else
    if Qltb 0 (landscapeTopBarHeight c) && Qleb y (landscapeTopBarHeight c)
    then false
    else if Qltb 0 (landscapeRightPanelWidth c)
            && Qleb (vw - landscapeRightPanelWidth c) x
    then false
    else true.

(** What [handleFocusAtPoint] reads besides the tap. *)
Record TapEnv := mkTapEnv {
  focusEnv : FocusEnv;
  chrome : Chrome;
  capturing : bool;
  suppressFocusUntil : Z;
  cameraReady : bool;
  supportsFocus : bool;
  isCameraActive : bool;
  visible : bool
}.

(** The indicator position that is set, and the point handed to the
    driver's [focus], if it is called. *)
Record TapResult := mkTap {
  tapFocusPoint : Q * Q;
  focusCall : option (Q * Q)
}.

(** [viewWidth || cameraViewDimensions.width || dimensions.width]. *)
Definition viewSide (given : option Q) (measured window : Q) : Q :=
  match given with
  | Some v => orElse v (orElse measured window)
  | None => orElse measured window
  end.

(** [handleFocusAtPoint(locationX, locationY, viewWidth, viewHeight)] at
    time [now]; [None] when the tap is ignored. *)
Definition handleFocusAtPoint (now : Z) (env : TapEnv)
    (locationX locationY : Q) (viewWidth viewHeight : option Q)
  : option TapResult :=
  if (now <? suppressFocusUntil env)%Z then None
  else if capturing env then None
  else if negb (focusOn (focusEnv env)) then None
  else
    let cvd := cameraViewDimensions (focusEnv env) in
    let dims := dimensions (focusEnv env) in
    let vw := viewSide viewWidth (dim_width cvd) (dim_width dims) in
    let vh := viewSide viewHeight (dim_height cvd) (dim_height dims) in
    let x := Qmax 0 (Qmin locationX vw) in
    let y := Qmax 0 (Qmin locationY vh) in
    let landscape := isLandscape dims in
    let pv := if negb landscape then portraitPreviewRect cvd dims
              else {| left := 0; top := 0; pv_width := vw; pv_height := vh |} in
    if Qltb x (left pv) || Qltb (left pv + pv_width pv) x
       || Qltb y (top pv) || Qltb (top pv + pv_height pv) y
    then None
    else if negb (isAllowedFocusTap landscape (chrome env) x y vw vh) then None
    else
      Some {| tapFocusPoint := (x, y);
              focusCall :=
                if cameraReady env && supportsFocus env
                   && isCameraActive env && visible env
                then Some (Qmax 0 (Qmin (x - left pv) (pv_width pv)),
                           Qmax 0 (Qmin (y - top pv) (pv_height pv)))
                else None |}.

(** The preview rectangle a tap is tested against. *)
Definition tapPreview (env : TapEnv) (viewWidth viewHeight : option Q)
  : PreviewRect :=
  let cvd := cameraViewDimensions (focusEnv env) in
  let dims := dimensions (focusEnv env) in
  if negb (isLandscape dims) then portraitPreviewRect cvd dims
  else {| left := 0; top := 0;
          pv_width := viewSide viewWidth (dim_width cvd) (dim_width dims);
          pv_height := viewSide viewHeight (dim_height cvd) (dim_height dims) |}.

End FocusTap.

Module FocusBoxView.
Import Focus.
Local Open Scope Q_scope.

Definition MIN_SIZE : Q := 80.
Definition MAX_SIZE_RATIO : Q := 9 # 10.

Record Size := mkSize { sz_width : Q; sz_height : Q }.
Record Pan := mkPan { pan_x : Q; pan_y : Q }.

(** The rectangle [emitBoxChange] reports. *)
Definition emitBoxChange (screenWidth screenHeight : Q) (size : Size)
    (lastPan : Pan) : BoxRect :=
  let x := screenWidth / 2 - sz_width size / 2 + pan_x lastPan in
  let y := screenHeight / 2 - sz_height size / 2 + pan_y lastPan in
  {| box_x := Qmax 0 (Qmin x (Qmax 0 (screenWidth - sz_width size)));
     box_y := Qmax 0 (Qmin y (Qmax 0 (screenHeight - sz_height size)));
     box_width := sz_width size; box_height := sz_height size |}.

(** [clampPosition(x, y, w, h)]. *)
Definition clampPosition (screenWidth screenHeight x y w h : Q) : Pan :=
  let maxX := (screenWidth - w) / 2 in
  let maxY := (screenHeight - h) / 2 in
  {| pan_x := Qmax (- maxX) (Qmin maxX x);
     pan_y := Qmax (- maxY) (Qmin maxY y) |}.

Inductive Corner := tl | tr | bl | br.

(** [calcNewSize(corner, dx, dy, startSize)]. *)
Definition calcNewSize (screenWidth screenHeight : Q) (corner : Corner)
    (dx dy : Q) (startSize : Size) : Size :=
  let dw := match corner with
            | br | tr => dx * 2
            | bl | tl => - dx * 2
            end in
  let dh := match corner with
            | br | bl => dy * 2
            | tr | tl => - dy * 2
            end in
  {| sz_width := Qmax MIN_SIZE (Qmin (screenWidth * MAX_SIZE_RATIO)
                                     (sz_width startSize + dw));
     sz_height := Qmax MIN_SIZE (Qmin (screenHeight * MAX_SIZE_RATIO)
                                      (sz_height startSize + dh)) |}.

End FocusBoxView.

(* ------------------------------------------------------------------ *)
(** ** More sample data *)

Module Samples2.

(** A 300 x 600 portrait view with the usual bars, camera running. *)
Definition tapEnv : FocusTap.TapEnv :=
  {| FocusTap.focusEnv :=
       {| Focus.focusOn := true; Focus.focusBoxRect := None;
          Focus.cameraViewDimensions := Focus.mkDims 300 600;
          Focus.dimensions := Focus.mkDims 300 600 |};
     FocusTap.chrome := FocusTap.mkChrome 96 240 72 120;
     FocusTap.capturing := false;
     FocusTap.suppressFocusUntil := 0;
     FocusTap.cameraReady := true;
     FocusTap.supportsFocus := true;
     FocusTap.isCameraActive := true;
     FocusTap.visible := true |}.

End Samples2.

(* ================================================================== *)
(** * Properties *)

(* ------------------------------------------------------------------ *)
(** ** Lots *)

Section LotFacts.
Import Types Lots.

Lemma CaptureMode_eqb_spec (a b : CaptureMode) :
  reflect (a = b) (CaptureMode_eqb a b).
Proof. destruct a, b; constructor; congruence. Qed.

Lemma CaptureMode_eqb_refl (a : CaptureMode) : CaptureMode_eqb a a = true.
Proof. now destruct a. Qed.

Lemma fileCapture_length i m e p (prev : list MixedLot) :
  length (fileCapture i m e p prev) = length prev.
Proof.
  unfold fileCapture. destruct (prev !! i); [|reflexivity].
  destruct e; apply length_insert.
Qed.

Lemma fileCapture_other i j m e p (prev : list MixedLot) :
  j <> i -> fileCapture i m e p prev !! j = prev !! j.
Proof.
  intros Hne. unfold fileCapture. destruct (prev !! i); [|reflexivity].
  destruct e; apply list_lookup_insert_ne; congruence.
Qed.

Lemma fileCapture_main i m p (prev : list MixedLot) lot :
  prev !! i = Some lot ->
  fileCapture i m false p prev !! i =
    Some {| id := id lot; mode := Some m; files := p :: files lot;
            extraFiles := extraFiles lot; coverIndex := coverIndex lot;
            videoFile := videoFile lot |}.
Proof.
  intros Hl. unfold fileCapture. rewrite Hl.
  apply list_lookup_insert_eq. eapply lookup_lt_Some; eassumption.
Qed.

Lemma fileCapture_extra i m p (prev : list MixedLot) lot :
  prev !! i = Some lot ->
  fileCapture i m true p prev !! i =
    Some {| id := id lot; mode := mode lot; files := files lot;
            extraFiles := p :: extraFiles lot; coverIndex := coverIndex lot;
            videoFile := videoFile lot |}.
Proof.
  intros Hl. unfold fileCapture. rewrite Hl.
  apply list_lookup_insert_eq. eapply lookup_lt_Some; eassumption.
Qed.

Lemma handleCapture_snd_cases cr cap (lots prev : list MixedLot) i m e taken :
  snd (handleCapture cr cap lots i m e taken prev) = prev \/
  exists p,
    snd (handleCapture cr cap lots i m e taken prev) = fileCapture i m e p prev.
Proof.
  unfold handleCapture.
  destruct cr, cap; simpl; auto.
  destruct (modeMismatch lots i m e); simpl; auto.
  destruct taken; simpl; eauto.
Qed.

(** The guard reads the rendered lot only. *)
Lemma modeMismatch_true (lots : list MixedLot) i m e :
  modeMismatch lots i m e = true <->
  exists lot lm, lots !! i = Some lot /\ mode lot = Some lm /\ lm <> m
                 /\ e = false.
Proof.
  unfold modeMismatch. split.
  - destruct (lots !! i) as [lot|]; [|discriminate].
    destruct (mode lot) as [lm|] eqn:Em; [|discriminate].
    intros H. apply andb_true_iff in H as [H1 H2].
    exists lot, lm. repeat split; auto.
    + intros ->. now rewrite CaptureMode_eqb_refl in H1.
    + now destruct e.
  - intros (lot & lm & -> & -> & Hne & ->).
    destruct (CaptureMode_eqb_spec lm m); [contradiction|reflexivity].
Qed.

(** The mode guard at the press, and what is filed once it has passed.
    With a lot rendered at the active index: a main capture in a mode other
    than the rendered one is answered with [ModeMismatch] and nothing
    changes; a main capture in the rendered mode, or pressed on a lot
    rendered without a mode, is filed by the updater into the array it
    receives; an extra capture is always filed. *)
Lemma capture_guard_at_press (rendered prev : list MixedLot) (i : nat)
    (shown : MixedLot) (m : CaptureMode) (asset : PhotoFile) :
  rendered !! i = Some shown ->
  (forall lm, mode shown = Some lm -> lm <> m ->
     handleCapture true false rendered i m false (Some asset) prev
     = (ModeMismatch, prev))
  /\ (mode shown = None \/ mode shown = Some m ->
      handleCapture true false rendered i m false (Some asset) prev
      = (Filed, fileCapture i m false asset prev))
  /\ handleCapture true false rendered i m true (Some asset) prev
     = (Filed, fileCapture i m true asset prev).
Proof.
  intros Hr. repeat split.
  - intros lm Hm Hne. unfold handleCapture, modeMismatch; simpl.
    rewrite Hr, Hm. destruct (CaptureMode_eqb_spec lm m); [contradiction|].
    reflexivity.
  - intros Hm. unfold handleCapture, modeMismatch; simpl. rewrite Hr.
    destruct Hm as [-> | ->]; [reflexivity|].
    now rewrite CaptureMode_eqb_refl.
  - unfold handleCapture, modeMismatch; simpl. rewrite Hr.
    destruct (mode shown); [|reflexivity].
    now rewrite andb_false_r.
Qed.

Lemma filterOutIndex_length_le {A} (l : list A) : forall i k,
  (length (filterOutIndex i k l) <= length l)%nat.
Proof.
  induction l as [|x t IH]; intros i k; simpl; [lia|].
  destruct (i =? k); simpl; specialize (IH (i + 1) k); lia.
Qed.

(** Prepending a main image keeps a valid cover index valid. *)
Lemma coverValid_prepend lot m p :
  coverValid lot ->
  coverValid {| id := id lot; mode := m; files := p :: files lot;
                extraFiles := extraFiles lot; coverIndex := coverIndex lot;
                videoFile := videoFile lot |}.
Proof.
  unfold coverValid; simpl. destruct (files lot) as [|f t]; simpl; lia.
Qed.

(** The clamp of [removeImage] yields a valid cover index for any list. *)
Lemma coverValid_clamped lot (fs : list PhotoFile) :
  coverValid {| id := id lot; mode := mode lot; files := fs;
                extraFiles := extraFiles lot;
                coverIndex := Z.max 0 (Z.min (Z.of_nat (length fs) - 1)
                                             (coverIndex lot));
                videoFile := videoFile lot |}.
Proof.
  unfold coverValid; simpl. destruct fs as [|f t]; simpl length; lia.
Qed.

Lemma applyOp_keeps_cover i (lots : list MixedLot) op :
  (exists lot, lots !! i = Some lot /\ coverValid lot) ->
  exists lot', applyOp i lots op !! i = Some lot' /\ coverValid lot'.
Proof.
  intros (lot & Hl & Hv). destruct op as [rendered m e p | k]; simpl.
  - unfold handleCapture; simpl.
    destruct (modeMismatch rendered i m e); simpl; [eauto|].
    destruct e.
    + rewrite (fileCapture_extra _ _ _ _ _ Hl). eexists; split; [reflexivity|].
      revert Hv; unfold coverValid; simpl; auto.
    + rewrite (fileCapture_main _ _ _ _ _ Hl). eexists; split; [reflexivity|].
      now apply coverValid_prepend.
  - unfold removeImage. rewrite Hl.
    rewrite list_lookup_insert_eq by (eapply lookup_lt_Some; eassumption).
    eexists; split; [reflexivity|]. apply coverValid_clamped.
Qed.

Lemma runOps_keeps_cover i ops : forall lots : list MixedLot,
  (exists lot, lots !! i = Some lot /\ coverValid lot) ->
  exists lot', runOps i ops lots !! i = Some lot' /\ coverValid lot'.
Proof.
  unfold runOps. induction ops as [|op ops IH]; intros lots H; simpl; [exact H|].
  apply IH. now apply applyOp_keeps_cover.
Qed.

(** C2. The mode lock does not hold in the code when presses overlap.  The
    guard runs at the press, on the lots as rendered then, and the updater
    that files the photo later does not look at the mode again.  So a main
    capture whose press passed the guard is filed into a lot that has
    meanwhile been given another mode: the outcome is [Filed], not
    [ModeMismatch], the lot's mode is overwritten and the photo joins main
    images taken in the other mode. *)
Theorem capture_overlap_breaks_mode_lock (rendered prev : list MixedLot)
    (i : nat) (lot : MixedLot) (lm m : CaptureMode) (asset : PhotoFile)
    (Hpress : modeMismatch rendered i m false = false)
    (Hlot : prev !! i = Some lot)
    (Hmode : mode lot = Some lm)
    (Hne : lm <> m) :
  exists lots',
    handleCapture true false rendered i m false (Some asset) prev
    = (Filed, lots')
    /\ lots' !! i =
         Some {| id := id lot; mode := Some m; files := asset :: files lot;
                 extraFiles := extraFiles lot;
                 coverIndex := coverIndex lot;
                 videoFile := videoFile lot |}
    /\ lots' <> prev.
Proof.
  exists (fileCapture i m false asset prev). split; [|split].
  - unfold handleCapture; simpl. now rewrite Hpress.
  - now apply fileCapture_main.
  - intros Heq.
    pose proof (fileCapture_main i m asset prev lot Hlot) as Hf.
    rewrite Heq, Hlot in Hf. injection Hf as Hf.
    apply (f_equal mode) in Hf. simpl in Hf. congruence.
Qed.

(** C9. Filing a capture touches the active lot only: every other index
    holds the lot it held before and the array keeps its length; with no
    lot at the active index the array comes back as it was, although the
    capture counts as filed. *)
Theorem capture_frame (cameraReady capturing : bool)
    (rendered lots : list MixedLot)
    (activeLotIdx : nat) (m : CaptureMode) (isExtra : bool)
    (taken : option PhotoFile) :
  (forall j, j <> activeLotIdx ->
     snd (handleCapture cameraReady capturing rendered activeLotIdx m isExtra
                        taken lots)
       !! j = lots !! j)
  /\ length (snd (handleCapture cameraReady capturing rendered activeLotIdx
                                m isExtra taken lots)) = length lots
  /\ (lots !! activeLotIdx = None ->
      snd (handleCapture cameraReady capturing rendered activeLotIdx
                         m isExtra taken lots) = lots
      /\ forall asset,
           handleCapture true false lots activeLotIdx m isExtra (Some asset)
                         lots
           = (Filed, lots)).
Proof.
  repeat split.
  - intros j Hj.
    destruct (handleCapture_snd_cases cameraReady capturing rendered lots
                activeLotIdx m isExtra taken) as [-> | [p ->]]; [reflexivity|].
    now apply fileCapture_other.
  - destruct (handleCapture_snd_cases cameraReady capturing rendered lots
                activeLotIdx m isExtra taken) as [-> | [p ->]]; [reflexivity|].
    apply fileCapture_length.
  - destruct (handleCapture_snd_cases cameraReady capturing rendered lots
                activeLotIdx m isExtra taken) as [-> | [p ->]]; [reflexivity|].
    unfold fileCapture. now rewrite H.
  - intros asset. unfold handleCapture, modeMismatch, fileCapture; simpl.
    now rewrite H.
Qed.

(** C4. From a fresh lot, any sequence of captures (main or extra) and
    main-image removals leaves [coverIndex] a valid index into the main
    images, and [0] when there are none; and removing index 2 of three
    main images under [coverIndex = 2] leaves [coverIndex = 1]. *)
Theorem cover_index_invariant (fresh : string) (lots : list MixedLot)
    (i : nat) (ops : list LotOp)
    (Hfresh : lots !! i = Some (createNewLot fresh)) :
  (exists lot', runOps i ops lots !! i = Some lot' /\ coverValid lot')
  /\ (forall (ls : list MixedLot) (k : nat) (lot : MixedLot) (a b c : PhotoFile),
        ls !! k = Some lot -> files lot = [a; b; c] -> coverIndex lot = 2 ->
        exists ls' lot',
          removeImage k 2 ls = Some ls' /\ ls' !! k = Some lot'
          /\ files lot' = [a; b] /\ coverIndex lot' = 1).
Proof.
  split.
  - apply runOps_keeps_cover. eexists; split; [exact Hfresh|].
    reflexivity.
  - intros ls k lot a b c Hl Hf Hc. unfold removeImage. rewrite Hl, Hf, Hc.
    eexists _, _. split; [reflexivity|]. split.
    + apply list_lookup_insert_eq. eapply lookup_lt_Some; eassumption.
    + simpl. split; reflexivity.
Qed.

(** C6, as the code has it. [setCoverImage] stores the index it is given,
    unclamped, and touches nothing else of the lot; the stored cover index
    is a valid index exactly when the given one already was. *)
Theorem setCover_stores_index (lots : list MixedLot) (lotIdx : nat)
    (imgIdx : Z) (lot : MixedLot)
    (Hlot : lots !! lotIdx = Some lot) :
  exists lots',
    setCoverImage lotIdx imgIdx lots = Some lots'
    /\ lots' !! lotIdx =
         Some {| id := id lot; mode := mode lot; files := files lot;
                 extraFiles := extraFiles lot; coverIndex := imgIdx;
                 videoFile := videoFile lot |}
    /\ (forall j, j <> lotIdx -> lots' !! j = lots !! j)
    /\ (forall lot', lots' !! lotIdx = Some lot' ->
          (0 <= coverIndex lot' < Z.of_nat (length (files lot'))
           <-> 0 <= imgIdx < Z.of_nat (length (files lot)))).
Proof.
  unfold setCoverImage. rewrite Hlot. eexists; split; [reflexivity|].
  assert (Hlt : (lotIdx < length lots)%nat) by (eapply lookup_lt_Some; eassumption).
  split; [now apply list_lookup_insert_eq|]. split.
  - intros j Hj. apply list_lookup_insert_ne. congruence.
  - intros lot'. rewrite list_lookup_insert_eq by assumption.
    intros [= <-]. simpl. reflexivity.
Qed.

Lemma capture_overlap_breaks_mode_lock_witness :
  modeMismatch Samples.freshLots 0 per_item false = false
  /\ Samples.afterBundleShot !! 0%nat = Some Samples.bundleShotLot
  /\ mode Samples.bundleShotLot = Some single_lot
  /\ single_lot <> per_item
  /\ exists lots',
       handleCapture true false Samples.freshLots 0 per_item false
                     (Some (Samples.shot "b.jpg")) Samples.afterBundleShot
       = (Filed, lots')
       /\ mode <$> lots' !! 0%nat = Some (Some per_item)
       /\ files <$> lots' !! 0%nat
          = Some [Samples.shot "b.jpg"; Samples.shot "a.jpg"].
Proof.
  split; [reflexivity|]. split; [reflexivity|]. split; [reflexivity|].
  split; [discriminate|].
  destruct (capture_overlap_breaks_mode_lock Samples.freshLots
              Samples.afterBundleShot 0%nat Samples.bundleShotLot
              single_lot per_item (Samples.shot "b.jpg")
              eq_refl eq_refl eq_refl) as (l & H1 & H2 & _);
    [discriminate|].
  exists l. split; [exact H1|]. rewrite H2. split; reflexivity.
Defined.

Lemma capture_frame_witness :
  1%nat <> 0%nat
  /\ snd (handleCapture true false
            [Samples.bundleLot; Samples.threeShotLot] 0 single_lot false
            (Some (Samples.shot "c.jpg"))
            [Samples.bundleLot; Samples.threeShotLot]) !! 1%nat
     = Some Samples.threeShotLot
  /\ snd (handleCapture true false [Samples.bundleLot] 3 single_lot false
            (Some (Samples.shot "c.jpg")) [Samples.bundleLot])
     = [Samples.bundleLot].
Proof.
  split; [discriminate|]. split.
  - apply (capture_frame true false
             [Samples.bundleLot; Samples.threeShotLot]
             [Samples.bundleLot; Samples.threeShotLot] 0%nat single_lot false
             (Some (Samples.shot "c.jpg"))). discriminate.
  - apply (capture_frame true false [Samples.bundleLot] [Samples.bundleLot]
             3%nat single_lot false
             (Some (Samples.shot "c.jpg"))). reflexivity.
Defined.

Lemma cover_index_invariant_witness :
  [createNewLot "lot-1"] !! 0%nat = Some (createNewLot "lot-1")
  /\ exists lot',
       runOps 0 [OpCapture [createNewLot "lot-1"] per_item false
                           (Samples.shot "a.jpg");
                 OpCapture [createNewLot "lot-1"] single_lot false
                           (Samples.shot "b.jpg");
                 OpCapture [] per_item true (Samples.shot "x.jpg");
                 OpRemoveMain 0; OpRemoveMain 7]
              [createNewLot "lot-1"] !! 0%nat = Some lot'
       /\ coverValid lot'.
Proof.
  split; [reflexivity|].
  apply (cover_index_invariant "lot-1" [createNewLot "lot-1"] 0%nat). reflexivity.
Defined.

Lemma setCover_stores_index_witness :
  [Samples.threeShotLot] !! 0%nat = Some Samples.threeShotLot
  /\ exists lots',
       setCoverImage 0 1 [Samples.threeShotLot] = Some lots'
       /\ coverIndex <$> lots' !! 0%nat = Some 1.
Proof.
  split; [reflexivity|].
  destruct (setCover_stores_index [Samples.threeShotLot] 0%nat 1
              Samples.threeShotLot eq_refl) as (l & H1 & H2 & _).
  exists l. split; [exact H1|]. rewrite H2. reflexivity.
Defined.

(** C6 fails as worded: an index past the end is stored as it is, and on a
    lot without main images the call is not a no-op. *)
Lemma setCover_not_clamped :
  (exists lots' lot',
     setCoverImage 0 99 [Samples.threeShotLot] = Some lots'
     /\ lots' !! 0%nat = Some lot'
     /\ length (files lot') = 3%nat
     /\ coverIndex lot' = 99
     /\ ~ coverValid lot')
  /\ (exists lots' lot',
        setCoverImage 0 5 [createNewLot "lot-1"] = Some lots'
        /\ lots' !! 0%nat = Some lot'
        /\ files lot' = []
        /\ coverIndex lot' = 5
        /\ lots' <> [createNewLot "lot-1"]).
Proof.
  split.
  - eexists _, _. split; [reflexivity|]. split; [reflexivity|].
    split; [reflexivity|]. split; [reflexivity|].
    unfold coverValid; simpl. lia.
  - eexists _, _. split; [reflexivity|]. split; [reflexivity|].
    split; [reflexivity|]. split; [reflexivity|].
    unfold createNewLot. intros H. injection H as H. discriminate H.
Defined.

End LotFacts.

(* ------------------------------------------------------------------ *)
(** ** Device-enumeration retry *)

Section CameraInitFacts.
Import CameraInit.

Lemma opened_polling : opened = polling 0.
Proof. reflexivity. Qed.

Lemma poll_polling (a : Z) :
  poll (polling a) =
    if RETRY_BUDGET <=? a + 1 then gaveUp (a + 1) else polling (a + 1).
Proof.
  unfold poll, polling, onInterval; simpl.
  destruct (RETRY_BUDGET <=? a + 1); reflexivity.
Qed.

Lemma poll_gaveUp (a : Z) : poll (gaveUp a) = gaveUp a.
Proof. reflexivity. Qed.

Lemma polls_gaveUp (k : nat) (a : Z) : polls k (gaveUp a) = gaveUp a.
Proof. induction k as [|k IH]; simpl; [reflexivity|]. now rewrite poll_gaveUp. Qed.

Lemma polls_add (n k : nat) (st : State) :
  polls (n + k) st = polls k (polls n st).
Proof. revert st. induction n as [|n IH]; intros st; simpl; auto. Qed.

Lemma polls_polling (n : nat) : forall a : Z,
  0 <= a -> a + Z.of_nat n < RETRY_BUDGET ->
  polls n (polling a) = polling (a + Z.of_nat n).
Proof.
  induction n as [|n IH]; intros a Ha Hlt; simpl polls.
  - f_equal. lia.
  - rewrite poll_polling.
    destruct (Z.leb_spec RETRY_BUDGET (a + 1)); [lia|].
    rewrite IH by lia. f_equal. lia.
Qed.

(** C8. Polling runs on a 500 ms interval with a budget of 10: through the
    first nine empty polls an interval of 500 ms is live and no time-out is
    raised (so none after four), the tenth raises it and clears the
    interval, and later ticks change nothing. *)
Theorem retry_budget :
  RETRY_DELAY_MS = 500 /\ RETRY_BUDGET = 10
  /\ Forall (fun n =>
       cameraInitTimedOut (polls n opened) = false
       /\ cameraInitIntervalRef (polls n opened) = Some 500
       /\ cameraInitAttempts (polls n opened) = Z.of_nat n)
      (seq 0 10)
  /\ cameraInitTimedOut (polls 4 opened) = false
  /\ cameraInitTimedOut (polls 10 opened) = true
  /\ cameraInitIntervalRef (polls 10 opened) = None
  /\ forall k : nat, polls (10 + k) opened = polls 10 opened.
Proof.
  split; [reflexivity|]. split; [reflexivity|]. split.
  - rewrite opened_polling. apply Forall_forall. intros n Hn.
    apply elem_of_seq in Hn. rewrite polls_polling by (unfold RETRY_BUDGET; lia).
    simpl. repeat split; f_equal; lia.
  - rewrite opened_polling.
    rewrite (polls_polling 4) by (unfold RETRY_BUDGET; lia).
    split; [reflexivity|].
    assert (H10 : polls 10 (polling 0) = gaveUp 10).
    { change 10%nat with (9 + 1)%nat. rewrite polls_add.
      rewrite polls_polling by (unfold RETRY_BUDGET; lia).
      simpl polls. now rewrite poll_polling. }
    rewrite H10. split; [reflexivity|]. split; [reflexivity|].
    intros k. rewrite polls_add, H10. apply polls_gaveUp.
Qed.

End CameraInitFacts.

(* ------------------------------------------------------------------ *)
(** ** Resolution preset *)

Section ResolutionFacts.
Import Resolution.

Lemma step_pinned (a : Action) : step pinned a = pinned.
Proof. destruct a as [p| | |v]; try reflexivity. now destruct v. Qed.

Lemma steps_pinned (actions : list Action) :
  fold_left step actions pinned = pinned.
Proof.
  induction actions as [|a actions IH]; simpl; [reflexivity|].
  now rewrite step_pinned.
Qed.

(** C10. [applyResolutionPreset] ignores its argument and always selects
    the Max preset with max-resolution mode on; the screen becoming visible
    applies it again, and from then on no handler moves the preset away
    from Max. *)
Theorem preset_always_max :
  (forall (p : ResolutionPreset) (st : State),
     applyResolutionPreset p st = pinned)
  /\ (forall st : State, visibleEffect true st = pinned)
  /\ (forall (st : State) (actions : list Action),
        fold_left step actions (visibleEffect true st) = pinned)
  /\ (forall (st : State) (actions : list Action),
        resolutionPreset (fold_left step actions initial) = PresetMax).
Proof.
  split; [reflexivity|]. split; [reflexivity|]. split.
  - intros st actions. change (visibleEffect true st) with pinned.
    apply steps_pinned.
  - intros _ actions. change initial with pinned. now rewrite steps_pinned.
Qed.

End ResolutionFacts.

(* ------------------------------------------------------------------ *)
(** ** Number comparisons *)

Section NumberFacts.
Local Open Scope Q_scope.

Lemma Qleb_true (a b : Q) : Qleb a b = true <-> a <= b.
Proof. apply Qle_bool_iff. Qed.

Lemma Qleb_false (a b : Q) : Qleb a b = false <-> b < a.
Proof.
  unfold Qleb. split.
  - intros H. apply Qnot_le_lt. intros Hle.
    apply Qle_bool_iff in Hle. congruence.
  - intros H. destruct (Qle_bool a b) eqn:E; [|reflexivity].
    apply Qle_bool_iff in E. exfalso. eapply Qlt_not_le; eassumption.
Qed.

Lemma Qltb_true (a b : Q) : Qltb a b = true <-> a < b.
Proof.
  unfold Qltb. rewrite negb_true_iff. apply (Qleb_false b a).
Qed.

Lemma Qltb_false (a b : Q) : Qltb a b = false <-> b <= a.
Proof.
  unfold Qltb. rewrite negb_false_iff. apply (Qleb_true b a).
Qed.

Lemma Qeqb_true (a b : Q) : Qeqb a b = true <-> a == b.
Proof. apply Qeq_bool_iff. Qed.

Lemma Qmax_cases (a b : Q) :
  (a <= b /\ Qmax a b == b) \/ (b <= a /\ Qmax a b == a).
Proof.
  destruct (Q.max_spec a b) as [[H E] | [H E]]; [left | right]; split; auto.
  now apply Qlt_le_weak.
Qed.

Lemma Qmin_cases (a b : Q) :
  (a <= b /\ Qmin a b == a) \/ (b <= a /\ Qmin a b == b).
Proof.
  destruct (Q.min_spec a b) as [[H E] | [H E]]; [left | right]; split; auto.
  now apply Qlt_le_weak.
Qed.

(** [Math.max(lo, Math.min(v, hi))] lands in a non-empty range. *)
Lemma Qmax_min_range (lo hi v : Q) :
  lo <= hi -> lo <= Qmax lo (Qmin v hi) <= hi.
Proof.
  intros Hr.
  destruct (Qmin_cases v hi) as [[H1 E1] | [H1 E1]];
  destruct (Qmax_cases lo (Qmin v hi)) as [[H2 E2] | [H2 E2]];
  rewrite E2; lra.
Qed.

End NumberFacts.

(* ------------------------------------------------------------------ *)
(** ** Zoom *)

Section ZoomFacts.
Import Camera Zoom.
Local Open Scope Q_scope.

(** A clamped segment never leaves the span of its two edge outputs. *)
Lemma interpolateSegment_between (x li ri lo ro : Q) :
  (lo <= interpolateSegment x li ri lo ro <= ro)
  \/ (ro <= interpolateSegment x li ri lo ro <= lo).
Proof.
  unfold interpolateSegment.
  destruct (Qeqb (ri - li) 0).
  - destruct (Qleb lo ro) eqn:E.
    + apply Qleb_true in E. left; lra.
    + apply Qleb_false in E. right; lra.
  - set (val := lo + (x - li) / (ri - li) * (ro - lo)). clearbody val.
    destruct (Qleb lo ro) eqn:E.
    + apply Qleb_true in E.
      destruct (Qltb (1 * val) (1 * lo)) eqn:E1; [left; lra|].
      destruct (Qltb (1 * ro) (1 * val)) eqn:E2; [left; lra|].
      apply Qltb_false in E1, E2. left; lra.
    + apply Qleb_false in E.
      destruct (Qltb (-1 * val) (-1 * lo)) eqn:E1; [right; lra|].
      destruct (Qltb (-1 * ro) (-1 * val)) eqn:E2; [right; lra|].
      apply Qltb_false in E1, E2. right; lra.
Qed.

(** With ordered outputs the three-knot interpolation stays between the
    outer two. *)
Lemma interpolate3_range (x i0 i1 i2 o0 o1 o2 : Q) :
  o0 <= o1 -> o1 <= o2 ->
  o0 <= interpolate3 x i0 i1 i2 o0 o1 o2 <= o2.
Proof.
  intros H01 H12. unfold interpolate3.
  destruct (Qltb i2 x).
  - destruct (interpolateSegment_between x i1 i2 o1 o2); lra.
  - destruct (Qleb x i1).
    + destruct (interpolateSegment_between x i0 i1 o0 o1); lra.
    + destruct (interpolateSegment_between x i1 i2 o1 o2); lra.
Qed.

(** What a segment returns, by the position of the unclamped value. *)
Lemma interpolateSegment_cases (x li ri lo ro : Q) :
  ~ ri - li == 0 ->
  let val := lo + (x - li) / (ri - li) * (ro - lo) in
  let r := interpolateSegment x li ri lo ro in
  (lo <= ro ->
     (val < lo /\ r = lo) \/ (ro < val /\ r = ro)
     \/ (lo <= val /\ val <= ro /\ r = val))
  /\ (ro < lo ->
      (lo < val /\ r = lo) \/ (val < ro /\ r = ro)
      \/ (ro <= val /\ val <= lo /\ r = val)).
Proof.
  intros Hd. cbv zeta. unfold interpolateSegment.
  destruct (Qeqb (ri - li) 0) eqn:E; [apply Qeqb_true in E; contradiction|].
  set (val := lo + (x - li) / (ri - li) * (ro - lo)). clearbody val.
  destruct (Qleb lo ro) eqn:Eo.
  - apply Qleb_true in Eo. split; [intros _ | intros H; lra].
    destruct (Qltb (1 * val) (1 * lo)) eqn:E1.
    { apply Qltb_true in E1. left. split; [lra | reflexivity]. }
    destruct (Qltb (1 * ro) (1 * val)) eqn:E2.
    { apply Qltb_true in E2. right; left. split; [lra | reflexivity]. }
    apply Qltb_false in E1, E2. right; right. repeat split; lra.
  - apply Qleb_false in Eo. split; [intros H; lra | intros _].
    destruct (Qltb (-1 * val) (-1 * lo)) eqn:E1.
    { apply Qltb_true in E1. left. split; [lra | reflexivity]. }
    destruct (Qltb (-1 * ro) (-1 * val)) eqn:E2.
    { apply Qltb_true in E2. right; left. split; [lra | reflexivity]. }
    apply Qltb_false in E1, E2. right; right. repeat split; lra.
Qed.

(** At its knots a segment returns the knot outputs. *)
Lemma interpolateSegment_at_knots (x li ri lo ro : Q) :
  ~ ri - li == 0 ->
  (x == li -> interpolateSegment x li ri lo ro == lo)
  /\ (x == ri -> interpolateSegment x li ri lo ro == ro).
Proof.
  intros Hd.
  destruct (interpolateSegment_cases x li ri lo ro Hd) as [Hup Hdown].
  cbv zeta in *.
  set (r := interpolateSegment x li ri lo ro) in *. clearbody r.
  split; intros Hx.
  - assert (Ev : lo + (x - li) / (ri - li) * (ro - lo) == lo)
      by (rewrite Hx; field; exact Hd).
    destruct (Qlt_le_dec ro lo) as [Hlt | Hle].
    + destruct (Hdown Hlt) as [[A ->] | [[A ->] | (A & B & ->)]]; lra.
    + destruct (Hup Hle) as [[A ->] | [[A ->] | (A & B & ->)]]; lra.
  - assert (Ev : lo + (x - li) / (ri - li) * (ro - lo) == ro)
      by (rewrite Hx; field; exact Hd).
    destruct (Qlt_le_dec ro lo) as [Hlt | Hle].
    + destruct (Hdown Hlt) as [[A ->] | [[A ->] | (A & B & ->)]]; lra.
    + destruct (Hup Hle) as [[A ->] | [[A ->] | (A & B & ->)]]; lra.
Qed.

(** The gesture scale mapped onto [-1, 1]. *)
Lemma pinch_scale_knots (e : Q) :
  let s := interpolate3 e (1 - 1 / SCALE_FULL_ZOOM) 1 SCALE_FULL_ZOOM (-1) 0 1 in
  (e == 1 -> s == 0) /\ (3 <= e -> s == 1) /\ (e <= 2 # 3 -> s == -1).
Proof.
  cbv zeta. unfold interpolate3, SCALE_FULL_ZOOM.
  assert (D1 : ~ 1 - (1 - 1 / 3) == 0) by (intros H; vm_compute in H; discriminate).
  assert (D2 : ~ 3 - 1 == 0) by (intros H; vm_compute in H; discriminate).
  destruct (interpolateSegment_cases e (1 - 1 / 3) 1 (-1) 0 D1) as [Ha _].
  destruct (interpolateSegment_cases e 1 3 0 1 D2) as [Hb _].
  cbv zeta in *.
  assert (Va : -1 + (e - (1 - 1 / 3)) / (1 - (1 - 1 / 3)) * (0 - -1)
               == 3 * e - 3) by field.
  assert (Vb : 0 + (e - 1) / (3 - 1) * (1 - 0) == (e - 1) / 2) by field.
  assert (Vb' : (e - 1) / 2 == (1 # 2) * e - (1 # 2)) by field.
  specialize (Ha ltac:(lra)). specialize (Hb ltac:(lra)).
  set (ra := interpolateSegment e (1 - 1 / 3) 1 (-1) 0) in *.
  set (rb := interpolateSegment e 1 3 0 1) in *.
  set (va := -1 + (e - (1 - 1 / 3)) / (1 - (1 - 1 / 3)) * (0 - -1)) in *.
  set (vb := 0 + (e - 1) / (3 - 1) * (1 - 0)) in *.
  clearbody ra rb va vb.
  destruct (Qltb 3 e) eqn:E3; [apply Qltb_true in E3 | apply Qltb_false in E3];
  (destruct (Qleb e 1) eqn:E1; [apply Qleb_true in E1 | apply Qleb_false in E1]);
  repeat split; intros He;
  destruct Ha as [[A Ea] | [[A Ea] | (A & B & Ea)]];
  destruct Hb as [[C Eb] | [[C Eb] | (C & D & Eb)]];
  try rewrite Ea; try rewrite Eb; lra.
Qed.

(** The pinch mapping at its three knots: scale 1 returns the anchor, and
    the mapping is cut off at the ends of the zoom range. *)
Lemma pinchUpdate_knots (minZoom maxZoom eventScale : Q) (st : ZoomState) :
  (eventScale == 1 ->
   zoom (pinchUpdate minZoom maxZoom eventScale st) == pinchStartZoom st)
  /\ (3 <= eventScale ->
      zoom (pinchUpdate minZoom maxZoom eventScale st) == maxZoom)
  /\ (eventScale <= 2 # 3 ->
      zoom (pinchUpdate minZoom maxZoom eventScale st) == minZoom).
Proof.
  unfold pinchUpdate; cbn [zoom].
  destruct (pinch_scale_knots eventScale) as (H0 & H1 & Hm). cbv zeta in *.
  set (s := interpolate3 eventScale (1 - 1 / SCALE_FULL_ZOOM) 1
                         SCALE_FULL_ZOOM (-1) 0 1) in *.
  clearbody s. unfold interpolate3.
  assert (Da : ~ 0 - -1 == 0) by (intros H; vm_compute in H; discriminate).
  assert (Db : ~ 1 - 0 == 0) by (intros H; vm_compute in H; discriminate).
  destruct (interpolateSegment_at_knots s (-1) 0 minZoom (pinchStartZoom st) Da)
    as [Ka1 Ka2].
  destruct (interpolateSegment_at_knots s 0 1 (pinchStartZoom st) maxZoom Db)
    as [Kb1 Kb2].
  repeat split; intros He.
  - specialize (H0 He).
    destruct (Qltb 1 s) eqn:E1; [apply Qltb_true in E1; lra|].
    destruct (Qleb s 0) eqn:E2; [|apply Qleb_false in E2; lra].
    now apply Ka2.
  - specialize (H1 He).
    destruct (Qltb 1 s) eqn:E1; [apply Qltb_true in E1; lra|].
    destruct (Qleb s 0) eqn:E2; [apply Qleb_true in E2; lra|].
    now apply Kb2.
  - specialize (Hm He).
    destruct (Qltb 1 s) eqn:E1; [apply Qltb_true in E1; lra|].
    destruct (Qleb s 0) eqn:E2; [|apply Qleb_false in E2; lra].
    now apply Ka1.
Qed.


(** [setZoomLevel] returns the requested factor when it lies in the range
    and the nearer end of the range otherwise, and writes that one value to
    the shared zoom, the pinch anchor, the last reported zoom and the
    displayed zoom. *)
Lemma setZoomLevel_clamps (minZoom maxZoom level : Q) (st : ZoomState) :
  minZoom <= maxZoom ->
  (level <= minZoom -> zoom (setZoomLevel minZoom maxZoom level st) == minZoom)
  /\ (minZoom <= level <= maxZoom ->
      zoom (setZoomLevel minZoom maxZoom level st) == level)
  /\ (maxZoom <= level ->
      zoom (setZoomLevel minZoom maxZoom level st) == maxZoom)
  /\ currentZoom (setZoomLevel minZoom maxZoom level st)
     = zoom (setZoomLevel minZoom maxZoom level st)
  /\ pinchStartZoom (setZoomLevel minZoom maxZoom level st)
     = zoom (setZoomLevel minZoom maxZoom level st)
  /\ lastZoomReported (setZoomLevel minZoom maxZoom level st)
     = zoom (setZoomLevel minZoom maxZoom level st).
Proof.
  intros Hr. unfold setZoomLevel; cbn [zoom currentZoom pinchStartZoom
                                       lastZoomReported].
  destruct (Qmin_cases level maxZoom) as [[Hm Em] | [Hm Em]];
  destruct (Qmax_cases minZoom (Qmin level maxZoom)) as [[Hx Ex] | [Hx Ex]];
    repeat split; try intros H; lra.
Qed.

(** C7. With the pinch anchor inside the zoom range, a pinch update with
    any gesture scale leaves the zoom inside the range, and so does a
    preset tap with any requested factor.  The preset tap clamps: a factor
    inside the range is taken as it is, a factor below the range becomes the
    minimum and one above it the maximum, and the displayed zoom, the pinch
    anchor and the last reported zoom receive the same clamped value.  The pinch mapping is cut
    off at both ends: a gesture scale of 2/3 or less gives the minimum, 3 or
    more the maximum, and scale 1 the anchor, which the update leaves as it
    was. *)
Theorem zoom_stays_in_range (minZoom maxZoom eventScale level : Q)
    (st : ZoomState)
    (Hanchor : minZoom <= pinchStartZoom st <= maxZoom) :
  inRange minZoom maxZoom (zoom (pinchUpdate minZoom maxZoom eventScale st))
  /\ inRange minZoom maxZoom (zoom (setZoomLevel minZoom maxZoom level st))
  /\ inRange minZoom maxZoom
       (currentZoom (setZoomLevel minZoom maxZoom level st))
  /\ inRange minZoom maxZoom
       (pinchStartZoom (setZoomLevel minZoom maxZoom level st))
  /\ (level <= minZoom ->
      zoom (setZoomLevel minZoom maxZoom level st) == minZoom)
  /\ (minZoom <= level <= maxZoom ->
      zoom (setZoomLevel minZoom maxZoom level st) == level)
  /\ (maxZoom <= level ->
      zoom (setZoomLevel minZoom maxZoom level st) == maxZoom)
  /\ currentZoom (setZoomLevel minZoom maxZoom level st)
     = zoom (setZoomLevel minZoom maxZoom level st)
  /\ pinchStartZoom (setZoomLevel minZoom maxZoom level st)
     = zoom (setZoomLevel minZoom maxZoom level st)
  /\ lastZoomReported (setZoomLevel minZoom maxZoom level st)
     = zoom (setZoomLevel minZoom maxZoom level st)
  /\ (eventScale <= 2 # 3 ->
      zoom (pinchUpdate minZoom maxZoom eventScale st) == minZoom)
  /\ (eventScale == 1 ->
      zoom (pinchUpdate minZoom maxZoom eventScale st) == pinchStartZoom st)
  /\ (3 <= eventScale ->
      zoom (pinchUpdate minZoom maxZoom eventScale st) == maxZoom)
  /\ pinchStartZoom (pinchUpdate minZoom maxZoom eventScale st)
     = pinchStartZoom st.
Proof.
  destruct Hanchor as [Hlo Hhi].
  assert (Hr : minZoom <= maxZoom) by lra.
  pose proof (Qmax_min_range minZoom maxZoom level Hr) as Hc.
  destruct (setZoomLevel_clamps minZoom maxZoom level st Hr)
    as (Cl & Cm & Ch & Ec & Ep & El).
  destruct (pinchUpdate_knots minZoom maxZoom eventScale st)
    as (K1 & K3 & K0).
  split; [split; now apply interpolate3_range|].
  split; [exact Hc|]. split; [exact Hc|]. split; [exact Hc|].
  split; [exact Cl|]. split; [exact Cm|]. split; [exact Ch|].
  split; [exact Ec|]. split; [exact Ep|]. split; [exact El|].
  split; [exact K0|]. split; [exact K1|]. split; [exact K3|].
  reflexivity.
Qed.

Lemma zoom_stays_in_range_witness :
  (1 <= pinchStartZoom Samples.restingZoom <= 16)
  /\ inRange 1 16 (zoom (pinchUpdate 1 16 2 Samples.restingZoom))
  /\ inRange 1 16 (zoom (setZoomLevel 1 16 40 Samples.restingZoom))
  /\ zoom (setZoomLevel 1 16 40 Samples.restingZoom) == 16.
Proof.
  assert (H : 1 <= pinchStartZoom Samples.restingZoom <= 16)
    by (simpl; lra).
  split; [exact H|].
  destruct (zoom_stays_in_range 1 16 2 40 Samples.restingZoom H)
    as (H1 & H2 & _ & _ & _ & _ & H7 & _).
  split; [exact H1|]. split; [exact H2|].
  apply H7. lra.
Defined.

(** C5 fails as worded: with a telephoto lens the 3x entry is cut down to
    [maxZoom], which here is the factor of the 2x entry. *)
Lemma zoomPresets_duplicate_factor :
  map label (zoomPresets (Some Samples.teleDevice) true) = ["1x"; "2x"; "3x"]%string
  /\ (exists p q : ZoomPreset,
        zoomPresets (Some Samples.teleDevice) true !! 1%nat = Some p
        /\ zoomPresets (Some Samples.teleDevice) true !! 2%nat = Some q
        /\ value p == 2 /\ value q == 2)
  /\ ~ distinctFactors (zoomPresets (Some Samples.teleDevice) true).
Proof.
  split; [reflexivity|]. split.
  - eexists _, _. split; [reflexivity|]. split; [reflexivity|].
    split; reflexivity.
  - unfold distinctFactors. intros H.
    change (zoomPresets (Some Samples.teleDevice) true)
      with [mkPreset "1x" (1 * 1); mkPreset "2x" (1 * 2);
            mkPreset "3x" (Qmin (1 * 3) 2)] in H.
    inversion H as [|p l _ H1]; subst.
    inversion H1 as [|p l Hnot _]; subst.
    apply Hnot. constructor. reflexivity.
Defined.

(** The 3x entry, when present, is [3 * neutral] or a cut-off [maxZoom]
    that only a telephoto lens can bring in. *)
Lemma threeX_value (device : option CameraDevice) :
  let n := neutralZoomOf device in
  let mx := maxZoomOf device in
  (deviceIncludes device telephoto_camera || Qleb (n * 3) mx) = true ->
  Qmin (n * 3) mx == n * 3
  \/ (Qmin (n * 3) mx == mx /\ mx < n * 3
      /\ deviceIncludes device telephoto_camera = true).
Proof.
  intros n mx Hc.
  destruct (Qmin_cases (n * 3) mx) as [[H E] | [H E]]; [now left|].
  destruct (Qleb (n * 3) mx) eqn:E3.
  - apply Qleb_true in E3. left. rewrite E. lra.
  - apply Qleb_false in E3. right. rewrite orb_false_r in Hc. auto.
Qed.

(** C5, as the code has it. With a positive neutral factor the preset
    factors are pairwise different, unless a telephoto lens brings in a 3x
    entry cut down to a [maxZoom] that is itself the factor of the UW, 1x
    or 2x entry. *)
Theorem zoomPresets_distinct (device : option CameraDevice)
    (maxResolutionMode : bool)
    (Hpos : 0 < neutralZoomOf device)
    (Hcut : deviceIncludes device telephoto_camera = true ->
            maxZoomOf device < neutralZoomOf device * 3 ->
            ~ maxZoomOf device == minZoomOf device maxResolutionMode
            /\ ~ maxZoomOf device == neutralZoomOf device
            /\ ~ maxZoomOf device == neutralZoomOf device * 2) :
  distinctFactors (zoomPresets device maxResolutionMode).
Proof.
  unfold distinctFactors, zoomPresets.
  pose proof (threeX_value device) as H3. simpl in H3.
  set (mn := minZoomOf device maxResolutionMode) in *.
  set (mx := maxZoomOf device) in *.
  set (n := neutralZoomOf device) in *.
  set (tele := deviceIncludes device telephoto_camera) in *.
  set (v := Qmin (n * 3) mx) in *.
  set (uw := negb maxResolutionMode
             && (deviceIncludes device ultra_wide_angle_camera
                 || Qltb (mn + (5 # 100)) n)).
  clearbody uw v mn mx n.
  assert (Hv : (tele || Qleb (n * 3) mx) = true ->
               v == n * 3
               \/ (v == mx /\ mx < n * 3 /\ ~ mx == mn /\ ~ mx == n
                   /\ ~ mx == n * 2)).
  { intros Hc. destruct (H3 Hc) as [E | (E & Hlt & Ht)]; [now left|].
    right. destruct (Hcut Ht Hlt) as (A & B & C). auto. }
  clear H3 Hcut.
  destruct (uw && Qltb mn n) eqn:E1;
    [apply andb_true_iff in E1; destruct E1 as [_ E1];
     apply Qltb_true in E1 | clear E1];
  (destruct (Qleb (n * 2) mx) eqn:E2;
    [apply Qleb_true in E2 | apply Qleb_false in E2]);
  (destruct (tele || Qleb (n * 3) mx) eqn:E3;
    [destruct (Hv eq_refl) as [Ev | (Ev & Hlt & A & B & C)] | ]);
  clear Hv;
  (destruct (Qleb (n * 5) mx) eqn:E5;
    [apply Qleb_true in E5 | apply Qleb_false in E5]);
  simpl;
  repeat (constructor;
          [ let HI := fresh "HI" in
            intros HI; rewrite ?InA_cons, ?InA_nil in HI;
            unfold sameFactor in HI; simpl in HI;
            repeat (destruct HI as [HI | HI]);
            solve [ lra | contradiction
                  | apply A; lra | apply B; lra | apply C; lra ]
          | ]);
  constructor.
Qed.

Lemma zoomPresets_distinct_witness :
  0 < neutralZoomOf (Some Samples.tripleDevice)
  /\ distinctFactors (zoomPresets (Some Samples.tripleDevice) false).
Proof.
  assert (Hpos : 0 < neutralZoomOf (Some Samples.tripleDevice))
    by (simpl; lra).
  split; [exact Hpos|].
  apply (zoomPresets_distinct (Some Samples.tripleDevice) false Hpos).
  intros _ Hlt. simpl in Hlt. lra.
Defined.

End ZoomFacts.

(* ------------------------------------------------------------------ *)
(** ** Focus mapper *)

Section FocusFacts.
Import Types Focus.
Local Open Scope Q_scope.

(** A clamp leaves a value already in range alone. *)
Lemma clamp_in_range (lo hi v : Q) :
  lo <= v -> v <= hi -> Qmax lo (Qmin hi v) == v.
Proof.
  intros Hl Hh.
  destruct (Qmin_cases hi v) as [[H1 E1] | [H1 E1]];
  destruct (Qmax_cases lo (Qmin hi v)) as [[H2 E2] | [H2 E2]];
  rewrite E2; lra.
Qed.

Lemma Qdiv_nonneg (a b : Q) : 0 <= a -> 0 < b -> 0 <= a / b.
Proof.
  intros Ha Hb. apply Qle_shift_div_l; [assumption|]. lra.
Qed.

Lemma Qdiv_pos (a b : Q) : 0 < a -> 0 < b -> 0 < a / b.
Proof.
  intros Ha Hb. apply Qlt_shift_div_l; [assumption|]. lra.
Qed.

Lemma Qdiv_le_1 (a b : Q) : a <= b -> 0 < b -> a / b <= 1.
Proof.
  intros Ha Hb. apply Qle_shift_div_r; [assumption|]. lra.
Qed.

(** One axis of the intersection: offset and extent, as fractions of the
    preview length, lie in the unit interval. *)
Lemma axis_inside (p len b blen : Q) :
  0 < len ->
  8 <= Qmin (p + len) (b + blen) - Qmax p b ->
  0 <= (Qmax p b - p) / len
  /\ (Qmax p b - p) / len
     + (Qmin (p + len) (b + blen) - Qmax p b) / len <= 1
  /\ 0 < (Qmin (p + len) (b + blen) - Qmax p b) / len.
Proof.
  intros Hlen Hw.
  set (lo := Qmax p b) in *. set (hi := Qmin (p + len) (b + blen)) in *.
  assert (Hlo : p <= lo).
  { unfold lo. destruct (Qmax_cases p b) as [[H E] | [H E]]; rewrite E; lra. }
  assert (Hhi : hi <= p + len).
  { unfold hi. destruct (Qmin_cases (p + len) (b + blen)) as [[H E] | [H E]];
      rewrite E; lra. }
  clearbody lo hi. repeat split.
  - apply Qdiv_nonneg; lra.
  - assert (E : (lo - p) / len + (hi - lo) / len == (hi - p) / len)
      by (field; lra).
    rewrite E. apply Qdiv_le_1; lra.
  - apply Qdiv_pos; lra.
Qed.

Lemma normalizedIntersection_inside (pv : PreviewRect) (box : BoxRect)
    (n : NormBox) :
  normalizedIntersection pv box = Some n ->
  0 <= nb_x n /\ nb_x n + nb_w n <= 1 /\ 0 < nb_w n
  /\ 0 <= nb_y n /\ nb_y n + nb_h n <= 1 /\ 0 < nb_h n.
Proof.
  unfold normalizedIntersection.
  destruct (Qleb (pv_width pv) 0) eqn:Ew; [discriminate|].
  destruct (Qleb (pv_height pv) 0) eqn:Eh; [discriminate|].
  apply Qleb_false in Ew, Eh. simpl.
  match goal with |- context [Qltb ?w 8 || Qltb ?h 8] =>
    destruct (Qltb w 8) eqn:E1; [discriminate|];
    destruct (Qltb h 8) eqn:E2; [discriminate|] end.
  apply Qltb_false in E1, E2. simpl. intros [= <-]. simpl.
  destruct (axis_inside (left pv) (pv_width pv) (box_x box) (box_width box)
              Ew E1) as (A1 & A2 & A3).
  destruct (axis_inside (top pv) (pv_height pv) (box_y box) (box_height box)
              Eh E2) as (B1 & B2 & B3).
  repeat split; assumption.
Qed.

(** Whatever goes in, a box that survives the clamp is inside the unit
    square and at least 0.01 on each side. *)
Lemma clampBox_inside (n r : NormBox) :
  clampBox n = Some r -> insideUnitSquare r.
Proof.
  unfold clampBox.
  set (x := Qmax 0 (Qmin 1 (nb_x n))). set (y := Qmax 0 (Qmin 1 (nb_y n))).
  set (w := Qmax 0 (Qmin (1 - x) (nb_w n))).
  set (h := Qmax 0 (Qmin (1 - y) (nb_h n))).
  destruct (Qltb w (1 # 100)) eqn:Ew; [discriminate|].
  destruct (Qltb h (1 # 100)) eqn:Eh; [discriminate|].
  apply Qltb_false in Ew, Eh. simpl. intros [= <-].
  unfold insideUnitSquare; simpl.
  assert (Hx : 0 <= x <= 1).
  { unfold x. destruct (Qmin_cases 1 (nb_x n)) as [[H1 E1] | [H1 E1]];
    destruct (Qmax_cases 0 (Qmin 1 (nb_x n))) as [[H2 E2] | [H2 E2]];
    rewrite E2; lra. }
  assert (Hy : 0 <= y <= 1).
  { unfold y. destruct (Qmin_cases 1 (nb_y n)) as [[H1 E1] | [H1 E1]];
    destruct (Qmax_cases 0 (Qmin 1 (nb_y n))) as [[H2 E2] | [H2 E2]];
    rewrite E2; lra. }
  assert (Hw : w <= 1 - x).
  { unfold w. destruct (Qmin_cases (1 - x) (nb_w n)) as [[H1 E1] | [H1 E1]];
    destruct (Qmax_cases 0 (Qmin (1 - x) (nb_w n))) as [[H2 E2] | [H2 E2]];
    rewrite E2; lra. }
  assert (Hh : h <= 1 - y).
  { unfold h. destruct (Qmin_cases (1 - y) (nb_h n)) as [[H1 E1] | [H1 E1]];
    destruct (Qmax_cases 0 (Qmin (1 - y) (nb_h n))) as [[H2 E2] | [H2 E2]];
    rewrite E2; lra. }
  clearbody x y w h. lra.
Qed.

(** On a box already inside the unit square the clamp changes nothing. *)
Lemma clampBox_id (n r : NormBox) :
  0 <= nb_x n -> nb_x n + nb_w n <= 1 -> 0 <= nb_w n ->
  0 <= nb_y n -> nb_y n + nb_h n <= 1 -> 0 <= nb_h n ->
  clampBox n = Some r -> boxEq r n.
Proof.
  intros Hx Hxw Hw Hy Hyh Hh. unfold clampBox.
  match goal with |- context [Qltb ?w _ || Qltb ?h _] =>
    destruct (Qltb w (1 # 100) || Qltb h (1 # 100)); [discriminate|] end.
  intros [= <-]. unfold boxEq; simpl.
  assert (Ex : Qmax 0 (Qmin 1 (nb_x n)) == nb_x n)
    by (apply clamp_in_range; lra).
  assert (Ey : Qmax 0 (Qmin 1 (nb_y n)) == nb_y n)
    by (apply clamp_in_range; lra).
  repeat split; try assumption.
  - apply clamp_in_range; [assumption|]. rewrite Ex. lra.
  - apply clamp_in_range; [assumption|]. rewrite Ey. lra.
Qed.

(** C3. The result is a function of the inputs alone; a returned box lies
    in the unit square with sides of at least 0.01; and it is the normalised
    intersection itself when image and preview share an orientation, and
    its 90 degree swap when they differ. *)
Theorem focusBox_in_unit_square (env : FocusEnv) (imageWidth imageHeight : Z) :
  (forall r1 r2,
     computeNormalizedFocusBox env imageWidth imageHeight = r1 ->
     computeNormalizedFocusBox env imageWidth imageHeight = r2 -> r1 = r2)
  /\ (forall r,
        computeNormalizedFocusBox env imageWidth imageHeight = Some r ->
        insideUnitSquare r)
  /\ (forall r,
        computeNormalizedFocusBox env imageWidth imageHeight = Some r ->
        exists box n,
          focusBoxRect env = Some box
          /\ normalizedIntersection (previewGeometry env) box = Some n
          /\ (orientationDiffers imageWidth imageHeight (previewGeometry env)
              = true -> boxEq r (swap90 n))
          /\ (orientationDiffers imageWidth imageHeight (previewGeometry env)
              = false -> boxEq r n)).
Proof.
  split; [intros r1 r2 <- <-; reflexivity|].
  unfold computeNormalizedFocusBox.
  destruct (focusOn env); simpl; [|split; intros; discriminate].
  destruct (focusBoxRect env) as [box|]; [|split; intros; discriminate].
  destruct (normalizedIntersection (previewGeometry env) box) as [n|] eqn:En;
    [|split; intros; discriminate].
  split.
  - intros r Hr. eapply clampBox_inside; eassumption.
  - intros r Hr. exists box, n. split; [reflexivity|]. split; [exact En|].
    destruct (normalizedIntersection_inside _ _ _ En)
      as (Hx & Hxw & Hw & Hy & Hyh & Hh).
    split; intros Ho; rewrite Ho in Hr.
    + apply clampBox_id in Hr; [assumption|simpl; lra..].
    + apply clampBox_id in Hr; [assumption|lra..].
Qed.

Lemma focusBox_in_unit_square_witness :
  exists r,
    computeNormalizedFocusBox Samples.portraitEnv 4000 3000 = Some r
    /\ insideUnitSquare r
    /\ boxEq r {| nb_x := 5 # 16; nb_y := 1 # 4; nb_w := 3 # 8; nb_h := 1 # 2 |}.
Proof.
  destruct (computeNormalizedFocusBox Samples.portraitEnv 4000 3000)
    as [r|] eqn:E; [|vm_compute in E; discriminate].
  exists r. split; [reflexivity|].
  destruct (focusBox_in_unit_square Samples.portraitEnv 4000 3000)
    as (_ & Hin & Hswap).
  split; [now apply Hin|].
  destruct (Hswap r E) as (box & n & Hb & Hn & Hd & _).
  injection Hb as <-. vm_compute in Hn. injection Hn as <-.
  specialize (Hd eq_refl). unfold boxEq in *. simpl in *.
  destruct Hd as (H1 & H2 & H3 & H4).
  rewrite H1, H2, H3, H4. repeat split; reflexivity.
Defined.

End FocusFacts.

(* ------------------------------------------------------------------ *)
(** ** Format catalog *)

Section FormatFacts.
Import Camera Format.

Lemma Qltb_0_inject (z : Z) : Qltb 0 (inject_Z z) = (0 <? z).
Proof.
  destruct (Z.ltb_spec 0 z) as [H | H].
  - apply Qltb_true. unfold Qlt; simpl. lia.
  - apply Qltb_false. unfold Qle; simpl. lia.
Qed.

(** *** The all-devices scan *)

Lemma ScanInv_init : ScanInv [] (None, 0).
Proof. unfold ScanInv; simpl. repeat split; [lia | intros _ _ []]. Qed.

Lemma scanFormat_inv dev seen acc fmt :
  ScanInv seen acc ->
  ScanInv (seen ++ [(dev, fmt)]) (scanFormat dev acc fmt).
Proof.
  destruct acc as [bd bp]. unfold ScanInv, scanFormat; simpl.
  intros (Hnn & Hle & Hbest).
  destruct (Z.ltb_spec bp (photoPixels fmt)) as [Hlt | Hge]; simpl.
  - split; [lia|]. split.
    + intros d f [Hin | [[= <- <-] | []]]%in_app_iff; [|simpl; lia].
      specialize (Hle d f Hin). lia.
    + split; [lia|]. split.
      * exists fmt. split; [|reflexivity]. apply in_app_iff. right. now left.
      * intros d f [Hin | [[= <- <-] | []]]%in_app_iff Hpx; [|simpl; lia].
        specialize (Hle d f Hin). lia.
  - destruct (Z.eqb_spec (photoPixels fmt) bp) as [Heq | Hne].
    + destruct bd as [best|]; simpl.
      * destruct Hbest as (Hpos & (f0 & Hf0 & Hpx0) & Htie).
        destruct (Z.ltb_spec (scoreDevice best) (scoreDevice dev))
          as [Hs | Hs]; simpl.
        -- split; [lia|]. split.
           ++ intros d f [Hin | [[= <- <-] | []]]%in_app_iff; [eauto | simpl; lia].
           ++ split; [lia|]. split.
              ** exists fmt. split; [|assumption].
                 apply in_app_iff. right. now left.
              ** intros d f [Hin | [[= <- <-] | []]]%in_app_iff Hpx; [|simpl; lia].
                 specialize (Htie d f Hin Hpx). lia.
        -- split; [lia|]. split.
           ++ intros d f [Hin | [[= <- <-] | []]]%in_app_iff; [eauto | simpl; lia].
           ++ split; [lia|]. split.
              ** exists f0. split; [|assumption]. apply in_app_iff. now left.
              ** intros d f [Hin | [[= <- <-] | []]]%in_app_iff Hpx;
                   [eauto | simpl; lia].
      * split; [lia|]. split; [|assumption].
        intros d f [Hin | [[= <- <-] | []]]%in_app_iff; [eauto | simpl; lia].
    + simpl. split; [lia|]. split.
      * intros d f [Hin | [[= <- <-] | []]]%in_app_iff; [eauto | simpl; lia].
      * destruct bd as [best|]; [|assumption].
        destruct Hbest as (Hpos & (f0 & Hf0 & Hpx0) & Htie).
        split; [lia|]. split.
        -- exists f0. split; [|assumption]. apply in_app_iff. now left.
        -- intros d f [Hin | [[= <- <-] | []]]%in_app_iff Hpx;
             [eauto | simpl; lia].
Qed.

Lemma scanFormats_inv dev fmts : forall seen acc,
  ScanInv seen acc ->
  ScanInv (seen ++ List.map (pair dev) fmts)
          (fold_left (scanFormat dev) fmts acc).
Proof.
  induction fmts as [|f fmts IH]; intros seen acc H; simpl.
  - now rewrite app_nil_r.
  - replace (seen ++ (dev, f) :: List.map (pair dev) fmts)
      with ((seen ++ [(dev, f)]) ++ List.map (pair dev) fmts)
      by (now rewrite <- app_assoc).
    apply IH. now apply scanFormat_inv.
Qed.

Lemma scanDevices_inv devs : forall seen acc,
  ScanInv seen acc ->
  ScanInv (seen ++ scanned devs) (fold_left scanDevice devs acc).
Proof.
  induction devs as [|d devs IH]; intros seen acc H; simpl.
  - now rewrite app_nil_r.
  - rewrite app_assoc. apply IH. unfold scanDevice.
    destruct (isBack (position d)); simpl.
    + now apply scanFormats_inv.
    + now rewrite app_nil_r.
Qed.

Lemma in_scanned devs d f :
  In (d, f) (scanned devs)
  <-> In d devs /\ isBack (position d) = true /\ In f (formats d).
Proof.
  unfold scanned. rewrite in_flat_map. split.
  - intros (d0 & Hd0 & Hin). destruct (isBack (position d0)) eqn:E; [|easy].
    apply in_map_iff in Hin. destruct Hin as (f0 & [= <- <-] & Hf0). auto.
  - intros (Hd & Hb & Hf). exists d. split; [assumption|]. rewrite Hb.
    apply in_map_iff. eauto.
Qed.

Lemma scanDevices_final (allDevices : list CameraDevice) :
  ScanInv (scanned allDevices) (scanDevices allDevices).
Proof.
  unfold scanDevices.
  change (scanned allDevices) with ([] ++ scanned allDevices).
  apply scanDevices_inv, ScanInv_init.
Qed.

(** The device found by the scan is a back camera of the list holding a
    format with the largest pixel count of all back cameras, and among the
    back cameras reaching that count none has a higher score. *)
Lemma bestHighResDevice_spec (allDevices : list CameraDevice) (best : CameraDevice) :
  bestHighResDevice allDevices = Some best ->
  In best allDevices /\ isBack (position best) = true
  /\ exists top,
       In top (formats best) /\ 0 < photoPixels top
       /\ (forall d f, In d allDevices -> isBack (position d) = true ->
                       In f (formats d) -> photoPixels f <= photoPixels top)
       /\ (forall d f, In d allDevices -> isBack (position d) = true ->
                       In f (formats d) -> photoPixels f = photoPixels top ->
                       scoreDevice d <= scoreDevice best).
Proof.
  intros Hb.
  assert (Hfst : fst (scanDevices allDevices) = Some best)
    by (destruct allDevices; [discriminate | exact Hb]).
  destruct (scanDevices_final allDevices) as (_ & Hle & Hbest).
  rewrite Hfst in Hbest. destruct Hbest as (Hpos & (top & Hin & Hpx) & Htie).
  apply in_scanned in Hin. destruct Hin as (Hd & Hback & Hf).
  split; [assumption|]. split; [assumption|].
  exists top. split; [assumption|]. split; [lia|]. split.
  - intros d f H1 H2 H3. rewrite Hpx. apply (Hle d f).
    apply in_scanned. auto.
  - intros d f H1 H2 H3 H4. apply (Htie d f); [|lia].
    apply in_scanned. auto.
Qed.

(** The scan finds a device as soon as one back camera has a format with a
    positive pixel count. *)
Lemma bestHighResDevice_found (allDevices : list CameraDevice) d f :
  In d allDevices -> isBack (position d) = true -> In f (formats d) ->
  0 < photoPixels f ->
  exists best, bestHighResDevice allDevices = Some best.
Proof.
  intros Hd Hb Hf Hpos.
  destruct (scanDevices_final allDevices) as (_ & Hle & Hbest).
  assert (Hin : In (d, f) (scanned allDevices)) by (apply in_scanned; auto).
  specialize (Hle d f Hin).
  unfold bestHighResDevice. destruct allDevices as [|d0 rest]; [destruct Hd|].
  destruct (fst (scanDevices (d0 :: rest))) as [best|]; [eauto|]. lia.
Qed.

(** *** Choosing the format *)

Lemma reduceMax_inv (pixels : CameraFormat -> Z) fmts : forall seen best,
  ReduceInv pixels seen best ->
  ReduceInv pixels (seen ++ fmts)
    (fold_left
       (fun best f =>
          let bestPixels := match best with Some b => pixels b | None => 0 end in
          if bestPixels <? pixels f then Some f else best)
       fmts best).
Proof.
  induction fmts as [|f fmts IH]; intros seen best H; simpl.
  - now rewrite app_nil_r.
  - replace (seen ++ f :: fmts) with ((seen ++ [f]) ++ fmts)
      by (now rewrite <- app_assoc).
    apply IH. unfold ReduceInv in *.
    destruct best as [b|].
    + destruct H as (Hin & Hpos & Hle).
      destruct (Z.ltb_spec (pixels b) (pixels f)) as [Hlt | Hge].
      * split; [apply in_app_iff; right; now left|]. split; [lia|].
        intros g [Hg | [<- | []]]%in_app_iff; [|lia].
        specialize (Hle g Hg). lia.
      * split; [apply in_app_iff; now left|]. split; [assumption|].
        intros g [Hg | [<- | []]]%in_app_iff; [auto | lia].
    + destruct (Z.ltb_spec 0 (pixels f)) as [Hlt | Hge].
      * split; [apply in_app_iff; right; now left|]. split; [assumption|].
        intros g [Hg | [<- | []]]%in_app_iff; [|lia].
        specialize (H g Hg). lia.
      * intros g [Hg | [<- | []]]%in_app_iff; [auto | lia].
Qed.

Lemma reduceMax_final (pixels : CameraFormat -> Z) (fmts : list CameraFormat) :
  ReduceInv pixels fmts (reduceMax pixels fmts).
Proof.
  unfold reduceMax. change fmts with ([] ++ fmts) at 1.
  apply reduceMax_inv. intros g [].
Qed.

Lemma sortInsert_In {A} (cmp : A -> A -> Q) (x z : A) (l : list A) :
  In z (sortInsert cmp x l) <-> z = x \/ In z l.
Proof.
  induction l as [|y t IH]; simpl; [intuition|].
  destruct (Qltb 0 (cmp x y)); simpl; [rewrite IH|]; intuition.
Qed.

Lemma jsSort_In {A} (cmp : A -> A -> Q) (z : A) (l : list A) :
  In z (jsSort cmp l) <-> In z l.
Proof.
  unfold jsSort. induction l as [|x t IH]; simpl; [reflexivity|].
  rewrite sortInsert_In, IH. intuition.
Qed.

(** Sorting by a descending integer key puts a largest element first. *)
Lemma jsSort_HeadMax {A} (key : A -> Z) (l : list A) :
  HeadMax key (jsSort (fun a b => inject_Z (key b - key a)) l).
Proof.
  unfold jsSort. induction l as [|x t IH]; simpl; [exact I|].
  set (s := foldr (sortInsert (fun a b => inject_Z (key b - key a))) [] t) in *.
  clearbody s. destruct s as [|y s']; simpl.
  - intros g [<- | []]. lia.
  - rewrite Qltb_0_inject.
    destruct (Z.ltb_spec 0 (key y - key x)) as [Hlt | Hge]; simpl.
    + intros g [<- | Hg]; [lia|].
      apply sortInsert_In in Hg. destruct Hg as [-> | Hg]; [lia|].
      apply IH. now right.
    + intros g [<- | Hg]; [lia|].
      specialize (IH g Hg). simpl in IH. lia.
Qed.

Lemma head_jsSort_max {A} (key : A -> Z) (l : list A) :
  match head (jsSort (fun a b => inject_Z (key b - key a)) l) with
  | Some h => In h l /\ forall g, In g l -> key g <= key h
  | None => l = []
  end.
Proof.
  pose proof (jsSort_HeadMax key l) as Hm.
  pose proof (fun z => jsSort_In (fun a b => inject_Z (key b - key a)) z l) as Hi.
  destruct (jsSort (fun a b => inject_Z (key b - key a)) l) as [|h s]; simpl.
  - destruct l as [|x t]; [reflexivity|].
    destruct (proj2 (Hi x) (or_introl eq_refl)).
  - split; [apply Hi; now left|].
    intros g Hg. apply Hm, Hi, Hg.
Qed.

(** On the photo path the Max preset takes a format of the device with the
    largest positive photo pixel count, if there is one. *)
Lemma selectedFormat_photo_max (os : PlatformOS) (d : CameraDevice)
    (enableVideo : bool) :
  photoPath os enableVideo = true ->
  match selectedFormat os (Some d) PresetMax enableVideo with
  | Some f => In f (formats d) /\ 0 < photoPixels f
              /\ forall g, In g (formats d) -> photoPixels g <= photoPixels f
  | None => forall g, In g (formats d) -> photoPixels g <= 0
  end.
Proof.
  intros Hp. unfold selectedFormat.
  destruct os; simpl.
  - (* pickBestPhotoFormat, sorted by photo pixels *)
    unfold pickBestPhotoFormat; simpl.
    destruct (formats d) as [|f0 rest] eqn:Ef; [intros g []|].
    rewrite <- Ef. clear Ef f0 rest.
    pose proof (head_jsSort_max photoPixels
                  (List.filter (fun f => 0 <? photoPixels f) (formats d))) as H.
    destruct (head _) as [h|].
    + destruct H as (Hin & Hmax). apply filter_In in Hin.
      destruct Hin as (Hin & Hpos). apply Z.ltb_lt in Hpos.
      split; [assumption|]. split; [assumption|].
      intros g Hg. destruct (Z.ltb_spec 0 (photoPixels g)) as [Hlt | Hle]; [|lia].
      apply Hmax, filter_In. split; [assumption|]. now apply Z.ltb_lt.
    + intros g Hg. destruct (Z.ltb_spec 0 (photoPixels g)) as [Hlt | Hle]; [|lia].
      assert (Hgf : In g (List.filter (fun f => 0 <? photoPixels f) (formats d)))
        by (apply filter_In; split; [assumption | now apply Z.ltb_lt]).
      rewrite H in Hgf. destruct Hgf.
  - (* Android *)
    destruct enableVideo; [discriminate Hp|]. simpl.
    pose proof (reduceMax_final photoPixels (formats d)) as H.
    unfold ReduceInv in H. destruct (reduceMax photoPixels (formats d)); exact H.
Qed.

Lemma scoreDevice_dedicatedWide (d : CameraDevice) :
  dedicatedWide d -> scoreDevice d = 110.
Proof. unfold dedicatedWide, scoreDevice. intros ->. reflexivity. Qed.

(** Only a device whose single lens is the wide one scores 110 or more. *)
Lemma scoreDevice_110 (d : CameraDevice) :
  110 <= scoreDevice d -> dedicatedWide d.
Proof.
  unfold dedicatedWide, scoreDevice.
  destruct (physicalDevices d) as [|k [|k2 t]]; simpl.
  - lia.
  - destruct k; simpl; intros H; (reflexivity || lia).
  - repeat match goal with
           | |- context [if ?c then _ else _] => destruct c
           end; lia.
Qed.

(** C1, as the code has it. Under the Max preset, when some back camera
    offers a format with a positive photo pixel count, the device in use is
    a back camera of the list and the format taken on the photo path is one
    of its formats with at least as many photo pixels as every format of
    every back camera; no back camera reaching that pixel count scores
    higher, so if a dedicated wide camera reaches it the device in use is a
    dedicated wide camera.  Front and external cameras are not looked at. *)
Theorem max_preset_selects_largest_back_format (os : PlatformOS)
    (allDevices : list CameraDevice) (hooks : HookDevices) (enableVideo : bool)
    (Hphoto : photoPath os enableVideo = true)
    (Hsome : exists d f, In d allDevices /\ isBack (position d) = true
                         /\ In f (formats d) /\ 0 < photoPixels f) :
  exists dev chosen,
    device true PresetMax allDevices hooks = Some dev
    /\ selectedFormat os (Some dev) PresetMax enableVideo = Some chosen
    /\ In dev allDevices /\ isBack (position dev) = true
    /\ In chosen (formats dev)
    /\ (forall d f, In d allDevices -> isBack (position d) = true ->
                    In f (formats d) -> photoPixels f <= photoPixels chosen)
    /\ (forall d f, In d allDevices -> isBack (position d) = true ->
                    In f (formats d) -> photoPixels f = photoPixels chosen ->
                    scoreDevice d <= scoreDevice dev)
    /\ (forall d f, In d allDevices -> isBack (position d) = true ->
                    In f (formats d) -> photoPixels f = photoPixels chosen ->
                    dedicatedWide d -> dedicatedWide dev).
Proof.
  destruct Hsome as (d0 & f0 & Hd0 & Hb0 & Hf0 & Hpos0).
  destruct (bestHighResDevice_found allDevices d0 f0 Hd0 Hb0 Hf0 Hpos0)
    as (dev & Hbest).
  destruct (bestHighResDevice_spec allDevices dev Hbest)
    as (Hin & Hback & top & Htop & Htpos & Hmax & Htie).
  pose proof (selectedFormat_photo_max os dev enableVideo Hphoto) as Hsel.
  assert (Hdev : device true PresetMax allDevices hooks = Some dev)
    by (unfold device; simpl; now rewrite Hbest).
  destruct (selectedFormat os (Some dev) PresetMax enableVideo)
    as [chosen|] eqn:Esel.
  - destruct Hsel as (Hc & Hcpos & Hcmax).
    assert (Heq : photoPixels chosen = photoPixels top).
    { specialize (Hcmax top Htop). specialize (Hmax dev chosen Hin Hback Hc).
      lia. }
    exists dev, chosen.
    split; [exact Hdev|]. split; [exact Esel|].
    split; [assumption|]. split; [assumption|]. split; [assumption|].
    split; [|split].
    + intros d f H1 H2 H3. rewrite Heq. eauto.
    + intros d f H1 H2 H3 H4. apply (Htie d f); auto. lia.
    + intros d f H1 H2 H3 H4 Hw. apply scoreDevice_110.
      rewrite <- (scoreDevice_dedicatedWide d Hw).
      apply (Htie d f); auto. lia.
  - specialize (Hsel top Htop). lia.
Qed.

Lemma max_preset_selects_largest_back_format_witness :
  photoPath ios true = true
  /\ (exists d f,
        In d [Samples.frontCamera; Samples.backTriple; Samples.backWide]
        /\ isBack (position d) = true /\ In f (formats d)
        /\ 0 < photoPixels f)
  /\ exists dev chosen,
       device true PresetMax
              [Samples.frontCamera; Samples.backTriple; Samples.backWide]
              Samples.backHooks = Some dev
       /\ selectedFormat ios (Some dev) PresetMax true = Some chosen
       /\ photoPixels chosen = 12000000
       /\ dedicatedWide dev.
Proof.
  assert (Hs : exists d f,
             In d [Samples.frontCamera; Samples.backTriple; Samples.backWide]
             /\ isBack (position d) = true /\ In f (formats d)
             /\ 0 < photoPixels f).
  { exists Samples.backWide, (Samples.fmt 4000 3000). simpl.
    repeat split; auto. }
  split; [reflexivity|]. split; [exact Hs|].
  destruct (max_preset_selects_largest_back_format ios
              [Samples.frontCamera; Samples.backTriple; Samples.backWide]
              Samples.backHooks true eq_refl Hs)
    as (dev & chosen & Hdev & Hsel & _ & _ & _ & Hmax & _ & Hwide).
  exists dev, chosen. split; [exact Hdev|]. split; [exact Hsel|].
  vm_compute in Hdev. injection Hdev as <-.
  vm_compute in Hsel. injection Hsel as <-.
  split; [reflexivity|]. reflexivity.
Defined.

(** C1 fails as worded: the scan skips a front camera, so the format taken
    can have fewer photo pixels than a format of the device list. *)
Lemma max_preset_skips_front_camera :
  device true PresetMax [Samples.frontCamera; Samples.backWide]
         Samples.backHooks = Some Samples.backWide
  /\ selectedFormat ios (Some Samples.backWide) PresetMax true
     = Some (Samples.fmt 4000 3000)
  /\ selectedFormat android (Some Samples.backWide) PresetMax false
     = Some (Samples.fmt 4000 3000)
  /\ In Samples.frontCamera [Samples.frontCamera; Samples.backWide]
  /\ In (Samples.fmt 8000 6000) (formats Samples.frontCamera)
  /\ photoPixels (Samples.fmt 4000 3000) < photoPixels (Samples.fmt 8000 6000).
Proof.
  split; [reflexivity|]. split; [vm_compute; reflexivity|].
  split; [reflexivity|]. split; [now left|]. split; [now left|].
  reflexivity.
Defined.

End FormatFacts.

(* ------------------------------------------------------------------ *)
(** ** Session *)

Section SessionFacts.
Import Types Session.

Lemma filterOutIndex_from {A} (l : list A) : forall i k : Z,
  Lots.filterOutIndex i k l =
    if (i <=? k) && (k - i <? Z.of_nat (length l))
    then take (Z.to_nat (k - i)) l ++ drop (S (Z.to_nat (k - i))) l
    else l.
Proof.
  induction l as [|x t IH]; intros i k.
  - simpl. match goal with |- context [if ?c then _ else _] => destruct c end;
      [|reflexivity].
    now rewrite take_nil.
  - cbn [Lots.filterOutIndex]. rewrite IH.
    change (length (x :: t)) with (S (length t)). rewrite Nat2Z.inj_succ.
    destruct (Z.eqb_spec i k) as [-> | Hne].
    + destruct (Z.leb_spec (k + 1) k) as [Hbad | _]; [lia|]. simpl andb.
      destruct (Z.leb_spec k k) as [_ | Hbad]; [|lia].
      destruct (Z.ltb_spec (k - k) (Z.succ (Z.of_nat (length t))))
        as [_ | Hbad]; [|lia].
      simpl andb. cbv iota. rewrite Z.sub_diag. simpl. now rewrite drop_0.
    + destruct (Z.leb_spec i k) as [Hle | Hgt].
      * destruct (Z.leb_spec (i + 1) k) as [_ | Hbad]; [|lia]. simpl andb.
        destruct (Z.ltb_spec (k - (i + 1)) (Z.of_nat (length t)))
          as [Hin | Hout];
        destruct (Z.ltb_spec (k - i) (Z.succ (Z.of_nat (length t))))
          as [Hin' | Hout']; try lia; [|reflexivity].
        replace (Z.to_nat (k - i)) with (S (Z.to_nat (k - (i + 1)))) by lia.
        reflexivity.
      * destruct (Z.leb_spec (i + 1) k) as [Hbad | _]; [lia|]. reflexivity.
Qed.

(** Filtering out a valid index removes that element and nothing else;
    any other index removes nothing. *)
Lemma filterOutIndex_spec {A} (l : list A) (k : Z) :
  (0 <= k < Z.of_nat (length l) ->
   Lots.filterOutIndex 0 k l
   = take (Z.to_nat k) l ++ drop (S (Z.to_nat k)) l)
  /\ (k < 0 \/ Z.of_nat (length l) <= k -> Lots.filterOutIndex 0 k l = l).
Proof.
  rewrite filterOutIndex_from, Z.sub_0_r. split.
  - intros [H1 H2].
    replace (0 <=? k) with true by (symmetry; apply Z.leb_le; lia).
    replace (k <? Z.of_nat (length l)) with true
      by (symmetry; apply Z.ltb_lt; lia).
    reflexivity.
  - intros [H | H].
    + replace (0 <=? k) with false by (symmetry; apply Z.leb_gt; lia).
      reflexivity.
    + replace (k <? Z.of_nat (length l)) with false
        by (symmetry; apply Z.ltb_ge; lia).
      now rewrite andb_false_r.
Qed.

Lemma filterOutIndex_length {A} (l : list A) (k : Z) :
  length (Lots.filterOutIndex 0 k l)
  = if (0 <=? k) && (k <? Z.of_nat (length l))
    then pred (length l) else length l.
Proof.
  rewrite filterOutIndex_from, Z.sub_0_r.
  destruct (Z.leb_spec 0 k) as [H0 | H0]; simpl; [|reflexivity].
  destruct (Z.ltb_spec k (Z.of_nat (length l))) as [H1 | H1]; [|reflexivity].
  rewrite length_app, length_take, length_drop. lia.
Qed.

(** X1. Moving to the next lot from any cursor of at least -1 lands on a
    lot of the array: an existing one, or, when the cursor was on or past
    the last lot, a fresh empty lot appended behind the untouched old ones. *)
Theorem next_lot_lands_on_a_lot (fresh_id : string) (st : State)
    (Hcur : -1 <= activeLotIdx st) :
  validActive (handleNextLot fresh_id st)
  /\ (exists added, lots (handleNextLot fresh_id st) = lots st ++ added)
  /\ (len st - 1 <= activeLotIdx st ->
      lookupZ (lots (handleNextLot fresh_id st))
              (activeLotIdx (handleNextLot fresh_id st))
      = Some (createNewLot fresh_id)).
Proof.
  unfold handleNextLot, validActive.
  destruct (Z.ltb_spec (activeLotIdx st) (len st - 1)) as [Hlt | Hge];
    unfold len in *; simpl.
  - split; [lia|]. split; [exists []; now rewrite app_nil_r | lia].
  - split; [rewrite length_app; simpl; lia|].
    split; [eexists; reflexivity|]. intros _.
    unfold lookupZ.
    replace (Z.of_nat (length (lots st)) <? 0) with false
      by (symmetry; apply Z.ltb_ge; lia).
    rewrite Nat2Z.id, lookup_app_r by lia.
    now rewrite Nat.sub_diag.
Qed.

Lemma next_lot_lands_on_a_lot_witness :
  -1 <= activeLotIdx {| lots := []; activeLotIdx := -1 |}
  /\ validActive (handleNextLot "lot-1" {| lots := []; activeLotIdx := -1 |}).
Proof.
  assert (H : -1 <= activeLotIdx {| lots := []; activeLotIdx := -1 |})
    by (simpl; lia).
  split; [exact H|].
  apply (next_lot_lands_on_a_lot "lot-1" {| lots := []; activeLotIdx := -1 |} H).
Defined.

(** X2. Next and previous undo each other: stepping forward to an existing
    lot and back returns the session as it was, and so does stepping back
    and forward; at lot 0 stepping back does nothing. *)
Theorem prev_next_round_trip (fresh_id : string) (st : State)
    (Hvalid : validActive st) :
  (activeLotIdx st < len st - 1 ->
   handlePrevLot (handleNextLot fresh_id st) = st)
  /\ (0 < activeLotIdx st ->
      handleNextLot fresh_id (handlePrevLot st) = st)
  /\ (activeLotIdx st = 0 -> handlePrevLot st = st).
Proof.
  destruct st as [ls a]. unfold validActive, len in Hvalid. simpl in Hvalid.
  unfold handlePrevLot, handleNextLot, len; simpl. repeat split.
  - intros Hlt.
    replace (a <? Z.of_nat (length ls) - 1) with true
      by (symmetry; apply Z.ltb_lt; lia). simpl.
    replace (0 <? a + 1) with true by (symmetry; apply Z.ltb_lt; lia).
    simpl. f_equal. lia.
  - intros Hpos.
    replace (0 <? a) with true by (symmetry; apply Z.ltb_lt; lia). simpl.
    replace (a - 1 <? Z.of_nat (length ls) - 1) with true
      by (symmetry; apply Z.ltb_lt; lia).
    f_equal. lia.
  - intros ->. reflexivity.
Qed.

Lemma prev_next_round_trip_witness :
  validActive {| lots := [Samples.bundleLot; Samples.threeShotLot];
                 activeLotIdx := 0 |}
  /\ handlePrevLot
       (handleNextLot "lot-9"
          {| lots := [Samples.bundleLot; Samples.threeShotLot];
             activeLotIdx := 0 |})
     = {| lots := [Samples.bundleLot; Samples.threeShotLot];
          activeLotIdx := 0 |}.
Proof.
  assert (H : validActive {| lots := [Samples.bundleLot; Samples.threeShotLot];
                             activeLotIdx := 0 |})
    by (unfold validActive, len; simpl; lia).
  split; [exact H|].
  apply (prev_next_round_trip "lot-9" _ H). unfold len; simpl. lia.
Defined.

Lemma capture_lots_length cr cap pressed m e taken (st : State) :
  length (lots (snd (capture cr cap pressed m e taken st)))
  = length (lots st).
Proof.
  unfold capture. destruct (activeLotIdx pressed <? 0); [reflexivity|]. simpl.
  destruct (handleCapture_snd_cases cr cap (lots pressed) (lots st)
              (Z.to_nat (activeLotIdx pressed)) m e taken)
    as [-> | [p ->]]; [reflexivity | apply fileCapture_length].
Qed.

Lemma capture_keeps_cursor cr cap pressed m e taken (st : State) :
  activeLotIdx (snd (capture cr cap pressed m e taken st)) = activeLotIdx st.
Proof.
  unfold capture. destruct (activeLotIdx pressed <? 0); reflexivity.
Qed.

Lemma step_valid (st : State) (a : Action) :
  validActive st -> validActive (step st a).
Proof.
  intros Hv. destruct a as [fresh | | pressed m e p | fresh]; cbn [step].
  - unfold handleNextLot, validActive in *.
    destruct (Z.ltb_spec (activeLotIdx st) (len st - 1));
      unfold len in *; simpl; [lia|].
    rewrite length_app; simpl; lia.
  - unfold handlePrevLot, validActive, len in *.
    destruct (Z.ltb_spec 0 (activeLotIdx st)); simpl; lia.
  - unfold validActive, len in *.
    rewrite capture_lots_length, capture_keeps_cursor. exact Hv.
  - unfold autoSeed, validActive, len in *.
    destruct (Z.eqb_spec (Z.of_nat (length (lots st))) 0); simpl; lia.
Qed.

(** X3. Once the camera has opened on an empty session, or on one whose
    cursor points at a lot, the cursor points at a lot after any sequence
    of next, previous, capture and re-seed actions. *)
Theorem session_cursor_invariant (fresh_id : string) (st : State)
    (actions : list Action)
    (Hstart : lots st = [] \/ validActive st) :
  validActive (run actions (autoSeed true fresh_id st))
  /\ lots (run actions (autoSeed true fresh_id st)) <> [].
Proof.
  assert (Hv : validActive (autoSeed true fresh_id st)).
  { unfold autoSeed, validActive, len in *. simpl.
    destruct Hstart as [-> | Hv]; simpl; [lia|].
    destruct (Z.eqb_spec (Z.of_nat (length (lots st))) 0); simpl; lia. }
  assert (Hrun : validActive (run actions (autoSeed true fresh_id st))).
  { unfold run. generalize dependent (autoSeed true fresh_id st).
    induction actions as [|a actions IH]; intros s Hs; simpl; [exact Hs|].
    apply IH. now apply step_valid. }
  split; [exact Hrun|].
  unfold validActive, len in Hrun. intros E. rewrite E in Hrun. simpl in Hrun.
  lia.
Qed.

Lemma session_cursor_invariant_witness :
  (lots {| lots := []; activeLotIdx := -1 |} = []
   \/ validActive {| lots := []; activeLotIdx := -1 |})
  /\ validActive
       (run [Shoot {| lots := [createNewLot "lot-1"]; activeLotIdx := 0 |}
                   per_item false (Samples.shot "a.jpg");
             Shoot {| lots := [createNewLot "lot-1"]; activeLotIdx := 0 |}
                   single_lot false (Samples.shot "b.jpg");
             Next "lot-2"; Prev; Prev; Next "lot-3"; Next "lot-4"]
            (autoSeed true "lot-1" {| lots := []; activeLotIdx := -1 |})).
Proof.
  split; [now left|].
  apply (session_cursor_invariant "lot-1" {| lots := []; activeLotIdx := -1 |}).
  now left.
Defined.

(** X4. When the cursor of the press names a lot of the session the photo
    comes back to, the capture is either refused for a mode mismatch,
    leaving the session as it was, or filed: the photo is then the newest
    main image (and the lot takes the mode) or the newest extra image of
    the lot under that cursor.  It is never lost. *)
Theorem capture_never_lost (pressed : State) (m : CaptureMode)
    (isExtra : bool) (photo : PhotoFile) (st : State)
    (Hvalid : 0 <= activeLotIdx pressed < len st) :
  (fst (capture true false pressed m isExtra (Some photo) st)
   = Lots.ModeMismatch
   /\ snd (capture true false pressed m isExtra (Some photo) st) = st)
  \/ (fst (capture true false pressed m isExtra (Some photo) st) = Lots.Filed
      /\ exists lot',
           lookupZ (lots (snd (capture true false pressed m isExtra
                                       (Some photo) st)))
                   (activeLotIdx pressed) = Some lot'
           /\ if isExtra then head (extraFiles lot') = Some photo
              else head (files lot') = Some photo /\ mode lot' = Some m).
Proof.
  destruct st as [ls c]. destruct pressed as [rendered a].
  unfold len in Hvalid. simpl in Hvalid.
  unfold capture, lookupZ; simpl.
  replace (a <? 0) with false by (symmetry; apply Z.ltb_ge; lia).
  destruct (lookup_lt_is_Some_2 ls (Z.to_nat a)) as [lot Hlot]; [lia|].
  unfold Lots.handleCapture; simpl.
  destruct (Lots.modeMismatch rendered (Z.to_nat a) m isExtra); simpl;
    [now left|].
  right. split; [reflexivity|]. destruct isExtra.
  - rewrite (fileCapture_extra _ _ _ _ _ Hlot). eexists; split; reflexivity.
  - rewrite (fileCapture_main _ _ _ _ _ Hlot). eexists; split; [reflexivity|].
    split; reflexivity.
Qed.

Lemma capture_never_lost_witness :
  (0 <= activeLotIdx {| lots := [Samples.bundleLot]; activeLotIdx := 0 |}
   < len {| lots := [Samples.bundleLot]; activeLotIdx := 0 |})
  /\ fst (capture true false
                  {| lots := [Samples.bundleLot]; activeLotIdx := 0 |}
                  single_lot false (Some (Samples.shot "c.jpg"))
                  {| lots := [Samples.bundleLot]; activeLotIdx := 0 |})
     <> Lots.CaptureFailed.
Proof.
  assert (H : 0 <= activeLotIdx {| lots := [Samples.bundleLot];
                                   activeLotIdx := 0 |}
              < len {| lots := [Samples.bundleLot]; activeLotIdx := 0 |})
    by (unfold len; simpl; lia).
  split; [exact H|].
  destruct (capture_never_lost
              {| lots := [Samples.bundleLot]; activeLotIdx := 0 |}
              single_lot false (Samples.shot "c.jpg") _ H)
    as [[-> _] | [-> _]]; discriminate.
Defined.

(** X5. Deleting the lot at a valid index removes exactly that lot, keeping
    the others in order; any other index removes nothing; and whenever lots
    remain, a cursor that pointed at a lot still points at one. *)
Theorem removeLot_keeps_cursor (idx : Z) (st : State)
    (Hvalid : validActive st) :
  (0 <= idx < len st ->
   lots (removeLot idx st)
   = take (Z.to_nat idx) (lots st) ++ drop (S (Z.to_nat idx)) (lots st))
  /\ (idx < 0 \/ len st <= idx -> lots (removeLot idx st) = lots st)
  /\ (lots (removeLot idx st) <> [] -> validActive (removeLot idx st)).
Proof.
  destruct (filterOutIndex_spec (lots st) idx) as [Hin Hout].
  split; [exact Hin|]. split; [exact Hout|].
  unfold validActive, len in *. unfold removeLot, len; simpl.
  rewrite filterOutIndex_length. intros Hne.
  assert (Hlen : length (Lots.filterOutIndex 0 idx (lots st)) <> 0%nat)
    by (destruct (Lots.filterOutIndex 0 idx (lots st)); [congruence | discriminate]).
  rewrite filterOutIndex_length in Hlen.
  destruct ((0 <=? idx) && (idx <? Z.of_nat (length (lots st))));
    destruct (Z.leb_spec (Z.of_nat (length (lots st)) - 1) (activeLotIdx st));
    lia.
Qed.

Lemma removeLot_keeps_cursor_witness :
  validActive {| lots := [Samples.bundleLot; Samples.threeShotLot];
                 activeLotIdx := 1 |}
  /\ validActive
       (removeLot 1 {| lots := [Samples.bundleLot; Samples.threeShotLot];
                       activeLotIdx := 1 |}).
Proof.
  assert (H : validActive {| lots := [Samples.bundleLot; Samples.threeShotLot];
                             activeLotIdx := 1 |})
    by (unfold validActive, len; simpl; lia).
  split; [exact H|].
  apply (removeLot_keeps_cursor 1 _ H). discriminate.
Defined.

End SessionFacts.

(* ------------------------------------------------------------------ *)
(** ** Editing a lot *)

Section LotEditFacts.
Import Types LotEdit.

(** Every edit leaves a lot at the edited position, and what it does to it
    is one of a few shapes; [Q] is shown for each of them. *)
Lemma applyEdit_cases (i : nat) (lots : list MixedLot) (lot : MixedLot)
    (e : Edit) (Q : MixedLot -> Prop) :
  lots !! i = Some lot ->
  Q lot ->
  (forall rendered m p, e = ECapture rendered m false p ->
     Lots.modeMismatch rendered i m false = false ->
     Q {| id := id lot; mode := Some m; files := p :: files lot;
          extraFiles := extraFiles lot; coverIndex := coverIndex lot;
          videoFile := videoFile lot |}) ->
  (forall p,
     Q {| id := id lot; mode := mode lot; files := files lot;
          extraFiles := p :: extraFiles lot; coverIndex := coverIndex lot;
          videoFile := videoFile lot |}) ->
  (forall k,
     Q {| id := id lot; mode := mode lot;
          files := Lots.filterOutIndex 0 k (files lot);
          extraFiles := extraFiles lot;
          coverIndex :=
            Z.max 0 (Z.min (Z.of_nat (length (Lots.filterOutIndex 0 k (files lot))) - 1)
                           (coverIndex lot));
          videoFile := videoFile lot |}) ->
  (forall k, e = ESetCover k ->
     Q {| id := id lot; mode := mode lot; files := files lot;
          extraFiles := extraFiles lot; coverIndex := k;
          videoFile := videoFile lot |}) ->
  (forall m, (mode lot = Some m \/ files lot = [] \/ mode lot = None) ->
     Q {| id := id lot; mode := Some m; files := files lot;
          extraFiles := extraFiles lot; coverIndex := coverIndex lot;
          videoFile := videoFile lot |}) ->
  (forall f rest, mode lot <> None ->
     Q {| id := id lot; mode := mode lot; files := files lot ++ f :: rest;
          extraFiles := extraFiles lot; coverIndex := coverIndex lot;
          videoFile := videoFile lot |}) ->
  (forall v,
     Q {| id := id lot; mode := mode lot; files := files lot;
          extraFiles := extraFiles lot; coverIndex := coverIndex lot;
          videoFile := Some v |}) ->
  exists lot', applyEdit i lots e !! i = Some lot' /\ Q lot'.
Proof.
  intros Hl Hsame Hmain Hextra Hrem Hcov Hmode Hpick Hvid.
  assert (Hlt : (i < length lots)%nat) by (eapply lookup_lt_Some; eassumption).
  destruct e as [rendered m isExtra p | k | k | m | picked | v];
    cbn [applyEdit].
  - unfold Lots.handleCapture; cbn [negb].
    destruct (Lots.modeMismatch rendered i m isExtra) eqn:Em; cbn [snd];
      [eauto|].
    destruct isExtra.
    + rewrite (fileCapture_extra _ _ _ _ _ Hl). eauto.
    + rewrite (fileCapture_main _ _ _ _ _ Hl). eexists; split; [reflexivity|].
      now apply (Hmain rendered).
  - unfold Lots.removeImage. rewrite Hl. cbn [orKeep].
    rewrite list_lookup_insert_eq by assumption. eauto.
  - unfold Lots.setCoverImage. rewrite Hl. cbn [orKeep].
    rewrite list_lookup_insert_eq by assumption. eauto.
  - unfold setLotMode. rewrite Hl.
    destruct (mode lot) as [lm|] eqn:Em.
    + destruct (CaptureMode_eqb_spec lm m) as [-> | Hne]; cbn [negb andb].
      * cbn [orKeep]. rewrite list_lookup_insert_eq by assumption.
        eexists; split; [reflexivity|]. apply Hmode. now left.
      * destruct (Z.ltb_spec 0 (Z.of_nat (length (files lot)))) as [Hpos | Hz];
          cbn [orKeep]; [eauto|].
        rewrite list_lookup_insert_eq by assumption.
        eexists; split; [reflexivity|]. apply Hmode. right. left.
        destruct (files lot); [reflexivity | simpl in Hz; lia].
    + cbn [orKeep]. rewrite list_lookup_insert_eq by assumption.
      eexists; split; [reflexivity|]. apply Hmode. now right; right.
  - unfold pickImages. rewrite Hl.
    destruct (mode lot) as [lm|] eqn:Em; cbn [fmap option_fmap option_map orKeep snd];
      [|eauto].
    destruct picked as [|f rest]; cbn [fmap option_fmap option_map orKeep snd];
      [eauto|].
    rewrite list_lookup_insert_eq by assumption.
    eexists; split; [reflexivity|]. apply Hpick. discriminate.
  - unfold attachVideo. rewrite Hl. cbn [orKeep].
    rewrite list_lookup_insert_eq by assumption. eauto.
Qed.

(** X6. While a lot holds main images its mode is locked against every
    edit that looks at the lot as it is: no removal, cover change, mode
    change, image pick, video or extra capture changes the mode of a lot
    that has a mode and at least one main image, and neither does a main
    capture whose button was pressed when the lot was already rendered with
    that mode. *)
Theorem mode_locked_while_images (i : nat) (lots : list MixedLot)
    (lot : MixedLot) (lm : CaptureMode) (e : Edit)
    (Hlot : lots !! i = Some lot)
    (Hmode : mode lot = Some lm)
    (Hfiles : files lot <> [])
    (Hpress : forall rendered m photo, e = ECapture rendered m false photo ->
                exists shown,
                  rendered !! i = Some shown /\ mode shown = Some lm) :
  exists lot', applyEdit i lots e !! i = Some lot' /\ mode lot' = Some lm.
Proof.
  apply (applyEdit_cases i lots lot e (fun l => mode l = Some lm) Hlot);
    cbn [mode]; auto.
  - intros rendered m p He Hguard.
    destruct (Hpress rendered m p He) as (shown & Hr & Hm).
    unfold Lots.modeMismatch in Hguard. rewrite Hr, Hm in Hguard.
    rewrite andb_true_r in Hguard. apply negb_false_iff in Hguard.
    destruct (CaptureMode_eqb_spec lm m); congruence.
  - intros m [H | [H | H]]; congruence.
Qed.

Lemma mode_locked_while_images_witness :
  [Samples.bundleLot] !! 0%nat = Some Samples.bundleLot
  /\ mode Samples.bundleLot = Some single_lot
  /\ files Samples.bundleLot <> []
  /\ (exists lot',
        applyEdit 0 [Samples.bundleLot] (ESetMode per_photo) !! 0%nat
        = Some lot'
        /\ mode lot' = Some single_lot)
  /\ (exists lot',
        applyEdit 0 [Samples.bundleLot]
                  (ECapture [Samples.bundleLot] per_item false
                            (Samples.shot "c.jpg")) !! 0%nat
        = Some lot'
        /\ mode lot' = Some single_lot).
Proof.
  assert (Hf : files Samples.bundleLot <> []) by discriminate.
  split; [reflexivity|]. split; [reflexivity|]. split; [exact Hf|]. split.
  - apply (mode_locked_while_images 0 [Samples.bundleLot] Samples.bundleLot
             single_lot (ESetMode per_photo) eq_refl eq_refl Hf).
    intros rendered m photo He. discriminate He.
  - apply (mode_locked_while_images 0 [Samples.bundleLot] Samples.bundleLot
             single_lot
             (ECapture [Samples.bundleLot] per_item false
                       (Samples.shot "c.jpg")) eq_refl eq_refl Hf).
    intros rendered m photo He. injection He as <- _ _.
    exists Samples.bundleLot. split; reflexivity.
Defined.

Lemma filterOutIndex_nonempty {A} (l : list A) : forall i k,
  Lots.filterOutIndex i k l <> [] -> l <> [].
Proof. destruct l; intros i k H; [exact H | discriminate]. Qed.

Lemma applyEdit_imagesHaveMode (i : nat) (lots : list MixedLot) (e : Edit) :
  (exists lot, lots !! i = Some lot /\ imagesHaveMode lot) ->
  exists lot', applyEdit i lots e !! i = Some lot' /\ imagesHaveMode lot'.
Proof.
  intros (lot & Hl & Hinv).
  apply (applyEdit_cases i lots lot e imagesHaveMode Hl);
    unfold imagesHaveMode in *; cbn [mode files]; auto; try discriminate.
  intros k Hne. apply Hinv. eapply filterOutIndex_nonempty; eassumption.
Qed.

(** X7. From a fresh lot, after any sequence of edits a lot that holds main
    images has a mode: images only get in through a capture, which sets
    the mode, or through the picker, which asks for one. *)
Theorem images_imply_mode (fresh : string) (lots : list MixedLot) (i : nat)
    (edits : list Edit)
    (Hfresh : lots !! i = Some (createNewLot fresh)) :
  exists lot', runEdits i edits lots !! i = Some lot' /\ imagesHaveMode lot'.
Proof.
  assert (H : exists lot, lots !! i = Some lot /\ imagesHaveMode lot).
  { eexists; split; [exact Hfresh|]. intros Hne. now destruct Hne. }
  clear Hfresh. unfold runEdits. revert lots H.
  induction edits as [|e edits IH]; intros lots H; simpl; [exact H|].
  apply IH. now apply applyEdit_imagesHaveMode.
Qed.

Lemma images_imply_mode_witness :
  [createNewLot "lot-1"] !! 0%nat = Some (createNewLot "lot-1")
  /\ exists lot',
       runEdits 0 [EPick [Samples.shot "g.jpg"]; ESetMode per_item;
                   EPick [Samples.shot "g.jpg"]; ERemoveMain 0;
                   ESetMode per_photo]
                [createNewLot "lot-1"] !! 0%nat = Some lot'
       /\ imagesHaveMode lot'.
Proof.
  split; [reflexivity|].
  apply (images_imply_mode "lot-1" [createNewLot "lot-1"] 0%nat). reflexivity.
Defined.

(** X8. A valid cover index survives every edit, as long as a cover change
    names an existing main image: captures and picks only lengthen the
    list, a removal re-clamps, and mode and video edits leave it alone. *)
Theorem cover_valid_under_edits (i : nat) (lots : list MixedLot)
    (lot : MixedLot) (e : Edit)
    (Hlot : lots !! i = Some lot)
    (Hvalid : Lots.coverValid lot)
    (Hcover : forall k, e = ESetCover k ->
                0 <= k < Z.of_nat (length (files lot))) :
  exists lot', applyEdit i lots e !! i = Some lot' /\ Lots.coverValid lot'.
Proof.
  apply (applyEdit_cases i lots lot e Lots.coverValid Hlot); auto.
  - intros rendered m p _ _. now apply coverValid_prepend.
  - intros k. apply coverValid_clamped.
  - intros k He. specialize (Hcover k He).
    unfold Lots.coverValid; cbn [files coverIndex].
    destruct (files lot); [simpl in Hcover; lia | exact Hcover].
  - intros f rest _. revert Hvalid. unfold Lots.coverValid; cbn [files coverIndex].
    destruct (files lot) as [|g t]; simpl; [intros ->; lia|].
    rewrite length_app. simpl. lia.
Qed.

Lemma cover_valid_under_edits_witness :
  [Samples.threeShotLot] !! 0%nat = Some Samples.threeShotLot
  /\ Lots.coverValid Samples.threeShotLot
  /\ exists lot',
       applyEdit 0 [Samples.threeShotLot] (ESetCover 1) !! 0%nat = Some lot'
       /\ Lots.coverValid lot'.
Proof.
  assert (Hv : Lots.coverValid Samples.threeShotLot)
    by (unfold Lots.coverValid; simpl; lia).
  split; [reflexivity|]. split; [exact Hv|].
  apply (cover_valid_under_edits 0 [Samples.threeShotLot] Samples.threeShotLot
           (ESetCover 1) eq_refl Hv).
  intros k [= <-]. simpl. lia.
Defined.

End LotEditFacts.

Section LotEditMoreFacts.
Import Types LotEdit.

(** X9. Removing a main image at a valid index takes out exactly that
    image, keeping the others in order; at any other index no image goes,
    and the whole array is unchanged if the cover index was valid.  Extra
    images, mode, id and video of the lot and all other lots stay as they
    were. *)
Theorem removeImage_exact (lots : list MixedLot) (i : nat) (k : Z)
    (lot : MixedLot)
    (Hlot : lots !! i = Some lot) :
  exists lots' lot',
    Lots.removeImage i k lots = Some lots' /\ lots' !! i = Some lot'
    /\ (0 <= k < Z.of_nat (length (files lot)) ->
        files lot' = take (Z.to_nat k) (files lot)
                     ++ drop (S (Z.to_nat k)) (files lot))
    /\ (k < 0 \/ Z.of_nat (length (files lot)) <= k ->
        files lot' = files lot /\ (Lots.coverValid lot -> lots' = lots))
    /\ extraFiles lot' = extraFiles lot /\ mode lot' = mode lot
    /\ id lot' = id lot /\ videoFile lot' = videoFile lot
    /\ (forall j, j <> i -> lots' !! j = lots !! j).
Proof.
  unfold Lots.removeImage. rewrite Hlot.
  assert (Hlt : (i < length lots)%nat) by (eapply lookup_lt_Some; eassumption).
  eexists _, _. split; [reflexivity|].
  split; [now apply list_lookup_insert_eq|]. cbn [files extraFiles mode id videoFile].
  destruct (filterOutIndex_spec (files lot) k) as [Hin Hout].
  split; [exact Hin|]. split.
  - intros Hk. rewrite (Hout Hk). split; [reflexivity|].
    intros Hv. apply list_insert_id. rewrite Hlot. f_equal.
    destruct lot as [li lm lf le lc lv]. unfold Lots.coverValid in Hv.
    cbn in *. f_equal. destruct lf; simpl in *; lia.
  - repeat split. intros j Hj. apply list_lookup_insert_ne. congruence.
Qed.

Lemma removeImage_exact_witness :
  [Samples.threeShotLot] !! 0%nat = Some Samples.threeShotLot
  /\ exists lots' lot',
       Lots.removeImage 0 1 [Samples.threeShotLot] = Some lots'
       /\ lots' !! 0%nat = Some lot'
       /\ files lot' = [Samples.shot "c.jpg"; Samples.shot "a.jpg"].
Proof.
  split; [reflexivity|].
  destruct (removeImage_exact [Samples.threeShotLot] 0%nat 1
              Samples.threeShotLot eq_refl)
    as (lots' & lot' & H1 & H2 & H3 & _).
  exists lots', lot'. split; [exact H1|]. split; [exact H2|].
  rewrite H3; [reflexivity | simpl; lia].
Defined.

(** X10. The cover index is never moved by images coming in.  A picked
    image goes to the end, so the cover image stays the same; a captured
    main image goes to the front, so the cover index then names the image
    that stood just before the old cover, and the new photo itself when
    the cover index was 0. *)
Theorem cover_image_under_growth (rendered lots : list MixedLot) (i : nat)
    (lot : MixedLot) (m : CaptureMode) (photo : PhotoFile)
    (picked : list PhotoFile)
    (Hpress : Lots.modeMismatch rendered i m false = false)
    (Hlot : lots !! i = Some lot)
    (Hmode : mode lot = Some m)
    (Hcover : 0 <= coverIndex lot < Z.of_nat (length (files lot))) :
  (exists lot',
     applyEdit i lots (ECapture rendered m false photo) !! i = Some lot'
     /\ coverIndex lot' = coverIndex lot
     /\ Session.lookupZ (files lot') (coverIndex lot')
        = if coverIndex lot =? 0 then Some photo
          else Session.lookupZ (files lot) (coverIndex lot - 1))
  /\ (exists lot',
        applyEdit i lots (EPick picked) !! i = Some lot'
        /\ coverIndex lot' = coverIndex lot
        /\ Session.lookupZ (files lot') (coverIndex lot')
           = Session.lookupZ (files lot) (coverIndex lot)).
Proof.
  assert (Hlt : (i < length lots)%nat) by (eapply lookup_lt_Some; eassumption).
  split.
  - cbn [applyEdit]. unfold Lots.handleCapture; cbn [negb].
    rewrite Hpress. cbn [snd].
    rewrite (fileCapture_main _ _ _ _ _ Hlot).
    eexists; split; [reflexivity|]. cbn [coverIndex files].
    split; [reflexivity|]. unfold Session.lookupZ.
    destruct (Z.ltb_spec (coverIndex lot) 0) as [Hneg | _]; [lia|].
    destruct (Z.eqb_spec (coverIndex lot) 0) as [-> | Hnz]; [reflexivity|].
    destruct (Z.ltb_spec (coverIndex lot - 1) 0) as [Hneg | _]; [lia|].
    replace (Z.to_nat (coverIndex lot))
      with (S (Z.to_nat (coverIndex lot - 1))) by lia.
    reflexivity.
  - cbn [applyEdit]. unfold pickImages. rewrite Hlot, Hmode.
    destruct picked as [|f rest];
      cbn [fmap option_fmap option_map orKeep snd].
    + exists lot. auto.
    + rewrite list_lookup_insert_eq by assumption.
      eexists; split; [reflexivity|]. cbn [coverIndex files].
      split; [reflexivity|]. unfold Session.lookupZ.
      destruct (Z.ltb_spec (coverIndex lot) 0) as [Hneg | _]; [lia|].
      apply lookup_app_l. lia.
Qed.

Lemma cover_image_under_growth_witness :
  Lots.modeMismatch [Samples.bundleLot] 0 single_lot false = false
  /\ [Samples.bundleLot] !! 0%nat = Some Samples.bundleLot
  /\ (0 <= coverIndex Samples.bundleLot
      < Z.of_nat (length (files Samples.bundleLot)))
  /\ exists lot',
       applyEdit 0 [Samples.bundleLot]
                 (ECapture [Samples.bundleLot] single_lot false
                           (Samples.shot "c.jpg")) !! 0%nat
       = Some lot'
       /\ Session.lookupZ (files lot') (coverIndex lot')
          = Some (Samples.shot "c.jpg").
Proof.
  assert (Hc : 0 <= coverIndex Samples.bundleLot
               < Z.of_nat (length (files Samples.bundleLot)))
    by (simpl; lia).
  split; [reflexivity|]. split; [reflexivity|]. split; [exact Hc|].
  destruct (cover_image_under_growth [Samples.bundleLot] [Samples.bundleLot]
              0%nat Samples.bundleLot single_lot (Samples.shot "c.jpg") []
              eq_refl eq_refl eq_refl Hc) as [(lot' & H1 & _ & H3) _].
  exists lot'. split; [exact H1|]. exact H3.
Defined.

(** X11. A recording starts only on a lot that has a mode.  On iOS the
    first press starts it; on Android the first press only switches the
    video use case on and the next press starts it; while a recording runs
    a further press does nothing. *)
Theorem recording_needs_mode (os : Format.PlatformOS) (lots : list MixedLot)
    (i : nat) (lot : MixedLot) (rs : RecState)
    (Hlot : lots !! i = Some lot)
    (Hidle : isRecording rs = false) :
  (fst (startRecording os true lots i rs) = RecStarted -> mode lot <> None)
  /\ (mode lot <> None ->
      fst (startRecording Format.ios true lots i rs) = RecStarted)
  /\ (mode lot <> None -> forceVideoUseCase rs = false ->
      fst (startRecording Format.android true lots i rs) = RecArmed
      /\ fst (startRecording Format.android true lots i
                (snd (startRecording Format.android true lots i rs)))
         = RecStarted)
  /\ (forall rs', fst (startRecording os true lots i rs') = RecStarted ->
        startRecording os true lots i
          (snd (startRecording os true lots i rs'))
        = (RecIgnored, snd (startRecording os true lots i rs'))).
Proof.
  destruct rs as [rec force time]. cbn in Hidle. subst rec.
  unfold startRecording, Format.enableVideoUseCase. rewrite Hlot.
  cbn [fmap option_fmap option_map isRecording forceVideoUseCase].
  split; [|split; [|split]].
  - destruct os, force, (mode lot); simpl; congruence.
  - intros Hm. simpl. destruct (mode lot); [reflexivity | congruence].
  - intros Hm Hf. cbn in Hf. subst force. simpl. split; [reflexivity|].
    destruct (mode lot); [reflexivity | congruence].
  - intros [rec' force' time'].
    cbn [isRecording forceVideoUseCase recordingTime].
    destruct rec'; simpl; [discriminate|].
    destruct os, force', (mode lot); simpl; intros; try discriminate;
      reflexivity.
Qed.

Lemma recording_needs_mode_witness :
  [Samples.bundleLot] !! 0%nat = Some Samples.bundleLot
  /\ fst (startRecording Format.ios true [Samples.bundleLot] 0
            {| isRecording := false; forceVideoUseCase := false;
               recordingTime := 0 |}) = RecStarted.
Proof.
  split; [reflexivity|].
  destruct (recording_needs_mode Format.ios [Samples.bundleLot] 0%nat
              Samples.bundleLot
              {| isRecording := false; forceVideoUseCase := false;
                 recordingTime := 0 |} eq_refl eq_refl) as (_ & Hios & _).
  apply Hios. discriminate.
Defined.

End LotEditMoreFacts.

(* ------------------------------------------------------------------ *)
(** ** Retry events *)

Section CameraInitEventFacts.
Import CameraInit CameraInitEvents.

Lemma polls_fixed (st : State) (k : nat) :
  cameraInitIntervalRef st = None -> polls k st = st.
Proof.
  intros H. induction k as [|k IH]; simpl; [reflexivity|].
  unfold poll. rewrite H. exact IH.
Qed.

(** X12. Polling is cancelled for good when a device arrives or the modal
    is closed before the budget is used up: the interval is cleared, later
    ticks change nothing and the no-camera condition is never raised. *)
Theorem polling_cancelled (n k : nat) (Hn : (n < 10)%nat) :
  let found := deviceArrives (polls n opened) in
  let closed := closeModal (polls n opened) in
  cameraInitIntervalRef found = None
  /\ polls k found = found
  /\ cameraInitTimedOut (polls k found) = false
  /\ cameraInitIntervalRef closed = None
  /\ polls k closed = closed
  /\ cameraInitTimedOut (polls k closed) = false.
Proof.
  rewrite opened_polling, polls_polling by (unfold RETRY_BUDGET; lia).
  cbv zeta.
  assert (Hf : cameraInitIntervalRef (deviceArrives (polling (0 + Z.of_nat n)))
               = None) by reflexivity.
  assert (Hc : cameraInitIntervalRef (closeModal (polling (0 + Z.of_nat n)))
               = None) by reflexivity.
  rewrite (polls_fixed _ k Hf), (polls_fixed _ k Hc).
  repeat split; reflexivity.
Qed.

Lemma polling_cancelled_witness :
  (3 < 10)%nat
  /\ cameraInitTimedOut (polls 20 (deviceArrives (polls 3 opened))) = false.
Proof.
  assert (H : (3 < 10)%nat) by lia.
  split; [exact H|].
  apply (polling_cancelled 3 20 H).
Defined.

(** X13. "Try Again" after the time-out puts the screen back where it was
    when it opened, whatever number of ticks went by in between: counter at
    zero, flag clear, a 500 ms interval armed, and so a full budget of ten
    polls ahead. *)
Theorem try_again_restarts (k : nat) :
  tryAgain (polls (10 + k) opened) = opened
  /\ cameraInitTimedOut (polls 9 (tryAgain (polls (10 + k) opened))) = false
  /\ cameraInitTimedOut (polls 10 (tryAgain (polls (10 + k) opened))) = true.
Proof.
  assert (H10 : polls (10 + k) opened = gaveUp 10).
  { rewrite polls_add, opened_polling.
    change 10%nat with (9 + 1)%nat. rewrite polls_add.
    rewrite polls_polling by (unfold RETRY_BUDGET; lia).
    simpl polls at 2. rewrite poll_polling. simpl. apply polls_gaveUp. }
  rewrite H10.
  assert (Ht : tryAgain (gaveUp 10) = opened) by reflexivity.
  rewrite Ht. split; [reflexivity|]. split; reflexivity.
Qed.

End CameraInitEventFacts.

(* ------------------------------------------------------------------ *)
(** ** Zoom in the UI *)

Section ZoomUiFacts.
Import Camera Zoom ZoomUi.
Local Open Scope Q_scope.

(** X14. An accepted preset tap locks the presets for 450 ms: a tap on any
    preset before that is ignored altogether, a tap from then on is
    accepted again and sets the zoom to its clamped factor.  An accepted
    tap on a preset other than "UW" leaves macro mode off, and one on "UW"
    leaves it on when macro is available. *)
Theorem preset_tap_lockout (now later : Z) (canMacro canMacro' : bool)
    (minZoom maxZoom : Q) (p q : ZoomPreset) (ui : Ui)
    (Hfree : (zoomPresetLockUntil ui <= now)%Z) :
  let ui1 := handleZoomPresetPress now canMacro minZoom maxZoom p ui in
  ((later < now + 450)%Z ->
     handleZoomPresetPress later canMacro' minZoom maxZoom q ui1 = ui1)
  /\ ((now + 450 <= later)%Z ->
      zoom (values (handleZoomPresetPress later canMacro' minZoom maxZoom q ui1))
      = Qmax minZoom (Qmin (value q) maxZoom)
      /\ zoomPresetLockUntil
           (handleZoomPresetPress later canMacro' minZoom maxZoom q ui1)
         = (later + 450)%Z)
  /\ zoom (values ui1) = Qmax minZoom (Qmin (value p) maxZoom)
  /\ suppressAutoModeUntil ui1 = (now + 1200)%Z
  /\ (label p <> "UW"%string -> macroMode ui1 = false)
  /\ (label p = "UW"%string -> canMacro = true -> macroMode ui1 = true).
Proof.
  cbv zeta.
  assert (E : handleZoomPresetPress now canMacro minZoom maxZoom p ui
              = {| values := setZoomLevel minZoom maxZoom (value p) (values ui);
                   zoomPresetLockUntil := (now + 450)%Z;
                   suppressAutoModeUntil := (now + 1200)%Z;
                   macroMode :=
                     if String.eqb (label p) "UW"
                     then (if canMacro && negb (macroMode ui) then true
                           else macroMode ui)
                     else (if macroMode ui then false else macroMode ui);
                   lastZoomUiUpdate := lastZoomUiUpdate ui |}).
  { unfold handleZoomPresetPress.
    destruct (Z.ltb_spec now (zoomPresetLockUntil ui)) as [Hbad | _];
      [lia | reflexivity]. }
  rewrite E. clear E.
  split; [|split; [|split; [|split; [|split]]]].
  - intros Hl. unfold handleZoomPresetPress.
    cbn [zoomPresetLockUntil].
    destruct (Z.ltb_spec later (now + 450)) as [_ | Hbad]; [reflexivity | lia].
  - intros Hl. unfold handleZoomPresetPress.
    cbn [zoomPresetLockUntil].
    destruct (Z.ltb_spec later (now + 450)) as [Hbad | _]; [lia|].
    split; reflexivity.
  - reflexivity.
  - reflexivity.
  - intros Hne. cbn [macroMode].
    destruct (String.eqb_spec (label p) "UW"); [contradiction|].
    now destruct (macroMode ui).
  - intros Hl Hc. cbn [macroMode]. rewrite Hl, Hc. simpl.
    now destruct (macroMode ui).
Qed.

Lemma preset_tap_lockout_witness :
  (0 <= 1000)%Z
  /\ handleZoomPresetPress 1300 false 1 16 (mkPreset "3x" 3)
       (handleZoomPresetPress 1000 false 1 16 (mkPreset "2x" 2)
          (mkUi Samples.restingZoom 0 0 false 0))
     = handleZoomPresetPress 1000 false 1 16 (mkPreset "2x" 2)
         (mkUi Samples.restingZoom 0 0 false 0).
Proof.
  assert (H : (zoomPresetLockUntil (mkUi Samples.restingZoom 0 0 false 0)
               <= 1000)%Z) by (simpl; lia).
  split; [lia|].
  apply (preset_tap_lockout 1000 1300 false false 1 16 (mkPreset "2x" 2)
           (mkPreset "3x" 3) _ H). lia.
Defined.

Lemma zoomReaction_time (now : Z) (z : Q) (ui : Ui) :
  lastZoomUiUpdate (zoomReaction now z ui) = lastZoomUiUpdate ui
  \/ (lastZoomUiUpdate (zoomReaction now z ui) = now
      /\ (120 <= now - lastZoomUiUpdate ui)%Z).
Proof.
  unfold zoomReaction, syncCurrentZoomFromUi.
  destruct (Qleb _ _); [|now left]. cbn [lastZoomUiUpdate].
  destruct (Z.ltb_spec (now - lastZoomUiUpdate ui) 120); [now left|].
  right. split; [reflexivity | assumption].
Qed.

(** X15. The zoom shown in the UI is written at most once per 120 ms: in
    any run of reactions, whatever their values and time stamps, two
    consecutive writes lie at least 120 ms apart, and the first at least
    120 ms after the last write before the run. *)
Theorem ui_zoom_rate_limited (events : list (Z * Q)) (ui : Ui) :
  spaced 120 (lastZoomUiUpdate ui) (uiUpdateTimes events ui).
Proof.
  revert ui. induction events as [|[now z] rest IH]; intros ui; simpl;
    [exact I|].
  destruct (zoomReaction_time now z ui) as [E | [E Hgap]].
  - rewrite E, Z.eqb_refl. rewrite <- E. apply IH.
  - destruct (Z.eqb_spec (lastZoomUiUpdate (zoomReaction now z ui))
                         (lastZoomUiUpdate ui)) as [E' | _].
    + rewrite <- E'. apply IH.
    + simpl. split; [assumption|]. rewrite <- E at 1. apply IH.
Qed.

Lemma Qabs_self_small (z : Q) : Qleb (2 # 100) (Qabs (z - z)) = false.
Proof.
  apply Qleb_false.
  assert (E : z - z == 0) by ring.
  rewrite E. reflexivity.
Qed.

(** X16. Reporting the same zoom value again never does anything, at
    whatever time: the reported value is remembered even when the 120 ms
    limit held the UI write back, so a write that was held back is not
    made up for until the zoom moves by 0.02 again. *)
Theorem zoom_report_not_retried (now later : Z) (z : Q) (ui : Ui) :
  zoomReaction later z (zoomReaction now z ui) = zoomReaction now z ui
  /\ ((now - lastZoomUiUpdate ui < 120)%Z ->
      currentZoom (values (zoomReaction later z (zoomReaction now z ui)))
      = currentZoom (values ui)).
Proof.
  assert (Hnoop : forall u, lastZoomReported (values u) = z ->
                            zoomReaction later z u = u).
  { intros u Hu. unfold zoomReaction. rewrite Hu.
    now rewrite Qabs_self_small. }
  assert (Hfirst : zoomReaction now z ui = ui
                   \/ lastZoomReported (values (zoomReaction now z ui)) = z).
  { unfold zoomReaction, syncCurrentZoomFromUi.
    destruct (Qleb _ _); [|now left]. right. cbn [lastZoomUiUpdate].
    destruct (now - lastZoomUiUpdate ui <? 120)%Z; reflexivity. }
  assert (Hidem : zoomReaction later z (zoomReaction now z ui)
                  = zoomReaction now z ui).
  { destruct Hfirst as [E | E]; [|now apply Hnoop].
    rewrite E. unfold zoomReaction in *.
    destruct (Qleb (2 # 100) (Qabs (z - lastZoomReported (values ui)))) eqn:Ec;
      [|reflexivity].
    unfold syncCurrentZoomFromUi in *. cbn [lastZoomUiUpdate] in *.
    destruct (later - lastZoomUiUpdate ui <? 120)%Z,
             (now - lastZoomUiUpdate ui <? 120)%Z;
      try (rewrite <- E at 2; apply Hnoop; rewrite <- E; reflexivity).
    all: exfalso; apply (f_equal (fun u => lastZoomReported (values u))) in E;
      cbn in E; rewrite <- E in Ec; rewrite Qabs_self_small in Ec;
      discriminate. }
  split; [exact Hidem|].
  intros Hthr. rewrite Hidem. unfold zoomReaction, syncCurrentZoomFromUi.
  destruct (Qleb _ _); [|reflexivity]. cbn [lastZoomUiUpdate].
  destruct (Z.ltb_spec (now - lastZoomUiUpdate ui) 120); [reflexivity | lia].
Qed.

Lemma zoom_report_not_retried_witness :
  (1050 - lastZoomUiUpdate (mkUi Samples.restingZoom 0 0 false 1000) < 120)%Z
  /\ currentZoom
       (values (zoomReaction 5000 2
                  (zoomReaction 1050 2
                     (mkUi Samples.restingZoom 0 0 false 1000))))
     = 1.
Proof.
  assert (H : (1050 - lastZoomUiUpdate (mkUi Samples.restingZoom 0 0 false 1000)
               < 120)%Z) by (simpl; lia).
  split; [exact H|].
  destruct (zoom_report_not_retried 1050 5000 2
              (mkUi Samples.restingZoom 0 0 false 1000)) as [_ Hk].
  rewrite (Hk H). reflexivity.
Defined.

End ZoomUiFacts.

Section ZoomMoreFacts.
Import Camera Zoom ZoomUi.
Local Open Scope Q_scope.

(** X17. Whatever the zoom range, a pinch reported with scale 1 leaves the
    zoom at the value it had when the gesture began, a scale of 3 or more
    takes it to the maximum and a scale of 2/3 or less to the minimum. *)
Theorem pinch_fixed_points (minZoom maxZoom eventScale : Q) (st : ZoomState) :
  (eventScale == 1 ->
   zoom (pinchUpdate minZoom maxZoom eventScale st) == pinchStartZoom st)
  /\ (3 <= eventScale ->
      zoom (pinchUpdate minZoom maxZoom eventScale st) == maxZoom)
  /\ (eventScale <= 2 # 3 ->
      zoom (pinchUpdate minZoom maxZoom eventScale st) == minZoom).
Proof. exact (pinchUpdate_knots minZoom maxZoom eventScale st). Qed.

Lemma pinch_fixed_points_witness :
  3 <= 4
  /\ zoom (pinchUpdate 1 16 4 Samples.restingZoom) == 16.
Proof.
  assert (H : 3 <= 4) by lra.
  split; [exact H|].
  destruct (pinch_fixed_points 1 16 4 Samples.restingZoom) as (_ & Hmax & _).
  exact (Hmax H).
Defined.

(** X18. Every preset button can be reached: with a positive neutral
    factor inside the zoom range, the factor of each entry of the preset
    list lies in the range, so tapping it sets the zoom to that very
    factor. *)
Theorem preset_tap_sets_factor (device : option CameraDevice)
    (maxResolutionMode : bool) (p : ZoomPreset) (st : ZoomState)
    (Hpos : 0 < neutralZoomOf device)
    (Hlo : minZoomOf device maxResolutionMode <= neutralZoomOf device)
    (Hhi : neutralZoomOf device <= maxZoomOf device)
    (Hin : In p (zoomPresets device maxResolutionMode)) :
  inRange (minZoomOf device maxResolutionMode) (maxZoomOf device) (value p)
  /\ zoom (setZoomLevel (minZoomOf device maxResolutionMode)
                        (maxZoomOf device) (value p) st) == value p.
Proof.
  assert (Hr : inRange (minZoomOf device maxResolutionMode)
                       (maxZoomOf device) (value p)).
  { unfold zoomPresets in Hin.
    set (mn := minZoomOf device maxResolutionMode) in *.
    set (mx := maxZoomOf device) in *.
    set (n := neutralZoomOf device) in *.
    clearbody mn mx n. unfold inRange.
    repeat (apply in_app_or in Hin; destruct Hin as [Hin | Hin]).
    - destruct (_ && Qltb mn n); [|destruct Hin].
      destruct Hin as [<- | []]. simpl. lra.
    - destruct Hin as [<- | []]. simpl. lra.
    - destruct (Qleb (n * 2) mx) eqn:E; [|destruct Hin].
      apply Qleb_true in E. destruct Hin as [<- | []]. simpl. lra.
    - destruct (_ || Qleb (n * 3) mx); [|destruct Hin].
      destruct Hin as [<- | []]. simpl.
      destruct (Qmin_cases (n * 3) mx) as [[H E] | [H E]]; rewrite E; lra.
    - destruct (Qleb (n * 5) mx) eqn:E; [|destruct Hin].
      apply Qleb_true in E. destruct Hin as [<- | []]. simpl. lra. }
  split; [exact Hr|]. unfold setZoomLevel; cbn [zoom].
  destruct Hr as [H1 H2].
  destruct (Qmin_cases (value p) (maxZoomOf device)) as [[A E] | [A E]];
  destruct (Qmax_cases (minZoomOf device maxResolutionMode)
                       (Qmin (value p) (maxZoomOf device))) as [[B F] | [B F]];
  rewrite F; lra.
Qed.

Lemma preset_tap_sets_factor_witness :
  0 < neutralZoomOf (Some Samples.tripleDevice)
  /\ zoom (setZoomLevel (minZoomOf (Some Samples.tripleDevice) false)
             (maxZoomOf (Some Samples.tripleDevice)) (1 # 2)
             Samples.restingZoom) == 1 # 2.
Proof.
  assert (Hpos : 0 < neutralZoomOf (Some Samples.tripleDevice))
    by (simpl; lra).
  split; [exact Hpos|].
  apply (preset_tap_sets_factor (Some Samples.tripleDevice) false
           (mkPreset "UW" (1 # 2)) Samples.restingZoom Hpos).
  - simpl. lra.
  - simpl. lra.
  - vm_compute. now left.
Defined.

(** X19. The buttons of a preset list carry pairwise different labels
    taken, in this order, from UW, 1x, 2x, 3x, 5x; the 1x button is always
    there, and the UW button never is in max-resolution mode nor when the
    minimum zoom is not below the neutral factor. *)
Theorem preset_labels (device : option CameraDevice) (maxResolutionMode : bool) :
  List.NoDup (List.map label (zoomPresets device maxResolutionMode))
  /\ sublist (List.map label (zoomPresets device maxResolutionMode)) allLabels
  /\ In "1x"%string (List.map label (zoomPresets device maxResolutionMode))
  /\ (maxResolutionMode = true
      \/ neutralZoomOf device <= minZoomOf device maxResolutionMode ->
      ~ In "UW"%string (List.map label (zoomPresets device maxResolutionMode))).
Proof.
  unfold zoomPresets, allLabels.
  set (mn := minZoomOf device maxResolutionMode).
  set (mx := maxZoomOf device). set (n := neutralZoomOf device).
  assert (Huw : maxResolutionMode = true \/ n <= mn ->
                (negb maxResolutionMode
                 && (deviceIncludes device ultra_wide_angle_camera
                     || Qltb (mn + (5 # 100)) n)) && Qltb mn n = false).
  { intros [-> | H]; [reflexivity|].
    apply andb_false_iff. right. now apply Qltb_false. }
  destruct ((negb maxResolutionMode
             && (deviceIncludes device ultra_wide_angle_camera
                 || Qltb (mn + (5 # 100)) n)) && Qltb mn n) eqn:E1;
  destruct (Qleb (n * 2) mx);
  destruct (deviceIncludes device telephoto_camera || Qleb (n * 3) mx);
  destruct (Qleb (n * 5) mx); simpl;
  (split; [repeat constructor; simpl; intuition discriminate|]);
  (split; [repeat (first [apply sublist_skip | apply sublist_cons | apply sublist_nil])|]);
  (split; [intuition|]);
  intros H; try (specialize (Huw H); discriminate);
  intuition discriminate.
Qed.

End ZoomMoreFacts.

Section ZoomMonotoneFacts.
Import Camera Zoom.
Local Open Scope Q_scope.

Lemma segment_value_mono (x1 x2 li ri lo ro : Q) :
  li < ri -> lo <= ro -> x1 <= x2 ->
  lo + (x1 - li) / (ri - li) * (ro - lo)
  <= lo + (x2 - li) / (ri - li) * (ro - lo).
Proof.
  intros Hk Ho Hx.
  assert (Hd : 0 <= / (ri - li)) by (apply Qinv_le_0_compat; lra).
  assert (H1 : (x1 - li) / (ri - li) <= (x2 - li) / (ri - li)).
  { unfold Qdiv. apply Qmult_le_compat_r; [lra | exact Hd]. }
  assert (H2 : (x1 - li) / (ri - li) * (ro - lo)
               <= (x2 - li) / (ri - li) * (ro - lo)).
  { apply Qmult_le_compat_r; [exact H1 | lra]. }
  lra.
Qed.

Lemma interpolateSegment_mono (x1 x2 li ri lo ro : Q) :
  li < ri -> lo <= ro -> x1 <= x2 ->
  interpolateSegment x1 li ri lo ro <= interpolateSegment x2 li ri lo ro.
Proof.
  intros Hk Ho Hx.
  assert (Hd : ~ ri - li == 0) by lra.
  pose proof (segment_value_mono x1 x2 li ri lo ro Hk Ho Hx) as Hv.
  destruct (interpolateSegment_cases x1 li ri lo ro Hd) as [H1 _].
  destruct (interpolateSegment_cases x2 li ri lo ro Hd) as [H2 _].
  cbv zeta in *. specialize (H1 Ho). specialize (H2 Ho).
  set (v1 := lo + (x1 - li) / (ri - li) * (ro - lo)) in *.
  set (v2 := lo + (x2 - li) / (ri - li) * (ro - lo)) in *.
  set (r1 := interpolateSegment x1 li ri lo ro) in *.
  set (r2 := interpolateSegment x2 li ri lo ro) in *.
  clearbody v1 v2 r1 r2.
  destruct H1 as [[A E1] | [[A E1] | (A & B & E1)]];
  destruct H2 as [[C E2] | [[C E2] | (C & D & E2)]];
  rewrite E1, E2; lra.
Qed.

Lemma interpolate3_mono (x1 x2 i0 i1 i2 o0 o1 o2 : Q) :
  i0 < i1 -> i1 < i2 -> o0 <= o1 -> o1 <= o2 -> x1 <= x2 ->
  interpolate3 x1 i0 i1 i2 o0 o1 o2 <= interpolate3 x2 i0 i1 i2 o0 o1 o2.
Proof.
  intros Hi01 Hi12 Ho01 Ho12 Hx. unfold interpolate3.
  pose proof (interpolateSegment_mono x1 x2 i0 i1 o0 o1 Hi01 Ho01 Hx) as Ma.
  pose proof (interpolateSegment_mono x1 x2 i1 i2 o1 o2 Hi12 Ho12 Hx) as Mb.
  pose proof (interpolateSegment_between x1 i0 i1 o0 o1) as Ba.
  pose proof (interpolateSegment_between x2 i1 i2 o1 o2) as Bb.
  destruct (Qltb i2 x1) eqn:A1; [apply Qltb_true in A1 | apply Qltb_false in A1];
  (destruct (Qltb i2 x2) eqn:A2; [apply Qltb_true in A2 | apply Qltb_false in A2]);
  (destruct (Qleb x1 i1) eqn:B1; [apply Qleb_true in B1 | apply Qleb_false in B1]);
  (destruct (Qleb x2 i1) eqn:B2; [apply Qleb_true in B2 | apply Qleb_false in B2]);
  try lra; try assumption;
  destruct Ba as [Ba | Ba]; destruct Bb as [Bb | Bb]; lra.
Qed.

(** X20. The zoom follows the fingers: with the anchor inside the zoom
    range, a larger gesture scale never gives a smaller zoom. *)
Theorem pinch_monotone (minZoom maxZoom e1 e2 : Q) (st : ZoomState)
    (Hanchor : minZoom <= pinchStartZoom st <= maxZoom)
    (Hscale : e1 <= e2) :
  zoom (pinchUpdate minZoom maxZoom e1 st)
  <= zoom (pinchUpdate minZoom maxZoom e2 st).
Proof.
  unfold pinchUpdate; cbn [zoom]. destruct Hanchor as [Hlo Hhi].
  apply interpolate3_mono; try lra.
  unfold SCALE_FULL_ZOOM. apply interpolate3_mono; try lra.
  - unfold Qlt; simpl; lia.
Qed.

Lemma pinch_monotone_witness :
  (1 <= pinchStartZoom Samples.restingZoom <= 16) /\ (1 # 2) <= 2
  /\ zoom (pinchUpdate 1 16 (1 # 2) Samples.restingZoom)
     <= zoom (pinchUpdate 1 16 2 Samples.restingZoom).
Proof.
  assert (Ha : 1 <= pinchStartZoom Samples.restingZoom <= 16) by (simpl; lra).
  assert (Hs : (1 # 2) <= 2) by lra.
  split; [exact Ha|]. split; [exact Hs|].
  exact (pinch_monotone 1 16 (1 # 2) 2 Samples.restingZoom Ha Hs).
Defined.

End ZoomMonotoneFacts.

(* ------------------------------------------------------------------ *)
(** ** Focus taps and guide box *)

Section FocusMoreFacts.
Import Types Focus FocusTap FocusBoxView.
Local Open Scope Q_scope.

(** X21. In portrait the preview is the largest 3:4 rectangle that fits
    the view, centred in it: for a view of positive size its sides are in
    ratio 3:4, neither exceeds the view, one of them fills it, and the
    margins on opposite sides are equal and not negative. *)
Theorem portrait_preview_fits (cvd dims : Dimensions) :
  let vw := orElse (dim_width cvd) (dim_width dims) in
  let vh := orElse (dim_height cvd) (dim_height dims) in
  let pv := portraitPreviewRect cvd dims in
  0 < vw -> 0 < vh ->
  pv_width pv * 4 == pv_height pv * 3
  /\ 0 < pv_width pv /\ pv_width pv <= vw
  /\ 0 < pv_height pv /\ pv_height pv <= vh
  /\ (pv_width pv == vw \/ pv_height pv == vh)
  /\ 0 <= left pv /\ left pv * 2 + pv_width pv == vw
  /\ 0 <= top pv /\ top pv * 2 + pv_height pv == vh.
Proof.
  cbv zeta. unfold portraitPreviewRect.
  set (vw := orElse (dim_width cvd) (dim_width dims)).
  set (vh := orElse (dim_height cvd) (dim_height dims)).
  clearbody vw vh. intros Hw Hh. cbn [pv_width pv_height left top].
  assert (E1 : vw * 4 / 3 == (4 # 3) * vw) by field.
  assert (E2 : vh * 3 / 4 == (3 # 4) * vh) by field.
  destruct (Qltb vh (vw * 4 / 3)) eqn:Et;
    [apply Qltb_true in Et | apply Qltb_false in Et].
  - assert (E3 : (vw - vh * 3 / 4) / 2 == (1 # 2) * vw - (3 # 8) * vh) by field.
    assert (E4 : (vh - vh) / 2 == 0) by field.
    destruct (Qmax_cases 0 ((vw - vh * 3 / 4) / 2)) as [[A F] | [A F]];
    destruct (Qmax_cases 0 ((vh - vh) / 2)) as [[B G] | [B G]];
    rewrite F, G; repeat split; try lra; right; lra.
  - assert (E3 : (vw - vw) / 2 == 0) by field.
    assert (E4 : (vh - vw * 4 / 3) / 2 == (1 # 2) * vh - (2 # 3) * vw) by field.
    destruct (Qmax_cases 0 ((vw - vw) / 2)) as [[A F] | [A F]];
    destruct (Qmax_cases 0 ((vh - vw * 4 / 3) / 2)) as [[B G] | [B G]];
    rewrite F, G; repeat split; try lra; left; lra.
Qed.

Lemma portrait_preview_fits_witness :
  0 < orElse 0 300 /\ 0 < orElse 0 600
  /\ pv_width (portraitPreviewRect (mkDims 0 0) (mkDims 300 600)) == 300
  /\ pv_height (portraitPreviewRect (mkDims 0 0) (mkDims 300 600)) == 400
  /\ top (portraitPreviewRect (mkDims 0 0) (mkDims 300 600)) == 100.
Proof.
  assert (Hw : 0 < orElse 0 300) by (vm_compute; reflexivity).
  assert (Hh : 0 < orElse 0 600) by (vm_compute; reflexivity).
  split; [exact Hw|]. split; [exact Hh|].
  destruct (portrait_preview_fits (mkDims 0 0) (mkDims 300 600) Hw Hh)
    as (H1 & _ & _ & _ & _ & H6 & _ & _ & _ & H10).
  assert (Ew : pv_width (portraitPreviewRect (mkDims 0 0) (mkDims 300 600))
               == 300) by (vm_compute; reflexivity).
  cbn [dim_width dim_height] in H10.
  assert (Eh : orElse 0 600 == 600) by (vm_compute; reflexivity).
  rewrite Eh in H10. rewrite Ew in H1.
  split; [exact Ew|]. split; lra.
Defined.

(** X22. A tap that is let through lies inside the preview rectangle and
    outside the bars laid over it, and the point handed to the driver is
    the tap in preview coordinates: the tap minus the preview origin,
    between 0 and the preview size on both axes. *)
Theorem focus_tap_in_preview (now : Z) (env : TapEnv)
    (locationX locationY : Q) (viewWidth viewHeight : option Q)
    (r : TapResult)
    (Hr : handleFocusAtPoint now env locationX locationY viewWidth viewHeight
          = Some r) :
  let pv := tapPreview env viewWidth viewHeight in
  let x := fst (tapFocusPoint r) in
  let y := snd (tapFocusPoint r) in
  left pv <= x /\ x <= left pv + pv_width pv
  /\ top pv <= y /\ y <= top pv + pv_height pv
  /\ isAllowedFocusTap (isLandscape (dimensions (focusEnv env))) (chrome env)
       x y
       (viewSide viewWidth (dim_width (cameraViewDimensions (focusEnv env)))
                 (dim_width (dimensions (focusEnv env))))
       (viewSide viewHeight (dim_height (cameraViewDimensions (focusEnv env)))
                 (dim_height (dimensions (focusEnv env)))) = true
  /\ (now >= suppressFocusUntil env)%Z /\ capturing env = false
  /\ forall fx fy, focusCall r = Some (fx, fy) ->
       fx == x - left pv /\ fy == y - top pv
       /\ 0 <= fx /\ fx <= pv_width pv /\ 0 <= fy /\ fy <= pv_height pv.
Proof.
  cbv zeta. unfold handleFocusAtPoint, tapPreview in *.
  destruct (Z.ltb_spec now (suppressFocusUntil env)) as [|Hnow]; [discriminate|].
  destruct (capturing env); [discriminate|].
  destruct (focusOn (focusEnv env)); [|discriminate]. cbn [negb] in Hr.
  set (vw := viewSide viewWidth _ _) in *.
  set (vh := viewSide viewHeight _ _) in *.
  set (x := Qmax 0 (Qmin locationX vw)) in *.
  set (y := Qmax 0 (Qmin locationY vh)) in *.
  set (pv := if negb (isLandscape (dimensions (focusEnv env)))
             then portraitPreviewRect _ _ else _) in *.
  clearbody pv x y vw vh.
  destruct (Qltb x (left pv)) eqn:E1; [discriminate|].
  destruct (Qltb (left pv + pv_width pv) x) eqn:E2; [discriminate|].
  destruct (Qltb y (top pv)) eqn:E3; [discriminate|].
  destruct (Qltb (top pv + pv_height pv) y) eqn:E4; [discriminate|].
  cbn [orb] in Hr.
  destruct (isAllowedFocusTap _ _ x y vw vh) eqn:Ea; [|discriminate].
  cbn [negb] in Hr. injection Hr as <-. cbn [tapFocusPoint focusCall fst snd].
  apply Qltb_false in E1, E2, E3, E4.
  repeat split; try assumption; try lia.
  all: intros; destruct (_ && _ && _ && _); [|discriminate];
    match goal with H : Some _ = Some _ |- _ => injection H as <- <- end.
  all: destruct (Qmin_cases (x - left pv) (pv_width pv)) as [[A F] | [A F]];
       destruct (Qmax_cases 0 (Qmin (x - left pv) (pv_width pv)))
         as [[B G] | [B G]];
       destruct (Qmin_cases (y - top pv) (pv_height pv)) as [[C F'] | [C F']];
       destruct (Qmax_cases 0 (Qmin (y - top pv) (pv_height pv)))
         as [[D G'] | [D G']];
       try rewrite G; try rewrite G'; lra.
Qed.

End FocusMoreFacts.

Section FocusBoxFacts.
Import Types Focus FocusTap FocusBoxView.
Local Open Scope Q_scope.

Lemma focus_tap_in_preview_witness :
  exists r,
    handleFocusAtPoint 1000 Samples2.tapEnv 150 300 None None = Some r
    /\ (forall fx fy, focusCall r = Some (fx, fy) -> fx == 150 /\ fy == 200).
Proof.
  destruct (handleFocusAtPoint 1000 Samples2.tapEnv 150 300 None None)
    as [r|] eqn:E; [|vm_compute in E; discriminate].
  exists r. split; [reflexivity|]. intros fx fy Hf.
  destruct (focus_tap_in_preview 1000 Samples2.tapEnv 150 300 None None r E)
    as (_ & _ & _ & _ & _ & _ & _ & Hcall).
  destruct (Hcall fx fy Hf) as (Hx & Hy & _).
  vm_compute in E. injection E as <-. cbn in Hx, Hy.
  split; [rewrite Hx | rewrite Hy]; reflexivity.
Defined.

(** X23. The guide box reported to the camera screen lies inside the view
    whenever it is no larger than the view; and once the pan has gone
    through [clampPosition], the reported corner is exactly the centred
    position moved by the pan. *)
Theorem guide_box_inside_view (screenWidth screenHeight : Q) (size : Size)
    (x y : Q)
    (Hw : 0 <= sz_width size <= screenWidth)
    (Hh : 0 <= sz_height size <= screenHeight) :
  (forall pan,
     let b := emitBoxChange screenWidth screenHeight size pan in
     0 <= box_x b /\ box_x b + box_width b <= screenWidth
     /\ 0 <= box_y b /\ box_y b + box_height b <= screenHeight)
  /\ (let pan := clampPosition screenWidth screenHeight x y
                               (sz_width size) (sz_height size) in
      let b := emitBoxChange screenWidth screenHeight size pan in
      box_x b == screenWidth / 2 - sz_width size / 2 + pan_x pan
      /\ box_y b == screenHeight / 2 - sz_height size / 2 + pan_y pan).
Proof.
  destruct Hw as [Hw0 Hw1]. destruct Hh as [Hh0 Hh1].
  assert (Range : forall s w c, 0 <= w -> w <= s ->
            0 <= Qmax 0 (Qmin c (Qmax 0 (s - w)))
            /\ Qmax 0 (Qmin c (Qmax 0 (s - w))) + w <= s).
  { intros s w c H0 H1.
    destruct (Qmax_cases 0 (s - w)) as [[A E] | [A E]];
    destruct (Qmin_cases c (Qmax 0 (s - w))) as [[B F] | [B F]];
    destruct (Qmax_cases 0 (Qmin c (Qmax 0 (s - w)))) as [[C G] | [C G]];
    rewrite G; lra. }
  assert (Inert : forall s w c, 0 <= w -> w <= s ->
            let m := (s - w) / 2 in
            let p := Qmax (- m) (Qmin m c) in
            Qmax 0 (Qmin (s / 2 - w / 2 + p) (Qmax 0 (s - w)))
            == s / 2 - w / 2 + p).
  { intros s w c H0 H1. cbv zeta.
    assert (Em : (s - w) / 2 == (1 # 2) * s - (1 # 2) * w) by field.
    assert (Es : s / 2 == (1 # 2) * s) by field.
    assert (Ew : w / 2 == (1 # 2) * w) by field.
    set (m := (s - w) / 2) in *. set (p := Qmax (- m) (Qmin m c)).
    assert (Hp : - m <= p /\ p <= m).
    { unfold p. destruct (Qmin_cases m c) as [[A E] | [A E]];
      destruct (Qmax_cases (- m) (Qmin m c)) as [[B F] | [B F]];
      rewrite F; lra. }
    clearbody p.
    destruct (Qmax_cases 0 (s - w)) as [[A E] | [A E]];
    destruct (Qmin_cases (s / 2 - w / 2 + p) (Qmax 0 (s - w)))
      as [[B F] | [B F]];
    destruct (Qmax_cases 0 (Qmin (s / 2 - w / 2 + p) (Qmax 0 (s - w))))
      as [[C G] | [C G]];
    rewrite G; lra. }
  split.
  - intros pan. cbv zeta. unfold emitBoxChange.
    cbn [box_x box_y box_width box_height].
    destruct (Range screenWidth (sz_width size)
                (screenWidth / 2 - sz_width size / 2 + pan_x pan) Hw0 Hw1).
    destruct (Range screenHeight (sz_height size)
                (screenHeight / 2 - sz_height size / 2 + pan_y pan) Hh0 Hh1).
    repeat split; assumption.
  - cbv zeta. unfold emitBoxChange, clampPosition.
    cbn [box_x box_y pan_x pan_y]. split.
    + apply (Inert screenWidth (sz_width size) x Hw0 Hw1).
    + apply (Inert screenHeight (sz_height size) y Hh0 Hh1).
Qed.

Lemma guide_box_inside_view_witness :
  (0 <= sz_width (mkSize 165 180) <= 300)
  /\ (0 <= sz_height (mkSize 165 180) <= 600)
  /\ box_x (emitBoxChange 300 600 (mkSize 165 180) (mkPan 500 0))
     + box_width (emitBoxChange 300 600 (mkSize 165 180) (mkPan 500 0))
     <= 300.
Proof.
  assert (Hw : 0 <= sz_width (mkSize 165 180) <= 300) by (simpl; lra).
  assert (Hh : 0 <= sz_height (mkSize 165 180) <= 600) by (simpl; lra).
  split; [exact Hw|]. split; [exact Hh|].
  destruct (guide_box_inside_view 300 600 (mkSize 165 180) 0 0 Hw Hh)
    as [Hin _].
  apply (Hin (mkPan 500 0)).
Defined.

(** X24. However far a corner is dragged, the guide box keeps each side
    between 80 px and nine tenths of the view, provided the view is at
    least 80/0.9 px on that side; dragging opposite corners by opposite
    amounts gives the same size. *)
Theorem guide_box_size_bounds (screenWidth screenHeight : Q) (c : Corner)
    (dx dy : Q) (start : Size)
    (Hw : MIN_SIZE <= screenWidth * MAX_SIZE_RATIO)
    (Hh : MIN_SIZE <= screenHeight * MAX_SIZE_RATIO) :
  let s := calcNewSize screenWidth screenHeight c dx dy start in
  MIN_SIZE <= sz_width s /\ sz_width s <= screenWidth * MAX_SIZE_RATIO
  /\ MIN_SIZE <= sz_height s /\ sz_height s <= screenHeight * MAX_SIZE_RATIO
  /\ sz_width s <= screenWidth /\ sz_height s <= screenHeight
  /\ calcNewSize screenWidth screenHeight tl dx dy start
     = calcNewSize screenWidth screenHeight br (- dx) (- dy) start.
Proof.
  cbv zeta. unfold calcNewSize, MIN_SIZE, MAX_SIZE_RATIO in *.
  cbn [sz_width sz_height].
  set (dw := match c with br | tr => dx * 2 | bl | tl => - dx * 2 end).
  set (dh := match c with br | bl => dy * 2 | tr | tl => - dy * 2 end).
  clearbody dw dh.
  destruct (Qmin_cases (screenWidth * (9 # 10)) (sz_width start + dw))
    as [[A E] | [A E]];
  destruct (Qmax_cases 80 (Qmin (screenWidth * (9 # 10)) (sz_width start + dw)))
    as [[B F] | [B F]];
  destruct (Qmin_cases (screenHeight * (9 # 10)) (sz_height start + dh))
    as [[C E'] | [C E']];
  destruct (Qmax_cases 80 (Qmin (screenHeight * (9 # 10)) (sz_height start + dh)))
    as [[D F'] | [D F']];
  rewrite F, F'; repeat split; try lra; reflexivity.
Qed.

Lemma guide_box_size_bounds_witness :
  MIN_SIZE <= 300 * MAX_SIZE_RATIO /\ MIN_SIZE <= 600 * MAX_SIZE_RATIO
  /\ sz_width (calcNewSize 300 600 br 1000 (-1000) (mkSize 165 180)) <= 300.
Proof.
  assert (Hw : MIN_SIZE <= 300 * MAX_SIZE_RATIO)
    by (unfold MIN_SIZE, MAX_SIZE_RATIO; lra).
  assert (Hh : MIN_SIZE <= 600 * MAX_SIZE_RATIO)
    by (unfold MIN_SIZE, MAX_SIZE_RATIO; lra).
  split; [exact Hw|]. split; [exact Hh|].
  apply (guide_box_size_bounds 300 600 br 1000 (-1000) (mkSize 165 180) Hw Hh).
Defined.

End FocusBoxFacts.

Section FocusPresentFacts.
Import Types Focus.
Local Open Scope Q_scope.

Lemma clampBox_some (n : NormBox) :
  0 <= nb_x n -> nb_x n + nb_w n <= 1 -> 1 # 100 <= nb_w n ->
  0 <= nb_y n -> nb_y n + nb_h n <= 1 -> 1 # 100 <= nb_h n ->
  exists r, clampBox n = Some r /\ boxEq r n.
Proof.
  intros Hx Hxw Hw Hy Hyh Hh.
  destruct (clampBox n) as [r|] eqn:E.
  - exists r. split; [reflexivity|]. apply (clampBox_id n r); try assumption; lra.
  - exfalso. unfold clampBox in E.
    assert (Ex : Qmax 0 (Qmin 1 (nb_x n)) == nb_x n)
      by (apply clamp_in_range; lra).
    assert (Ey : Qmax 0 (Qmin 1 (nb_y n)) == nb_y n)
      by (apply clamp_in_range; lra).
    assert (Ew : Qmax 0 (Qmin (1 - Qmax 0 (Qmin 1 (nb_x n))) (nb_w n)) == nb_w n)
      by (apply clamp_in_range; [lra | rewrite Ex; lra]).
    assert (Eh : Qmax 0 (Qmin (1 - Qmax 0 (Qmin 1 (nb_y n))) (nb_h n)) == nb_h n)
      by (apply clamp_in_range; [lra | rewrite Ey; lra]).
    match type of E with
    | (if Qltb ?w _ || Qltb ?h _ then _ else _) = _ =>
        destruct (Qltb w (1 # 100)) eqn:E1;
        [apply Qltb_true in E1; lra|];
        destruct (Qltb h (1 # 100)) eqn:E2;
        [apply Qltb_true in E2; lra | discriminate]
    end.
Qed.

(** X25. When focus is on and the guide box lies inside a preview of
    positive size, with sides of at least 8 px and at least a hundredth of
    the preview's, a focus region is always recorded: the box relative to
    the preview, turned by 90 degrees when image and preview differ in
    orientation. *)
Theorem focus_region_recorded (env : FocusEnv) (imageWidth imageHeight : Z)
    (box : BoxRect)
    (Hon : focusOn env = true)
    (Hbox : focusBoxRect env = Some box)
    (Hpw : 0 < pv_width (previewGeometry env))
    (Hph : 0 < pv_height (previewGeometry env))
    (Hx : left (previewGeometry env) <= box_x box
          /\ box_x box + box_width box
             <= left (previewGeometry env) + pv_width (previewGeometry env))
    (Hy : top (previewGeometry env) <= box_y box
          /\ box_y box + box_height box
             <= top (previewGeometry env) + pv_height (previewGeometry env))
    (Hw : 8 <= box_width box
          /\ pv_width (previewGeometry env) <= 100 * box_width box)
    (Hh : 8 <= box_height box
          /\ pv_height (previewGeometry env) <= 100 * box_height box) :
  let pv := previewGeometry env in
  let n := {| nb_x := (box_x box - left pv) / pv_width pv;
              nb_y := (box_y box - top pv) / pv_height pv;
              nb_w := box_width box / pv_width pv;
              nb_h := box_height box / pv_height pv |} in
  exists r,
    computeNormalizedFocusBox env imageWidth imageHeight = Some r
    /\ boxEq r (if orientationDiffers imageWidth imageHeight pv
                then swap90 n else n).
Proof.
  cbv zeta. unfold computeNormalizedFocusBox. rewrite Hon, Hbox. cbn [negb].
  set (pv := previewGeometry env) in *. clearbody pv.
  destruct Hx as [Hx1 Hx2]. destruct Hy as [Hy1 Hy2].
  destruct Hw as [Hw1 Hw2]. destruct Hh as [Hh1 Hh2].
  assert (El : Qmax (left pv) (box_x box) == box_x box).
  { destruct (Qmax_cases (left pv) (box_x box)) as [[A E] | [A E]];
      rewrite E; lra. }
  assert (Et : Qmax (top pv) (box_y box) == box_y box).
  { destruct (Qmax_cases (top pv) (box_y box)) as [[A E] | [A E]];
      rewrite E; lra. }
  assert (Er : Qmin (left pv + pv_width pv) (box_x box + box_width box)
               == box_x box + box_width box).
  { destruct (Qmin_cases (left pv + pv_width pv) (box_x box + box_width box))
      as [[A E] | [A E]]; rewrite E; lra. }
  assert (Eb : Qmin (top pv + pv_height pv) (box_y box + box_height box)
               == box_y box + box_height box).
  { destruct (Qmin_cases (top pv + pv_height pv) (box_y box + box_height box))
      as [[A E] | [A E]]; rewrite E; lra. }
  destruct (normalizedIntersection pv box) as [n|] eqn:En.
  2:{ exfalso. unfold normalizedIntersection in En.
      destruct (Qleb (pv_width pv) 0) eqn:E1; [apply Qleb_true in E1; lra|].
      destruct (Qleb (pv_height pv) 0) eqn:E2; [apply Qleb_true in E2; lra|].
      cbn [orb] in En.
      match type of En with
      | (if Qltb ?w 8 || Qltb ?h 8 then _ else _) = _ =>
          destruct (Qltb w 8) eqn:E3; [apply Qltb_true in E3; lra|];
          destruct (Qltb h 8) eqn:E4; [apply Qltb_true in E4; lra|]
      end.
      discriminate. }
  pose proof (normalizedIntersection_inside pv box n En)
    as (Ix & Ixw & Iw & Iy & Iyh & Ih).
  assert (Hn : nb_x n == (box_x box - left pv) / pv_width pv
               /\ nb_y n == (box_y box - top pv) / pv_height pv
               /\ nb_w n == box_width box / pv_width pv
               /\ nb_h n == box_height box / pv_height pv).
  { unfold normalizedIntersection in En.
    destruct (Qleb (pv_width pv) 0 || Qleb (pv_height pv) 0); [discriminate|].
    match type of En with
    | (if ?c then _ else _) = _ => destruct c; [discriminate|]
    end.
    injection En as <-. cbn [nb_x nb_y nb_w nb_h].
    rewrite El, Et, Er, Eb. repeat split; try reflexivity.
    - apply Qdiv_comp; [ring | reflexivity].
    - apply Qdiv_comp; [ring | reflexivity]. }
  destruct Hn as (Nx & Ny & Nw & Nh).
  assert (Mw : 1 # 100 <= nb_w n).
  { rewrite Nw. apply Qle_shift_div_l; [assumption | lra]. }
  assert (Mh : 1 # 100 <= nb_h n).
  { rewrite Nh. apply Qle_shift_div_l; [assumption | lra]. }
  destruct (orientationDiffers imageWidth imageHeight pv).
  - destruct (clampBox_some (swap90 n)) as (r & Hr & Hb);
      cbn [swap90 nb_x nb_y nb_w nb_h]; try lra.
    exists r. split; [exact Hr|].
    unfold boxEq in *. cbn [swap90 nb_x nb_y nb_w nb_h] in *.
    destruct Hb as (B1 & B2 & B3 & B4).
    rewrite B1, B2, B3, B4, Nx, Ny, Nw, Nh. repeat split; reflexivity.
  - destruct (clampBox_some n) as (r & Hr & Hb); try lra.
    exists r. split; [exact Hr|].
    unfold boxEq in *. cbn [nb_x nb_y nb_w nb_h].
    destruct Hb as (B1 & B2 & B3 & B4).
    rewrite B1, B2, B3, B4. repeat split; assumption.
Qed.

Lemma focus_region_recorded_witness :
  exists r, computeNormalizedFocusBox Samples.portraitEnv 3000 4000 = Some r
            /\ nb_w r == 1 # 2.
Proof.
  assert (Hpw : 0 < pv_width (previewGeometry Samples.portraitEnv))
    by (vm_compute; reflexivity).
  assert (Hph : 0 < pv_height (previewGeometry Samples.portraitEnv))
    by (vm_compute; reflexivity).
  destruct (focus_region_recorded Samples.portraitEnv 3000 4000
              (mkBox 100 300 200 200) eq_refl eq_refl Hpw Hph)
    as (r & Hr & Hb).
  - vm_compute. split; discriminate.
  - vm_compute. split; discriminate.
  - vm_compute. split; discriminate.
  - vm_compute. split; discriminate.
  - exists r. split; [exact Hr|].
    destruct Hb as (_ & _ & Hw & _). rewrite Hw. vm_compute. reflexivity.
Defined.

End FocusPresentFacts.

(* ------------------------------------------------------------------ *)
(** ** Format catalog: the other presets and the fallbacks *)

Section FormatMoreFacts.
Import Camera Format.

(** Sorting with a comparator that agrees with a ranking puts a
    best-ranked element first. *)
Lemma jsSort_head_best {A} (cmp : A -> A -> Q) (better : A -> A -> Prop) :
  (forall x, better x x) ->
  (forall x y z, better x y -> better y z -> better x z) ->
  (forall x y, Qltb 0 (cmp x y) = true -> better y x) ->
  (forall x y, Qltb 0 (cmp x y) = false -> better x y) ->
  forall l,
    match head (jsSort cmp l) with
    | Some h => In h l /\ forall g, In g l -> better h g
    | None => l = []
    end.
Proof.
  intros Hrefl Htrans Hgt Hle l.
  assert (Hhead : match jsSort cmp l with
                  | [] => True
                  | h :: _ => forall g, In g (jsSort cmp l) -> better h g
                  end).
  { unfold jsSort. induction l as [|x t IH]; simpl; [exact I|].
    set (s := foldr (sortInsert cmp) [] t) in *. clearbody s.
    destruct s as [|y s']; simpl.
    - intros g [<- | []]. apply Hrefl.
    - destruct (Qltb 0 (cmp x y)) eqn:E; simpl.
      + intros g [<- | Hg]; [apply Hrefl|].
        apply sortInsert_In in Hg. destruct Hg as [-> | Hg]; [now apply Hgt|].
        apply IH. now right.
      + intros g [<- | Hg]; [apply Hrefl|].
        apply (Htrans _ y); [now apply Hle | now apply IH]. }
  pose proof (fun z => jsSort_In cmp z l) as Hi.
  destruct (jsSort cmp l) as [|h s]; simpl.
  - destruct l as [|x t]; [reflexivity|].
    destruct (proj2 (Hi x) (or_introl eq_refl)).
  - split; [apply Hi; now left|]. intros g Hg. apply Hhead, Hi, Hg.
Qed.

(** A comparator that never asks for a swap leaves the order alone. *)
Lemma jsSort_no_swap {A} (cmp : A -> A -> Q) (l : list A) :
  (forall x y, Qltb 0 (cmp x y) = false) -> jsSort cmp l = l.
Proof.
  intros Hno. unfold jsSort. induction l as [|x t IH]; simpl; [reflexivity|].
  rewrite IH. destruct t as [|y t']; simpl; [reflexivity|].
  now rewrite Hno.
Qed.

(** With the Auto preset or a megapixel target other than 0 every score is
    finite. *)
Lemma formatScore_finite (preset : ResolutionPreset) (minRecommendedMP : Q)
    (f : CameraFormat) :
  (forall n, preset = PresetMP n -> ~ (n == 0)%Q) ->
  exists q, formatScore preset minRecommendedMP f = Finite q.
Proof.
  intros Hn. unfold formatScore.
  destruct preset as [| |n]; cbn [jsAdd]; try (eexists; reflexivity).
  assert (Hz : Qeqb (n * 1000000) 0 = false).
  { destruct (Qeqb (n * 1000000) 0) eqn:E; [|reflexivity].
    apply Qeqb_true in E. exfalso. apply (Hn n eq_refl). lra. }
  unfold divideNonNegative. rewrite Hz.
  destruct (Qleb 0 _); cbn [jsAdd]; eexists; reflexivity.
Qed.

(** With a megapixel target of 0 no score is finite. *)
Lemma formatScore_zero_target (n minRecommendedMP : Q) (f : CameraFormat) :
  (n == 0)%Q ->
  formatScore (PresetMP n) minRecommendedMP f = PosInfinity
  \/ formatScore (PresetMP n) minRecommendedMP f = NotANumber.
Proof.
  intros Hn. unfold formatScore.
  assert (Hz : Qeqb (n * 1000000) 0 = true) by (apply Qeqb_true; lra).
  unfold divideNonNegative. rewrite Hz.
  repeat match goal with
         | |- context [if ?c then _ else _] => destruct c
         | |- context [match maxFps f with _ => _ end] => destruct (maxFps f)
         end; cbn [jsAdd]; auto.
Qed.

(** X26. For the Auto preset and for a megapixel target other than 0, every
    score is finite and the format picked is one of the list with the
    lowest penalty score.  With a megapixel target of 0 the scores are
    [Infinity] or [NaN], no comparison asks for a swap, and the first format
    of the list is picked.  In both cases nothing is picked only from an
    empty list. *)
Theorem pickBestPhotoFormat_lowest_score (os : PlatformOS)
    (formats : list CameraFormat) (preset : ResolutionPreset)
    (minRecommendedMP : Q)
    (Hpreset : isMax preset = false) :
  ((forall n, preset = PresetMP n -> ~ (n == 0)%Q) ->
   match pickBestPhotoFormat os formats preset minRecommendedMP with
   | Some f =>
       In f formats
       /\ forall g, In g formats ->
            exists sf sg,
              formatScore preset minRecommendedMP f = Finite sf
              /\ formatScore preset minRecommendedMP g = Finite sg
              /\ (sf <= sg)%Q
   | None => formats = []
   end)
  /\ (forall n, preset = PresetMP n -> (n == 0)%Q ->
      pickBestPhotoFormat os formats preset minRecommendedMP = head formats)
  /\ (pickBestPhotoFormat os formats preset minRecommendedMP = None ->
      formats = []).
Proof.
  assert (Hfin : (forall n, preset = PresetMP n -> ~ (n == 0)%Q) ->
    match pickBestPhotoFormat os formats preset minRecommendedMP with
    | Some f =>
        In f formats
        /\ forall g, In g formats ->
             exists sf sg,
               formatScore preset minRecommendedMP f = Finite sf
               /\ formatScore preset minRecommendedMP g = Finite sg
               /\ (sf <= sg)%Q
    | None => formats = []
    end).
  { intros Hn. unfold pickBestPhotoFormat. rewrite Hpreset.
    destruct formats as [|f0 rest] eqn:Ef; [reflexivity|]. rewrite <- Ef.
    pose proof (jsSort_head_best
      (fun a b => compareScores (formatScore preset minRecommendedMP a)
                                (formatScore preset minRecommendedMP b))
      (fun a b => exists sa sb,
         formatScore preset minRecommendedMP a = Finite sa
         /\ formatScore preset minRecommendedMP b = Finite sb
         /\ (sa <= sb)%Q)) as H.
    apply H; clear H.
    - intros x.
      destruct (formatScore_finite preset minRecommendedMP x Hn) as [q Eq].
      exists q, q. repeat split; try exact Eq. apply Qle_refl.
    - intros x y z (sa & sb & Ea & Eb & Hab) (sb' & sc & Eb' & Ec & Hbc).
      rewrite Eb in Eb'. injection Eb' as <-.
      exists sa, sc. repeat split; try assumption. lra.
    - intros x y E.
      destruct (formatScore_finite preset minRecommendedMP x Hn) as [qx Ex].
      destruct (formatScore_finite preset minRecommendedMP y Hn) as [qy Ey].
      rewrite Ex, Ey in E. cbn [compareScores] in E. apply Qltb_true in E.
      exists qy, qx. repeat split; try assumption. lra.
    - intros x y E.
      destruct (formatScore_finite preset minRecommendedMP x Hn) as [qx Ex].
      destruct (formatScore_finite preset minRecommendedMP y Hn) as [qy Ey].
      rewrite Ex, Ey in E. cbn [compareScores] in E. apply Qltb_false in E.
      exists qx, qy. repeat split; try assumption. lra. }
  assert (Hzero : forall n, preset = PresetMP n -> (n == 0)%Q ->
            pickBestPhotoFormat os formats preset minRecommendedMP
            = head formats).
  { intros n -> Hn. unfold pickBestPhotoFormat. cbn [isMax].
    destruct formats as [|f0 rest] eqn:Ef; [reflexivity|]. rewrite <- Ef.
    rewrite jsSort_no_swap; [reflexivity|].
    intros x y.
    destruct (formatScore_zero_target n minRecommendedMP x Hn) as [-> | ->];
    destruct (formatScore_zero_target n minRecommendedMP y Hn) as [-> | ->];
    reflexivity. }
  split; [exact Hfin|]. split; [exact Hzero|].
  intros Hnone.
  destruct preset as [| |n]; [| discriminate Hpreset |].
  - assert (Hn : forall n, PresetAuto = PresetMP n -> ~ (n == 0)%Q)
      by (intros n E; discriminate E).
    specialize (Hfin Hn). now rewrite Hnone in Hfin.
  - destruct (Qeq_dec n 0) as [Hz | Hnz].
    + rewrite (Hzero n eq_refl Hz) in Hnone.
      destruct formats; [reflexivity | discriminate Hnone].
    + assert (Hn : forall k, PresetMP n = PresetMP k -> ~ (k == 0)%Q)
        by (intros k [= <-]; exact Hnz).
      specialize (Hfin Hn). now rewrite Hnone in Hfin.
Qed.

Lemma pickBestPhotoFormat_lowest_score_witness :
  isMax PresetAuto = false
  /\ isMax (PresetMP 0) = false
  /\ pickBestPhotoFormat ios (formats Samples.backWide) PresetAuto 10
     = Some (Samples.fmt 4000 3000)
  /\ pickBestPhotoFormat ios [Samples.fmt 2048 1536; Samples.fmt 4000 3000]
                         (PresetMP 0) 10
     = Some (Samples.fmt 2048 1536).
Proof.
  split; [reflexivity|]. split; [reflexivity|]. split.
  - destruct (pickBestPhotoFormat_lowest_score ios (formats Samples.backWide)
                PresetAuto 10 eq_refl) as (H & _ & _).
    assert (Hn : forall n, PresetAuto = PresetMP n -> ~ (n == 0)%Q)
      by (intros n E; discriminate E).
    specialize (H Hn).
    destruct (pickBestPhotoFormat ios (formats Samples.backWide) PresetAuto 10)
      as [f|] eqn:E; [|discriminate H].
    vm_compute in E. injection E as <-. reflexivity.
  - destruct (pickBestPhotoFormat_lowest_score ios
                [Samples.fmt 2048 1536; Samples.fmt 4000 3000]
                (PresetMP 0) 10 eq_refl) as (_ & H & _).
    rewrite (H 0%Q eq_refl); [reflexivity|]. reflexivity.
Defined.

(** X27. On Android under the Max preset with the video use case on, the
    format taken is one of the device with the largest video pixel count,
    and none is taken exactly when no format has a positive one; with the
    use case off the same holds for photo pixels. *)
Theorem android_max_format (d : CameraDevice) (enableVideo : bool) :
  let pixels := if enableVideo then videoPixels else photoPixels in
  match selectedFormat android (Some d) PresetMax enableVideo with
  | Some f => In f (formats d) /\ 0 < pixels f
              /\ forall g, In g (formats d) -> pixels g <= pixels f
  | None => forall g, In g (formats d) -> pixels g <= 0
  end.
Proof.
  cbv zeta. unfold selectedFormat; simpl.
  destruct enableVideo; simpl.
  - pose proof (reduceMax_final videoPixels (formats d)) as H.
    unfold ReduceInv in H. destruct (reduceMax videoPixels (formats d)); exact H.
  - pose proof (reduceMax_final photoPixels (formats d)) as H.
    unfold ReduceInv in H. destruct (reduceMax photoPixels (formats d)); exact H.
Qed.

(** X28. The largest megapixel count of a format list is reported only
    when it is positive: the result is the count of one of the formats and
    no format has more, and there is no result exactly when no format has a
    positive count. *)
Theorem getMaxFormatMegapixels_spec (formats : list CameraFormat) :
  match getMaxFormatMegapixels formats with
  | Some m =>
      (0 < m)%Q
      /\ (exists f, In f formats
                    /\ calcMegapixels (photoWidth f) (photoHeight f) = Some m)
      /\ forall g mp, In g formats ->
           calcMegapixels (photoWidth g) (photoHeight g) = Some mp ->
           (mp <= m)%Q
  | None =>
      forall g mp, In g formats ->
        calcMegapixels (photoWidth g) (photoHeight g) = Some mp -> (mp <= 0)%Q
  end.
Proof.
  unfold getMaxFormatMegapixels.
  set (stepf := fun (max : Q) (f : CameraFormat) =>
         match calcMegapixels (photoWidth f) (photoHeight f) with
         | Some mp => if negb (Qeqb mp 0) && Qltb max mp then mp else max
         | None => max
         end).
  assert (Inv : forall l seen acc,
            ((acc = 0%Q \/ exists f, In f seen
                 /\ calcMegapixels (photoWidth f) (photoHeight f) = Some acc)
             /\ (0 <= acc)%Q
             /\ forall g mp, In g seen ->
                  calcMegapixels (photoWidth g) (photoHeight g) = Some mp ->
                  (mp <= acc)%Q) ->
            let r := fold_left stepf l acc in
            (r = 0%Q \/ exists f, In f (seen ++ l)
                 /\ calcMegapixels (photoWidth f) (photoHeight f) = Some r)
            /\ (0 <= r)%Q
            /\ forall g mp, In g (seen ++ l) ->
                 calcMegapixels (photoWidth g) (photoHeight g) = Some mp ->
                 (mp <= r)%Q).
  { induction l as [|f l IH]; intros seen acc (Hsrc & Hnn & Hmax); cbv zeta.
    - simpl. rewrite app_nil_r. auto.
    - simpl fold_left.
      replace (seen ++ f :: l) with ((seen ++ [f]) ++ l)
        by (now rewrite <- app_assoc).
      apply IH. unfold stepf.
      destruct (calcMegapixels (photoWidth f) (photoHeight f)) as [mp|] eqn:Ec.
      + destruct (Qeqb mp 0) eqn:Ez; cbn [negb andb].
        * apply Qeqb_true in Ez. split; [|split; [assumption|]].
          -- destruct Hsrc as [-> | (f' & Hf' & Ef')]; [now left|].
             right. exists f'. split; [apply in_app_iff; now left | assumption].
          -- intros g q [Hg | [<- | []]]%in_app_iff Hq; [eauto|].
             rewrite Ec in Hq. injection Hq as <-. lra.
        * destruct (Qltb acc mp) eqn:El;
            [apply Qltb_true in El | apply Qltb_false in El].
          -- split; [|split; [lra|]].
             ++ right. exists f. split; [|assumption].
                apply in_app_iff. right. now left.
             ++ intros g q [Hg | [<- | []]]%in_app_iff Hq.
                ** specialize (Hmax g q Hg Hq). lra.
                ** rewrite Ec in Hq. injection Hq as <-. lra.
          -- split; [|split; [assumption|]].
             ++ destruct Hsrc as [-> | (f' & Hf' & Ef')]; [now left|].
                right. exists f'. split; [apply in_app_iff; now left | assumption].
             ++ intros g q [Hg | [<- | []]]%in_app_iff Hq; [eauto|].
                rewrite Ec in Hq. injection Hq as <-. exact El.
      + split; [|split; [assumption|]].
        * destruct Hsrc as [-> | (f' & Hf' & Ef')]; [now left|].
          right. exists f'. split; [apply in_app_iff; now left | assumption].
        * intros g q [Hg | [<- | []]]%in_app_iff Hq; [eauto|].
          rewrite Ec in Hq. discriminate. }
  specialize (Inv formats [] 0%Q). cbv zeta in Inv. simpl app in Inv.
  destruct Inv as (Hsrc & Hnn & Hmax).
  { split; [now left|]. split; [lra|]. intros g mp []. }
  fold stepf. set (r := fold_left stepf formats 0%Q) in *. clearbody r.
  destruct (Qltb 0 r) eqn:E; [apply Qltb_true in E | apply Qltb_false in E].
  - split; [assumption|]. split; [|assumption].
    destruct Hsrc as [-> | H]; [lra | exact H].
  - intros g mp Hg Hc. specialize (Hmax g mp Hg Hc). lra.
Qed.

End FormatMoreFacts.

Section DeviceChoiceFacts.
Import Camera Format.

(** The candidates of [bestDeviceForMaxRes], as in its body. *)
Lemma bestDeviceForMaxRes_spec (h : HookDevices) :
  let slots := [deviceWide h; deviceMulti h; deviceDefault h] in
  match bestDeviceForMaxRes h with
  | Some d =>
      exists mp, In (Some d) slots /\ maxMPOf (Some d) = Some mp
        /\ forall d' mp', In (Some d') slots -> maxMPOf (Some d') = Some mp' ->
             (mp' <= mp)%Q
  | None => forall d', In (Some d') slots -> maxMPOf (Some d') = None
  end.
Proof.
  cbv zeta.
  set (candidate := fun d : option CameraDevice =>
         match d, maxMPOf d with
         | Some dev, Some mp => [(dev, mp)]
         | _, _ => []
         end).
  set (cands := candidate (deviceWide h) ++ candidate (deviceMulti h)
                ++ candidate (deviceDefault h)).
  assert (Hc : forall d mp, In (d, mp) cands <->
                 In (Some d) [deviceWide h; deviceMulti h; deviceDefault h]
                 /\ maxMPOf (Some d) = Some mp).
  { intros d mp. unfold cands. rewrite !in_app_iff.
    assert (Hone : forall s, In (d, mp) (candidate s)
                             <-> s = Some d /\ maxMPOf (Some d) = Some mp).
    { intros s. unfold candidate. destruct s as [dev|]; [|simpl; intuition discriminate].
      destruct (maxMPOf (Some dev)) as [q|] eqn:E; simpl.
      - split.
        + intros [[= <- <-] | []]. auto.
        + intros [[= <-] Hq]. rewrite E in Hq. injection Hq as <-. now left.
      - split; [intros [] | intros [[= <-] Hq]; congruence]. }
    rewrite !Hone. simpl. intuition. }
  pose proof (jsSort_head_best (fun a b : CameraDevice * Q => (snd b - snd a)%Q)
                (fun a b => (snd b <= snd a)%Q)) as Hs.
  specialize (Hs (fun x => Qle_refl _)).
  specialize (Hs (fun x y z H1 H2 => Qle_trans _ _ _ H2 H1)).
  assert (H1 : forall x y : CameraDevice * Q,
             Qltb 0 (snd y - snd x) = true -> (snd x <= snd y)%Q)
    by (intros x y E; apply Qltb_true in E; lra).
  assert (H2 : forall x y : CameraDevice * Q,
             Qltb 0 (snd y - snd x) = false -> (snd y <= snd x)%Q)
    by (intros x y E; apply Qltb_false in E; lra).
  specialize (Hs H1 H2 cands). cbv beta in Hs.
  assert (Eq : bestDeviceForMaxRes h
               = fst <$> head (jsSort (fun a b : CameraDevice * Q =>
                                         (snd b - snd a)%Q) cands))
    by reflexivity.
  rewrite Eq. clear Eq.
  destruct (head (jsSort (fun a b : CameraDevice * Q => (snd b - snd a)%Q) cands))
    as [[d mp]|]; cbn [fmap option_fmap option_map fst].
  - destruct Hs as [Hin Hbest].
    destruct (proj1 (Hc d mp) Hin) as [Hslot Hmp].
    exists mp. split; [exact Hslot|]. split; [exact Hmp|].
    intros d' mp' Hd' Hmp'. apply (Hbest (d', mp')).
    apply (proj2 (Hc d' mp')). auto.
  - intros d' Hd'. destruct (maxMPOf (Some d')) as [q|] eqn:E; [|reflexivity].
    assert (Hin : In (d', q) cands) by (apply (proj2 (Hc d' q)); auto).
    rewrite Hs in Hin. destruct Hin.
Qed.

(** X29. Among the devices handed over by the driver's hooks that report a
    megapixel count, [bestDeviceForMaxRes] returns one with the highest
    count; it returns none exactly when none of them reports a count. *)
Theorem bestDeviceForMaxRes_highest (h : HookDevices) :
  match bestDeviceForMaxRes h with
  | Some d =>
      exists mp,
        In (Some d) [deviceWide h; deviceMulti h; deviceDefault h]
        /\ getMaxFormatMegapixels (formats d) = Some mp
        /\ forall d' mp',
             In (Some d') [deviceWide h; deviceMulti h; deviceDefault h] ->
             getMaxFormatMegapixels (formats d') = Some mp' -> (mp' <= mp)%Q
  | None =>
      forall d', In (Some d') [deviceWide h; deviceMulti h; deviceDefault h] ->
                 getMaxFormatMegapixels (formats d') = None
  end.
Proof. exact (bestDeviceForMaxRes_spec h). Qed.

(** X30. The device in use is never made up: it is a back camera of the
    device list or one of the devices handed over by the hooks, in every
    mode and for every preset; and there is one whenever the hooks offer a
    default device. *)
Theorem device_comes_from_driver (maxResolutionMode : bool)
    (preset : ResolutionPreset) (allDevices : list CameraDevice)
    (h : HookDevices) :
  (forall d, device maxResolutionMode preset allDevices h = Some d ->
     (In d allDevices /\ isBack (position d) = true)
     \/ In (Some d) [deviceWide h; deviceMulti h; deviceDefault h])
  /\ (deviceDefault h <> None ->
      device maxResolutionMode preset allDevices h <> None).
Proof.
  pose proof (bestDeviceForMaxRes_spec h) as Hb. cbv zeta in Hb.
  assert (Hbest : forall d, bestDeviceForMaxRes h = Some d ->
            In (Some d) [deviceWide h; deviceMulti h; deviceDefault h]).
  { intros d E. rewrite E in Hb. destruct Hb as (mp & H & _). exact H. }
  clear Hb.
  assert (Hor : forall a b d, orDevice a b = Some d -> a = Some d \/ b = Some d).
  { intros [a|] b d; simpl; auto. }
  split.
  - intros d. unfold device.
    destruct (maxResolutionMode && isMax preset).
    + destruct (bestHighResDevice allDevices) as [b|] eqn:E.
      * intros [= <-]. left.
        destruct (bestHighResDevice_spec allDevices b E) as (H1 & H2 & _). auto.
      * destruct (deviceWide h) as [w|] eqn:Ew.
        { intros [= <-]. right. simpl. auto. }
        destruct (bestDeviceForMaxRes h) as [b|] eqn:Eb.
        { intros [= <-]. right. now apply Hbest. }
        intros H. right. apply Hor in H. simpl. destruct H as [-> | ->]; auto.
    + destruct maxResolutionMode.
      * destruct (deviceWide h) as [w|] eqn:Ew.
        -- destruct (maxMPOf (Some w)).
           ++ destruct (_ && _).
              ** intros [= <-]. right. simpl. auto.
              ** intros H. right. apply Hor in H.
                 destruct H as [H | ->]; [|simpl; auto].
                 now apply Hbest.
           ++ intros [= <-]. right. simpl. auto.
        -- intros H. right. apply Hor in H.
           destruct H as [H | ->]; [|simpl; auto].
           now apply Hbest.
      * intros H. right. apply Hor in H. simpl. destruct H as [-> | ->]; auto.
  - intros Hd. destruct (deviceDefault h) as [dd|] eqn:Ed; [|congruence].
    assert (Hor2 : forall a, orDevice a (Some dd) <> None)
      by (intros [a|]; discriminate).
    unfold device. rewrite Ed.
    destruct (maxResolutionMode && isMax preset).
    + destruct (bestHighResDevice allDevices); [discriminate|].
      destruct (deviceWide h); [discriminate|].
      destruct (bestDeviceForMaxRes h); [discriminate | apply Hor2].
    + destruct maxResolutionMode; [|apply Hor2].
      destruct (deviceWide h) as [w|]; [|apply Hor2].
      destruct (maxMPOf (Some w)); [|discriminate].
      destruct (_ && _); [discriminate | apply Hor2].
Qed.

End DeviceChoiceFacts.

Section MoreWitnesses.
Import Camera Format Zoom ZoomUi.

Lemma preset_labels_witness :
  ~ In "UW"%string
       (List.map label (zoomPresets (Some Samples.tripleDevice) true)).
Proof.
  destruct (preset_labels (Some Samples.tripleDevice) true) as (_ & _ & _ & H).
  apply H. now left.
Defined.

Lemma android_max_format_witness :
  selectedFormat android (Some Samples.backWide) PresetMax true
  = Some (Samples.fmt 2048 1536).
Proof.
  pose proof (android_max_format Samples.backWide true) as H.
  destruct (selectedFormat android (Some Samples.backWide) PresetMax true)
    as [f|] eqn:E.
  - vm_compute in E. injection E as <-. reflexivity.
  - exfalso. cbv zeta in H.
    specialize (H (Samples.fmt 4000 3000) (or_intror (or_introl eq_refl))).
    vm_compute in H. apply H. reflexivity.
Defined.

Lemma getMaxFormatMegapixels_spec_witness :
  exists m, getMaxFormatMegapixels (formats Samples.backWide) = Some m
            /\ (m == 12)%Q.
Proof.
  pose proof (getMaxFormatMegapixels_spec (formats Samples.backWide)) as H.
  destruct (getMaxFormatMegapixels (formats Samples.backWide)) as [m|] eqn:E.
  - exists m. split; [reflexivity|].
    vm_compute in E. injection E as <-. reflexivity.
  - exfalso.
    assert (Hle : (inject_Z (4000 * 3000) / 1000000 <= 0)%Q).
    { apply (H (Samples.fmt 4000 3000)); [right; now left | reflexivity]. }
    vm_compute in Hle. apply Hle. reflexivity.
Defined.

Lemma bestDeviceForMaxRes_highest_witness :
  bestDeviceForMaxRes Samples.backHooks = Some Samples.backWide.
Proof.
  pose proof (bestDeviceForMaxRes_highest Samples.backHooks) as H.
  destruct (bestDeviceForMaxRes Samples.backHooks) as [d|] eqn:E.
  - vm_compute in E. injection E as <-. reflexivity.
  - exfalso. specialize (H Samples.backWide (or_introl eq_refl)).
    vm_compute in H. discriminate H.
Defined.

Lemma device_comes_from_driver_witness :
  Samples.backHooks.(deviceDefault) <> None
  /\ device false PresetAuto [] Samples.backHooks <> None.
Proof.
  assert (H : deviceDefault Samples.backHooks <> None) by discriminate.
  split; [exact H|].
  apply (device_comes_from_driver false PresetAuto [] Samples.backHooks). exact H.
Defined.

End MoreWitnesses.
